(** * AgentSynapse: the coordination core, embedded and verified

    A shallow embedding of the planner and executor of
    [agents/orchestrator/agentOrchestrator.py], of the agent turn loop of
    [core/agentEngine.py] and of the context assembly of
    [memory/memoryManager.py], with the properties the design document
    states about them. *)

From Stdlib Require Import ZArith Lia.
From Stdlib Require Import Floats.SpecFloat.
From Stdlib Require Import DecimalString.
From Stdlib Require DecimalPos DecimalZ.
From Stdlib Require Import Sorted.
From stdpp Require Import gmap strings list.

Set Warnings "-clear-no-such-hyp".

Local Open Scope string_scope.
Local Open Scope list_scope.
Local Open Scope Z_scope.

(** ** Exceptions and results

    Python exceptions are values of [Exn]; a call that may raise returns a
    [res]. [exnStr] is Python's [str(e)]. *)

Inductive Exn :=
  | KeyError (key : string)
  | ValueError (message : string)
  | OverflowError (message : string)
  | RecursionDepthExceeded (currentDepth maxDepth : Z)
  | TokenLimitExceeded (tokensUsed tokenLimit : Z)
  | AgentExecutionError (message : string)
  | CollaboratorError (message : string).

Inductive res (A : Type) :=
  | Ok (a : A)
  | Raise (e : Exn).
Arguments Ok {A} a.
Arguments Raise {A} e.

(** [str(n)] for a Python int. *)
Definition intStr (n : Z) : string := NilZero.string_of_int (Z.to_int n).

Definition exnStr (e : Exn) : string :=
  match e with
  | KeyError key => "'" +:+ key +:+ "'"
  | ValueError message => message
  | OverflowError message => message
  | RecursionDepthExceeded currentDepth maxDepth =>
      "Max recursion depth exceeded: " +:+ intStr currentDepth +:+ "/" +:+ intStr maxDepth
  | TokenLimitExceeded tokensUsed tokenLimit =>
      "Token limit exceeded: " +:+ intStr tokensUsed +:+ "/" +:+ intStr tokenLimit
  | AgentExecutionError message => message
  | CollaboratorError message => message
  end.

(** ** Schemas ([schemas/baseSchemas.py]) *)

Inductive AgentStatus := IDLE | RUNNING | COMPLETED | FAILED | TIMEOUT | CANCELLED.

Inductive AgentType :=
  ORCHESTRATOR | SQL_AGENT | BI_AGENT | ETL_AGENT | ANALYTICS_AGENT | CUSTOM.

Definition statusValue (s : AgentStatus) : string :=
  match s with
  | IDLE => "idle" | RUNNING => "running" | COMPLETED => "completed"
  | FAILED => "failed" | TIMEOUT => "timeout" | CANCELLED => "cancelled"
  end.

(** What a tool call leaves behind: the tool's own payload, or the
    [{"error": ...}] dict the engine synthesises. *)
Inductive ToolResult :=
  | ToolPayload (payload : string)
  | ToolErrorDict (error : string).

Record ToolCallRecord := {
  tcId : string;
  tcName : string;
  tcInput : string;
  tcResult : ToolResult
}.

(** A value of the orchestrator's results mapping: the dict built by
    [_executeTask], or [{"error": str(result)}]. *)
Inductive ResultEntry :=
  | TaskResult (response : option string) (toolCalls : list ToolCallRecord)
               (statusStr : string)
  | ErrorResult (error : string).

Record TaskDecomposition := {
  taskId : string;
  description : string;
  assignedAgentType : AgentType;
  dependencies : list string;
  priority : Z;
  estimatedTokens : Z;
  status : AgentStatus;
  result : option ResultEntry
}.

(** ** The planner: [AgentOrchestrator._buildExecutionPlan] *)

(** The plan dict [{"sequential": [...], "parallel": [...]}]. *)
Record ExecutionPlan := {
  sequential : list TaskDecomposition;
  parallel : list TaskDecomposition
}.

Definition depsCompleted (completed : gset string) (task : TaskDecomposition) : bool :=
  forallb (λ dep, bool_decide (dep ∈ completed)) (dependencies task).

(** [{task.taskId: task for task in tasks}]: a later task with the same id
    replaces an earlier one. *)
Definition buildTaskMap (tasks : list TaskDecomposition) : gmap string TaskDecomposition :=
  foldl (λ m task, <[taskId task := task]> m) ∅ tasks.

(** The body of [for taskId in list(remaining)]: [ids] is what is left of
    the snapshot [list(remaining)], [currentWave] and [remaining] are the
    loop's two mutated variables. [completed] is not touched inside a pass. *)
Fixpoint collectWave (taskMap : gmap string TaskDecomposition)
    (completed : gset string) (ids : list string)
    (currentWave : list TaskDecomposition) (remaining : gset string)
    : res (list TaskDecomposition * gset string) :=
  match ids with
  | [] => Ok (currentWave, remaining)
  | tid :: ids' =>
      match taskMap !! tid with
      | None => Raise (KeyError tid)
      | Some task =>
          if depsCompleted completed task then
            if decide (tid ∈ remaining) then
              collectWave taskMap completed ids' (currentWave ++ [task])
                          (remaining ∖ {[tid]})
            else Raise (KeyError tid)
          else collectWave taskMap completed ids' currentWave remaining
      end
  end.

Section Planner.

(** The order in which Python iterates over a set of strings depends on
    the process's hash seed; [order] is that order. *)
Variable order : gset string → list string.

(** The [while remaining:] loop. It is run with a fuel that bounds the
    number of passes; [None] means the fuel ran out. *)
Fixpoint layerWaves (fuel : nat) (taskMap : gmap string TaskDecomposition)
    (completed remaining : gset string) (waves : list (list TaskDecomposition))
    : option (res (list (list TaskDecomposition))) :=
  if decide (remaining = ∅) then Some (Ok waves)
  else
    match fuel with
    | O => None
    | S fuel' =>
        match collectWave taskMap completed (order remaining) [] remaining with
        | Raise e => Some (Raise e)
        | Ok ([], _) => Some (Ok waves)
        | Ok (currentWave, remaining') =>
            layerWaves fuel' taskMap
              (completed ∪ list_to_set (taskId <$> currentWave))
              remaining' (waves ++ [currentWave])
        end
    end.

(** The local variable [waves] when the [while] loop is left. *)
Definition buildWaves (tasks : list TaskDecomposition)
    : option (res (list (list TaskDecomposition))) :=
  let taskMap := buildTaskMap tasks in
  let remaining : gset string := list_to_set (taskId <$> tasks) in
  layerWaves (size remaining) taskMap ∅ remaining [].

(** [for wave in waves: ...extend(wave)]. *)
Definition extendPlan (plan : ExecutionPlan) (wave : list TaskDecomposition)
    : ExecutionPlan :=
  if decide (1 < length wave)%nat then
    {| sequential := sequential plan; parallel := parallel plan ++ wave |}
  else
    {| sequential := sequential plan ++ wave; parallel := parallel plan |}.

Definition planOfWaves (waves : list (list TaskDecomposition)) : ExecutionPlan :=
  foldl extendPlan {| sequential := []; parallel := [] |} waves.

Definition buildExecutionPlan (tasks : list TaskDecomposition)
    : option (res ExecutionPlan) :=
  match buildWaves tasks with
  | None => None
  | Some (Raise e) => Some (Raise e)
  | Some (Ok waves) => Some (Ok (planOfWaves waves))
  end.

End Planner.

(** ** A small state-and-exception monad

    Collaborator calls are recorded in a trace of [Event]s; a computation
    threads a state and either returns or raises. *)

Definition M (S A : Type) : Type := S → S * res A.

#[global] Instance M_ret {S} : MRet (M S) := λ A a s, (s, Ok a).
#[global] Instance M_bind {S} : MBind (M S) := λ A B k c s,
  match c s with
  | (s', Ok a) => k a s'
  | (s', Raise e) => (s', Raise e)
  end.

Definition raise {S A} (e : Exn) : M S A := λ s, (s, Raise e).
Definition getState {S} : M S S := λ s, (s, Ok s).
Definition modifyState {S} (f : S → S) : M S unit := λ s, (f s, Ok tt).

(** [try: c except Exception as e: h e]. *)
Definition tryExcept {S A} (c : M S A) (h : Exn → M S A) : M S A := λ s,
  match c s with
  | (s', Ok a) => (s', Ok a)
  | (s', Raise e) => h e s'
  end.

(** ** Settings ([config/settings.py]), with their defaults *)

Record Settings := {
  maxRecursionDepth : Z;
  maxParallelAgents : Z;
  maxTokenLimit : Z;
  maxContextTokens : Z;
  topKSemanticRetrieval : Z
}.

Definition defaultSettings : Settings :=
  {| maxRecursionDepth := 5; maxParallelAgents := 10; maxTokenLimit := 100000;
     maxContextTokens := 200000; topKSemanticRetrieval := 10 |}.


(** ** Python floats

    [maxTokens * 0.7] is a binary64 product and [totalTokens < ...] compares
    an int with a float exactly; both are written out over [spec_float]. *)

Definition prec : Z := 53.
Definition emax : Z := 1024.

(** The double nearest to 0.7. *)
Definition seventyPercent : spec_float :=
  S754_finite false 6305039478318694 (-53).

(** [float(n)], as [int * float] performs it. *)
Definition floatOfInt (n : Z) : res spec_float :=
  match binary_normalize prec emax n 0 false with
  | S754_infinity _ => Raise (OverflowError "int too large to convert to float")
  | f => Ok f
  end.

(** [n * f] for an int [n] and a float [f]. *)
Definition intMulFloat (n : Z) (f : spec_float) : res spec_float :=
  match floatOfInt n with
  | Raise e => Raise e
  | Ok x => Ok (SFmul prec emax x f)
  end.

(** [t < f] for an int [t] and a float [f]: Python compares the exact
    values. *)
Definition intLtFloat (t : Z) (f : spec_float) : bool :=
  match f with
  | S754_zero _ => t <? 0
  | S754_infinity s => negb s
  | S754_nan => false
  | S754_finite s m e =>
      let v := if s then Z.neg m else Z.pos m in
      if 0 <=? e then t <? v * 2 ^ e else t * 2 ^ (- e) <? v
  end.

(** ** Context assembly: [MemoryManager.retrieveContext] *)

(** The fields of [MemoryRecord] that the assembly reads. *)
Record MemoryRecord := {
  memId : string;
  memContent : string
}.

Record ProceduralMemoryRecord := {
  procName : string
}.

(** Calls to collaborators, in the order they are issued. *)
Inductive MemoryEvent :=
  | WorkingGetAll (sessionId : string)
  | EpisodicRetrieveBySession (sessionId : string) (limit : Z)
  | SemanticSearch (query : string) (limit : Z)
  | ProceduralSearch (limit : Z).

(** The stores behind the memory manager. [workingGetAll] gives
    [str(workingCtx)] of the dict it returns. [rankMemories] stands for
    [_rankMemories], which sorts by a score computed from the clock. *)
Record MemoryWorld := {
  workingGetAll : string → res string;
  retrieveBySession : string → Z → res (list MemoryRecord);
  semanticSearch : string → Z → res (list MemoryRecord);
  rankMemories : list MemoryRecord → string → list MemoryRecord;
  proceduralSearch : Z → res (list ProceduralMemoryRecord)
}.

(** The [context] dict. *)
Record Context := {
  working : string;
  episodic : list MemoryRecord;
  semantic : list MemoryRecord;
  procedural : list string;
  totalTokens : Z
}.

(** [BedrockClient.countTokens]: [len(text) // 4]. *)
Definition countTokens (text : string) : Z :=
  Z.of_nat (String.length text) `div` 4.

(** The two [for memory in ...] loops of [retrieveContext] are the same
    loop: append while the running total stays under [maxTokens], and
    [break] at the first record that does not fit. *)
Fixpoint includeWhileFits (maxTokens : Z) (memories : list MemoryRecord)
    (included : list MemoryRecord) (total : Z) : list MemoryRecord * Z :=
  match memories with
  | [] => (included, total)
  | memory :: rest =>
      let tokens := countTokens (memContent memory) in
      if total + tokens <? maxTokens then
        includeWhileFits maxTokens rest (included ++ [memory]) (total + tokens)
      else (included, total)
  end.

(** A collaborator call: log the event, then return or raise as the
    collaborator does. *)
Definition call {E A} (ev : E) (r : res A) : M (list E) A :=
  λ tr, (tr ++ [ev], r).

Definition liftRes {S A} (r : res A) : M S A := λ s, (s, r).

Definition retrieveContext (cfg : Settings) (W : MemoryWorld)
    (sessionId query : string) (maxTokens : Z) : M (list MemoryEvent) Context :=
  workingCtx ← call (WorkingGetAll sessionId) (workingGetAll W sessionId);
  let total0 := 0 + countTokens workingCtx in
  '(episodicTier, total1) ←
    (if total0 <? maxTokens then
       recentEpisodic ← call (EpisodicRetrieveBySession sessionId 10)
                             (retrieveBySession W sessionId 10);
       mret (includeWhileFits maxTokens recentEpisodic [] total0)
     else mret ([], total0));
  threshold ← liftRes (intMulFloat maxTokens seventyPercent);
  '(semanticTier, total2) ←
    (if intLtFloat total1 threshold then
       semanticMemories ← call (SemanticSearch query (topKSemanticRetrieval cfg))
                               (semanticSearch W query (topKSemanticRetrieval cfg));
       let rankedMemories := rankMemories W semanticMemories query in
       mret (includeWhileFits maxTokens rankedMemories [] total1)
     else mret ([], total1));
  proceduralPatterns ← call (ProceduralSearch 5) (proceduralSearch W 5);
  mret {| working := workingCtx;
          episodic := episodicTier;
          semantic := semanticTier;
          procedural := procName <$> take 3 proceduralPatterns;
          totalTokens := total2 |}.

(** ** The agent turn: [AgentEngine.execute] *)

Record AgentConfig := {
  agentId : string;
  agentName : string;
  agentType : AgentType;
  systemPrompt : string;
  maxTokens : Z;
  toolIds : list string
}.

Record ToolDefinition := {
  toolName : string;
  toolDescription : string;
  inputSchema : string
}.

(** A block of the model's [content] list. *)
Inductive ContentBlock :=
  | TextBlock (text : string)
  | ToolUseBlock (id name input : string)
  | OtherBlock (type : string).

(** The dict returned by [invokeModel]; [usageTotalTokens] is
    [response["usage"]["total_tokens"]] when both keys are there. *)
Record Response := {
  respContent : list ContentBlock;
  usageTotalTokens : option Z
}.

Inductive MessageContent :=
  | TextContent (text : string)
  | BlocksContent (blocks : list ContentBlock)
  | ToolResultContent (toolUseId content : string).

Record Message := {
  role : string;
  content : MessageContent
}.

Record ToolCall := {
  callId : string;
  callName : string;
  callInput : string
}.

Record AgentExecution := {
  execId : string;
  execAgentId : string;
  execSessionId : string;
  userMessage : string;
  agentResponse : option string;
  execStatus : AgentStatus;
  execToolCalls : list ToolCallRecord;
  tokensUsed : Z;
  executionTimeMs : Z;
  errorMessage : option string;
  parentExecutionId : option string;
  depth : Z
}.

(** What [storeInteraction] is called with; [topLevel] tells the
    importance 0.6 of a depth-0 turn from the 0.4 of a nested one. *)
Record Interaction := {
  intSessionId : string;
  intAgentId : string;
  intUserMessage : string;
  intAgentResponse : string;
  intToolsUsed : list string;
  intOutcome : string;
  intTopLevel : bool
}.

Inductive Event :=
  | GetToolsForAgent (toolIds : list string)
  | MemoryCall (ev : MemoryEvent)
  | GetConversationHistory (sessionId : string)
  | InvokeModel (iteration : nat) (messages : list Message) (system : string)
                (tools : option (list ToolDefinition))
  | ToolExecute (iteration : nat) (tool : ToolDefinition) (input : string)
  | AppendToConversation (sessionId : string) (message : Message)
  | StoreInteraction (interaction : Interaction).

(** The collaborators of one turn. The model and the tools answer
    according to the iteration they are called in. *)
Record EngineWorld := {
  newExecutionId : string;
  getToolsForAgent : list string → res (list ToolDefinition);
  memoryWorld : MemoryWorld;
  getConversationHistory : string → res (list Message);
  invokeModel : nat → list Message → res Response;
  toolExecute : nat → ToolDefinition → string → res string;
  appendToConversation : string → Message → res unit;
  storeInteraction : Interaction → res unit;
  elapsedMs : Z
}.

(** [BedrockClient.extractToolCalls]. *)
Definition extractToolCalls (response : Response) : list ToolCall :=
  omap (λ block,
          match block with
          | ToolUseBlock id name input =>
              Some {| callId := id; callName := name; callInput := input |}
          | _ => None
          end) (respContent response).

(** [BedrockClient.extractTextResponse]: the first text block, or [""]. *)
Fixpoint firstText (blocks : list ContentBlock) : string :=
  match blocks with
  | [] => ""
  | TextBlock text :: _ => text
  | _ :: rest => firstText rest
  end.

Definition extractTextResponse (response : Response) : string :=
  firstText (respContent response).

Definition newline : string := String (Ascii.ascii_of_nat 10) EmptyString.
Definition quote : string := String (Ascii.ascii_of_nat 34) EmptyString.

(** [", ".join(parts)] and the like. *)
Fixpoint join (sep : string) (parts : list string) : string :=
  match parts with
  | [] => ""
  | [part] => part
  | part :: rest => part +:+ sep +:+ join sep rest
  end.

(** [AgentEngine._buildSystemPrompt]. *)
Definition buildSystemPrompt (agentConfig : AgentConfig) (context : Context) : string :=
  let prompt1 :=
    match semantic context with
    | [] => systemPrompt agentConfig
    | _ =>
        let semanticFacts :=
          join newline ((λ mem, "- " +:+ memContent mem) <$> take 5 (semantic context)) in
        systemPrompt agentConfig +:+ newline +:+ newline +:+ "Relevant knowledge:"
          +:+ newline +:+ semanticFacts
    end in
  match procedural context with
  | [] => prompt1
  | _ =>
      prompt1 +:+ newline +:+ newline +:+ "Available patterns: "
        +:+ join ", " (procedural context)
  end.

(** [json.dumps({"error": message})], for a message that needs no escape. *)
Definition jsonErrorDict (message : string) : string :=
  "{" +:+ quote +:+ "error" +:+ quote +:+ ": " +:+ quote +:+ message +:+ quote +:+ "}".

(** [BedrockClient.formatToolResult]. *)
Definition formatToolResult (toolUseId : string) (toolResult : ToolResult) : Message :=
  {| role := "user";
     content := ToolResultContent toolUseId
                  match toolResult with
                  | ToolPayload payload => payload
                  | ToolErrorDict message => jsonErrorDict message
                  end |}.

(** The state of the [try] block: the calls issued so far and the
    [execution] object, which the block mutates. *)
Record TurnState := {
  trace : list Event;
  execution : AgentExecution
}.

Definition T (A : Type) : Type := M TurnState A.

Definition callT {A} (ev : Event) (r : res A) : T A :=
  λ st, ({| trace := trace st ++ [ev]; execution := execution st |}, r).

Definition updateExecution (f : AgentExecution → AgentExecution) : T unit :=
  modifyState (λ st, {| trace := trace st; execution := f (execution st) |}).

(** Run the memory manager inside a turn. *)
Definition liftMemory {A} (c : M (list MemoryEvent) A) : T A :=
  λ st, let '(evs, r) := c [] in
        ({| trace := trace st ++ (MemoryCall <$> evs); execution := execution st |}, r).

Definition setCompleted (text : string) (total : Z) (e : AgentExecution) : AgentExecution :=
  {| execId := execId e; execAgentId := execAgentId e;
     execSessionId := execSessionId e; userMessage := userMessage e;
     agentResponse := Some text; execStatus := COMPLETED;
     execToolCalls := execToolCalls e; tokensUsed := total;
     executionTimeMs := executionTimeMs e; errorMessage := errorMessage e;
     parentExecutionId := parentExecutionId e; depth := depth e |}.

Definition setFailed (message : string) (e : AgentExecution) : AgentExecution :=
  {| execId := execId e; execAgentId := execAgentId e;
     execSessionId := execSessionId e; userMessage := userMessage e;
     agentResponse := agentResponse e; execStatus := FAILED;
     execToolCalls := execToolCalls e; tokensUsed := tokensUsed e;
     executionTimeMs := executionTimeMs e; errorMessage := Some message;
     parentExecutionId := parentExecutionId e; depth := depth e |}.

Definition appendToolCall (record : ToolCallRecord) (e : AgentExecution) : AgentExecution :=
  {| execId := execId e; execAgentId := execAgentId e;
     execSessionId := execSessionId e; userMessage := userMessage e;
     agentResponse := agentResponse e; execStatus := execStatus e;
     execToolCalls := execToolCalls e ++ [record]; tokensUsed := tokensUsed e;
     executionTimeMs := executionTimeMs e; errorMessage := errorMessage e;
     parentExecutionId := parentExecutionId e; depth := depth e |}.

Definition setExecutionTime (ms : Z) (e : AgentExecution) : AgentExecution :=
  {| execId := execId e; execAgentId := execAgentId e;
     execSessionId := execSessionId e; userMessage := userMessage e;
     agentResponse := agentResponse e; execStatus := execStatus e;
     execToolCalls := execToolCalls e; tokensUsed := tokensUsed e;
     executionTimeMs := ms; errorMessage := errorMessage e;
     parentExecutionId := parentExecutionId e; depth := depth e |}.

(** The fixed [maxIterations = 10] of the loop. *)
Definition maxIterations : nat := 10.

Section Engine.

Variable cfg : Settings.
Variable W : EngineWorld.
Variable agentConfig : AgentConfig.
Variable tools : list ToolDefinition.
Variable prompt : string.

(** [for toolCall in toolCalls: ...], threading [messages]. *)
Fixpoint runToolCalls (iteration : nat) (toolCalls : list ToolCall)
    (messages : list Message) : T (list Message) :=
  match toolCalls with
  | [] => mret messages
  | toolCall :: rest =>
      toolResult ←
        match find (λ t, bool_decide (toolName t = callName toolCall)) tools with
        | None => mret (ToolErrorDict ("Tool " +:+ callName toolCall +:+ " not found"))
        | Some tool =>
            tryExcept
              (payload ← callT (ToolExecute iteration tool (callInput toolCall))
                               (toolExecute W iteration tool (callInput toolCall));
               mret (ToolPayload payload))
              (λ e, mret (ToolErrorDict (exnStr e)))
        end;
      updateExecution
        (appendToolCall {| tcId := callId toolCall; tcName := callName toolCall;
                           tcInput := callInput toolCall; tcResult := toolResult |});;
      runToolCalls iteration rest
        (messages ++ [formatToolResult (callId toolCall) toolResult])
  end.

(** [while iterations < maxIterations: ...]. [left] is
    [maxIterations - iterations], so the loop test is [left ≠ 0]; the
    value returned is [iterations] when the loop is left, by [break] or
    by its test. *)
Fixpoint toolLoop (left : nat) (iterations : nat) (messages : list Message)
    (total : Z) : T nat :=
  match left with
  | O => mret iterations
  | S left' =>
      let iterations := S iterations in
      response ← callT (InvokeModel iterations messages prompt
                          (match tools with [] => None | _ => Some tools end))
                       (invokeModel W iterations messages);
      let total := total + default 0 (usageTotalTokens response) in
      if maxTokenLimit cfg <? total then
        raise (TokenLimitExceeded total (maxTokenLimit cfg))
      else
        match extractToolCalls response with
        | [] =>
            updateExecution (setCompleted (extractTextResponse response) total);;
            mret iterations
        | toolCalls =>
            let messages :=
              messages ++ [{| role := "assistant";
                              content := BlocksContent (respContent response) |}] in
            messages ← runToolCalls iterations toolCalls messages;
            toolLoop left' iterations messages total
        end
  end.

End Engine.

(** The writes to the memory manager that end the [try] block: the user
    message, then, when the record carries a non-empty answer, the
    assistant message and the episodic record. *)
Definition persistTurn (W : EngineWorld) (agentConfig : AgentConfig)
    (message sessionId : string) (depth : Z) : T AgentExecution :=
  let userTurn := {| role := "user"; content := TextContent message |} in
  callT (AppendToConversation sessionId userTurn)
        (appendToConversation W sessionId userTurn);;
  st ← getState;
  match agentResponse (execution st) with
  | Some (String c text) =>
      let response := String c text in
      let assistantTurn := {| role := "assistant"; content := TextContent response |} in
      callT (AppendToConversation sessionId assistantTurn)
            (appendToConversation W sessionId assistantTurn);;
      let interaction :=
        {| intSessionId := sessionId; intAgentId := agentId agentConfig;
           intUserMessage := message; intAgentResponse := response;
           intToolsUsed := tcName <$> execToolCalls (execution st);
           intOutcome := match execStatus (execution st) with
                         | COMPLETED => "success"
                         | _ => "failed"
                         end;
           intTopLevel := bool_decide (depth = 0) |} in
      callT (StoreInteraction interaction) (storeInteraction W interaction);;
      st ← getState;
      mret (execution st)
  | _ => mret (execution st)
  end.

(** The statements of the [try] block after the loop: the iteration-limit
    test, the elapsed time, and the writes to the memory manager. *)
Definition turnFinish (W : EngineWorld) (agentConfig : AgentConfig)
    (message sessionId : string) (depth : Z) (iterations : nat) : T AgentExecution :=
  (if decide (maxIterations ≤ iterations)%nat then
     updateExecution (setFailed "Max iterations exceeded")
   else mret tt);;
  updateExecution (setExecutionTime (elapsedMs W));;
  persistTurn W agentConfig message sessionId depth.

(** The statements of the [try] block before the loop: the tools, the
    context bundle and the conversation history. The tool definitions stand
    for their [formatForBedrock] dicts, which hold the same three fields. *)
Definition turnSetup (cfg : Settings) (W : EngineWorld) (agentConfig : AgentConfig)
    (message sessionId : string) : T (list ToolDefinition * Context * list Message) :=
  tools ← callT (GetToolsForAgent (toolIds agentConfig))
                (getToolsForAgent W (toolIds agentConfig));
  context ← liftMemory (retrieveContext cfg (memoryWorld W) sessionId message
                                        (maxContextTokens cfg));
  conversationHistory ← callT (GetConversationHistory sessionId)
                              (getConversationHistory W sessionId);
  mret (tools, context, conversationHistory).

(** The body of the [try] block of [execute]. *)
Definition turnBody (cfg : Settings) (W : EngineWorld) (agentConfig : AgentConfig)
    (message sessionId : string) (depth : Z) : T AgentExecution :=
  '(tools, context, conversationHistory) ← turnSetup cfg W agentConfig message sessionId;
  let prompt := buildSystemPrompt agentConfig context in
  let userTurn := {| role := "user"; content := TextContent message |} in
  let messages := conversationHistory ++ [userTurn] in
  iterations ← toolLoop cfg W tools prompt maxIterations 0 messages 0;
  turnFinish W agentConfig message sessionId depth iterations.

(** How a call of [execute] ends: it returns the execution record, it
    raises before a record exists, or the [except] handler marks the
    record failed and raises. *)
Inductive TurnOutcome :=
  | Returned (finalExecution : AgentExecution)
  | Rejected (e : Exn)
  | Aborted (finalExecution : AgentExecution) (e : Exn).

(** The engine between calls: the collaborator calls issued so far and
    [_activeExecutions]. *)
Record EngineState := {
  issued : list Event;
  activeExecutions : gmap string AgentExecution
}.

Definition execute (cfg : Settings) (W : EngineWorld) (agentConfig : AgentConfig)
    (message sessionId : string) (parentId : option string) (depth : Z)
    (st : EngineState) : EngineState * TurnOutcome :=
  if maxRecursionDepth cfg <=? depth then
    (st, Rejected (RecursionDepthExceeded depth (maxRecursionDepth cfg)))
  else
    let created :=
      {| execId := newExecutionId W; execAgentId := agentId agentConfig;
         execSessionId := sessionId; userMessage := message;
         agentResponse := None; execStatus := RUNNING; execToolCalls := [];
         tokensUsed := 0; executionTimeMs := 0; errorMessage := None;
         parentExecutionId := parentId; depth := depth |} in
    let active := <[execId created := created]> (activeExecutions st) in
    match turnBody cfg W agentConfig message sessionId depth
            {| trace := issued st; execution := created |} with
    | (ts, Ok returned) =>
        ({| issued := trace ts;
            activeExecutions := delete (execId created) active |},
         Returned returned)
    | (ts, Raise e) =>
        ({| issued := trace ts;
            activeExecutions := delete (execId created) active |},
         Aborted (setFailed (exnStr e) (execution ts))
                 (AgentExecutionError ("Agent execution failed: " +:+ exnStr e)))
    end.

(** What the caller of [await engine.execute(...)] gets. *)
Definition outcomeRes (o : TurnOutcome) : res AgentExecution :=
  match o with
  | Returned finalExecution => Ok finalExecution
  | Rejected e => Raise e
  | Aborted _ e => Raise e
  end.

(** ** The executor: [AgentOrchestrator._executeParallelTasks] *)

Definition typeValue (t : AgentType) : string :=
  match t with
  | ORCHESTRATOR => "orchestrator" | SQL_AGENT => "sql_agent"
  | BI_AGENT => "bi_agent" | ETL_AGENT => "etl_agent"
  | ANALYTICS_AGENT => "analytics_agent" | CUSTOM => "custom"
  end.

(** The agent registry, and the engine's collaborators as each task's turn
    finds them. *)
Record OrchestratorWorld := {
  getByType : AgentType → res (option AgentConfig);
  register : AgentConfig → res unit;
  newAgentId : AgentType → string;
  engineWorld : TaskDecomposition → EngineWorld
}.

(** [_createDefaultAgent]. *)
Definition createDefaultAgent (W : OrchestratorWorld) (t : AgentType) : res AgentConfig :=
  let agent :=
    {| agentId := newAgentId W t;
       agentName := "Default " +:+ typeValue t;
       agentType := t;
       systemPrompt :=
         match t with
         | ORCHESTRATOR =>
             "You are an orchestrator agent coordinating multiple specialized agents."
         | SQL_AGENT =>
             "You are a SQL expert helping with database queries and lakehouse operations."
         | BI_AGENT =>
             "You are a BI specialist creating dashboards, datasets, and visualizations."
         | ETL_AGENT =>
             "You are an ETL expert helping with pipelines, logs, and data transformation."
         | ANALYTICS_AGENT =>
             "You are a data analyst providing insights and statistical analysis."
         | CUSTOM => "You are a helpful AI assistant."
         end;
       maxTokens := 4096;
       toolIds := [] |} in
  match register W agent with
  | Raise e => Raise e
  | Ok _ => Ok agent
  end.

Definition idleEngine : EngineState := {| issued := []; activeExecutions := ∅ |}.

(** [_executeTask]: what [await self._executeTask(task, ...)] yields. The
    turn runs at [depth=1]. *)
Definition executeTask (cfg : Settings) (W : OrchestratorWorld) (sessionId : string)
    (task : TaskDecomposition) : res ResultEntry :=
  match getByType W (assignedAgentType task) with
  | Raise e => Raise e
  | Ok found =>
      match (match found with
             | Some agent => Ok agent
             | None => createDefaultAgent W (assignedAgentType task)
             end) with
      | Raise e => Raise e
      | Ok agent =>
          match outcomeRes (execute cfg (engineWorld W task) agent (description task)
                                    sessionId None 1 idleEngine).2 with
          | Raise e => Raise e
          | Ok finalExecution =>
              Ok (TaskResult (agentResponse finalExecution)
                             (execToolCalls finalExecution)
                             (statusValue (execStatus finalExecution)))
          end
      end
  end.

(** What the executor does with the event loop, in order: [Awaited t] is
    one [await self._executeTask(t)] of the sequential loop, during which
    [t] starts and settles and nothing else of the plan runs; [Gathered ts
    limit] is the one [asyncio.gather] over [ts] under
    [Semaphore(limit)], during which all of [ts] start and settle, in no
    fixed order. *)
Inductive SchedEvent :=
  | Awaited (tid : string)
  | Gathered (tids : list string) (limit : Z).

Record ExecutorState := {
  results : gmap string ResultEntry;
  schedule : list SchedEvent;
  written : list TaskDecomposition
}.

(** How [_executeParallelTasks] ends: it returns [results], an exception
    leaves it, or (a semaphore of zero permits) its [gather] never
    completes. *)
Inductive ExecutorOutcome :=
  | Completed
  | Propagated (e : Exn)
  | NeverReturns.

Definition withOutcome (task : TaskDecomposition) (s : AgentStatus)
    (r : option ResultEntry) : TaskDecomposition :=
  {| taskId := taskId task; description := description task;
     assignedAgentType := assignedAgentType task;
     dependencies := dependencies task; priority := priority task;
     estimatedTokens := estimatedTokens task; status := s; result := r |}.

Section Executor.

(** [exec task] is what awaiting [_executeTask(task)] yields. *)
Variable exec : TaskDecomposition → res ResultEntry.
Variable maxParallel : Z.

(** [for task in executionPlan.get("sequential", []): ...]. *)
Fixpoint runSequential (tasks : list TaskDecomposition) (st : ExecutorState)
    : ExecutorState * ExecutorOutcome :=
  match tasks with
  | [] => (st, Completed)
  | task :: rest =>
      let started :=
        {| results := results st;
           schedule := schedule st ++ [Awaited (taskId task)];
           written := written st |} in
      match exec task with
      | Raise e => (started, Propagated e)
      | Ok r =>
          runSequential rest
            {| results := <[taskId task := r]> (results started);
               schedule := schedule started;
               written := written started ++ [withOutcome task COMPLETED (Some r)] |}
      end
  end.

(** The body of [for task, result in zip(parallelTasks, parallelResults)]. *)
Definition recordParallel (st : ExecutorState)
    (entry : TaskDecomposition * res ResultEntry) : ExecutorState :=
  let '(task, outcome) := entry in
  match outcome with
  | Raise e =>
      {| results := <[taskId task := ErrorResult (exnStr e)]> (results st);
         schedule := schedule st;
         written := written st ++ [withOutcome task FAILED (result task)] |}
  | Ok r =>
      {| results := <[taskId task := r]> (results st);
         schedule := schedule st;
         written := written st ++ [withOutcome task COMPLETED (Some r)] |}
  end.

(** [if parallelTasks: ...]. With [return_exceptions=True] the gather
    hands back, for each task in order, its result or the exception it
    raised. *)
Definition runParallel (parallelTasks : list TaskDecomposition) (st : ExecutorState)
    : ExecutorState * ExecutorOutcome :=
  match parallelTasks with
  | [] => (st, Completed)
  | _ =>
      let parallelLimit := Z.of_nat (length parallelTasks) `min` maxParallel in
      if parallelLimit <? 0 then
        (st, Propagated (ValueError "Semaphore initial value must be >= 0"))
      else
        let gathering :=
          {| results := results st;
             schedule := schedule st ++ [Gathered (taskId <$> parallelTasks) parallelLimit];
             written := written st |} in
        if parallelLimit =? 0 then (gathering, NeverReturns)
        else
          let parallelResults := exec <$> parallelTasks in
          (foldl recordParallel gathering (zip parallelTasks parallelResults),
           Completed)
  end.

Definition executeParallelTasksWith (plan : ExecutionPlan)
    : ExecutorState * ExecutorOutcome :=
  match runSequential (sequential plan)
          {| results := ∅; schedule := []; written := [] |} with
  | (st, Completed) => runParallel (parallel plan) st
  | stopped => stopped
  end.

End Executor.

(** [_executeParallelTasks], with [_executeTask] as the task runner. *)
Definition executeParallelTasks (cfg : Settings) (W : OrchestratorWorld)
    (sessionId : string) (plan : ExecutionPlan) : ExecutorState * ExecutorOutcome :=
  executeParallelTasksWith (executeTask cfg W sessionId) (maxParallelAgents cfg) plan.

(** The position of the statement that runs task [tid]. *)
Definition runsIn (tid : string) (ev : SchedEvent) : bool :=
  match ev with
  | Awaited t => bool_decide (t = tid)
  | Gathered ts _ => bool_decide (tid ∈ ts)
  end.

Fixpoint schedulePosition (tid : string) (evs : list SchedEvent) : option nat :=
  match evs with
  | [] => None
  | ev :: rest =>
      if runsIn tid ev then Some O else S <$> schedulePosition tid rest
  end.

(** ** Vocabulary of the properties *)

(** Every dependency of a task of wave [i] is the id of a task of an
    earlier wave. *)
Definition wavesOrdered (waves : list (list TaskDecomposition)) : Prop :=
  ∀ i wave task dep,
    waves !! i = Some wave → task ∈ wave → dep ∈ dependencies task →
    ∃ j wave' task',
      (j < i)%nat ∧ waves !! j = Some wave' ∧ task' ∈ wave' ∧ taskId task' = dep.

(** The dependency graph of [tasks] is acyclic: the dependencies name
    tasks of the list, and some rank strictly decreases along them. *)
Definition acyclicDeps (tasks : list TaskDecomposition) : Prop :=
  ∃ rank : string → nat,
    ∀ task dep, task ∈ tasks → dep ∈ dependencies task →
      dep ∈ (taskId <$> tasks) ∧ (rank dep < rank (taskId task))%nat.

(** The tasks that one pass over [ids] puts into the wave. *)
Definition readyTasks (taskMap : gmap string TaskDecomposition)
    (completed : gset string) (ids : list string) : list TaskDecomposition :=
  omap (λ tid, match taskMap !! tid with
               | Some task => if depsCompleted completed task then Some task else None
               | None => None
               end) ids.

(** The plan as the executor consumes it: the tasks of the sequential
    bucket one after the other, then the parallel bucket as one batch. *)
Definition planOrder (plan : ExecutionPlan) : list (list TaskDecomposition) :=
  ((λ task, [task]) <$> sequential plan) ++
  match parallel plan with [] => [] | batch => [batch] end.

Definition mkTask (tid : string) (deps : list string) : TaskDecomposition :=
  {| taskId := tid; description := ""; assignedAgentType := CUSTOM;
     dependencies := deps; priority := 1; estimatedTokens := 1000;
     status := IDLE; result := None |}.

Definition taskA : TaskDecomposition := mkTask "A" [].
Definition taskB : TaskDecomposition := mkTask "B" [].
Definition taskC : TaskDecomposition := mkTask "C" ["A"; "B"].

(** The three subtasks of the scenario: A and B independent, C after both. *)
Definition scenarioTasks : list TaskDecomposition := [taskA; taskB; taskC].

(** The token cost of the records of a tier. *)
Definition tierTokens (memories : list MemoryRecord) : Z :=
  foldr (λ memory acc, countTokens (memContent memory) + acc) 0 memories.

(** What the working and episodic tiers of a bundle cost together. *)
Definition consumedBeforeSemantic (context : Context) : Z :=
  countTokens (working context) + tierTokens (episodic context).

(** The float threshold [maxTokens * 0.7] separates the ints as the
    rational 70% does: checked at the largest int below and the smallest
    int not below. *)
Definition thresholdAgrees (maxTokens : Z) : bool :=
  match intMulFloat maxTokens seventyPercent with
  | Ok threshold =>
      let below := (7 * maxTokens - 1) `div` 10 in
      intLtFloat below threshold && negb (intLtFloat (below + 1) threshold)
  | Raise _ => false
  end.

Fixpoint agreesFrom (from : Z) (count : nat) : bool :=
  match count with
  | O => true
  | S count' => if thresholdAgrees from then agreesFrom (from + 1) count' else false
  end.

(** The budgets for which the agreement has been checked: every budget up
    to 20000, and the default [maxContextTokens]. *)
Definition checkedBudget (maxTokens : Z) : Prop :=
  0 ≤ maxTokens ≤ 20000 ∨ maxTokens = maxContextTokens defaultSettings.

(** A store for the examples: a working context of the given rendering, no
    episodic record, one semantic record of two tokens. *)
Definition sampleMemoryWorld (workingStr : string) : MemoryWorld :=
  {| workingGetAll := λ _, Ok workingStr;
     retrieveBySession := λ _ _, Ok [];
     semanticSearch := λ _ _, Ok [ {| memId := "m1"; memContent := "abcdefgh" |} ];
     rankMemories := λ ms _, ms;
     proceduralSearch := λ _, Ok [] |}.

(** A rendering of [4 * tokens] characters. *)
Definition rendering (tokens : nat) : string :=
  foldr (λ _ acc, "abcd" +:+ acc) "" (seq 0 tokens).

(** The token usage of one logged call: what the model reported when the
    call returned. *)
Definition usageOf (W : EngineWorld) (ev : Event) : Z :=
  match ev with
  | InvokeModel iteration messages _ _ =>
      match invokeModel W iteration messages with
      | Ok response => default 0 (usageTotalTokens response)
      | Raise _ => 0
      end
  | _ => 0
  end.

(** The cumulative usage of the calls of a trace. *)
Definition usageIssued (W : EngineWorld) (evs : list Event) : Z :=
  foldr (λ ev acc, usageOf W ev + acc) 0 evs.

(** Writes to the memory manager. *)
Definition isPersist (ev : Event) : Prop :=
  match ev with
  | AppendToConversation _ _ | StoreInteraction _ => True
  | _ => False
  end.

Definition isModelCall (ev : Event) : Prop :=
  match ev with
  | InvokeModel _ _ _ _ => True
  | _ => False
  end.

Definition isToolCall (ev : Event) : Prop :=
  match ev with
  | ToolExecute _ _ _ => True
  | _ => False
  end.

(** The calls that the tool-calling loop issues. *)
Definition isLoopCall (ev : Event) : Prop := isModelCall ev ∨ isToolCall ev.

(** The calls issued before the loop. *)
Definition isSetupCall (ev : Event) : Prop :=
  match ev with
  | GetToolsForAgent _ | MemoryCall _ | GetConversationHistory _ => True
  | _ => False
  end.

(** The calls issued by one call of [execute]. *)
Definition turnEvents (before after : EngineState) : list Event :=
  drop (length (issued before)) (issued after).

Definition sampleAgent : AgentConfig :=
  {| agentId := "agent-1"; agentName := "Test Agent"; agentType := CUSTOM;
     systemPrompt := "You are a helpful test assistant."; maxTokens := 1000;
     toolIds := [] |}.

Definition textResponse (text : string) (usage : Z) : Response :=
  {| respContent := [TextBlock text]; usageTotalTokens := Some usage |}.

Definition toolUseResponse (usage : Z) : Response :=
  {| respContent := [ToolUseBlock "tu-1" "lookup" "{}"]; usageTotalTokens := Some usage |}.

(** A world whose model follows a script, iteration by iteration; no tool
    is registered, the stores are empty and every write succeeds. *)
Definition scriptedWorld (script : nat → res Response) : EngineWorld :=
  {| newExecutionId := "exec-1";
     getToolsForAgent := λ _, Ok [];
     memoryWorld := sampleMemoryWorld "";
     getConversationHistory := λ _, Ok [];
     invokeModel := λ iteration _, script iteration;
     toolExecute := λ _ _ _, Raise (CollaboratorError "unreachable");
     appendToConversation := λ _ _, Ok tt;
     storeInteraction := λ _, Ok tt;
     elapsedMs := 12 |}.

(** Tool requests for nine iterations, the final answer on the tenth. *)
Definition answerOnLastIteration (iteration : nat) : res Response :=
  if decide (iteration < maxIterations)%nat then Ok (toolUseResponse 100)
  else Ok (textResponse "final answer" 100).

(** Tool requests on every iteration. *)
Definition neverAnswers (iteration : nat) : res Response := Ok (toolUseResponse 100).

(** Cumulative usage passes the default ceiling of 100000 in iteration 2. *)
Definition overCeilingInSecond (iteration : nat) : res Response :=
  match iteration with
  | 1%nat => Ok (toolUseResponse 60000)
  | _ => Ok (textResponse "too late" 60000)
  end.

Definition answersAtOnce (iteration : nat) : res Response :=
  Ok (textResponse "hello" 100).

(** The turn state after one more call has been logged. *)
Definition logged (ts : TurnState) (ev : Event) : TurnState :=
  {| trace := trace ts ++ [ev]; execution := execution ts |}.

(** The write of the derived episodic record. *)
Definition isEpisodicWrite (ev : Event) : Prop :=
  match ev with
  | StoreInteraction _ => True
  | _ => False
  end.

#[global] Instance isPersist_dec (ev : Event) : Decision (isPersist ev).
Proof. destruct ev; simpl; apply _. Defined.

#[global] Instance isEpisodicWrite_dec (ev : Event) : Decision (isEpisodicWrite ev).
Proof. destruct ev; simpl; apply _. Defined.

(** What the results mapping holds for a task of a gathered batch: its
    result, or the error entry made from the exception it raised. *)
Definition gatheredEntry (exec : TaskDecomposition → res ResultEntry)
    (task : TaskDecomposition) : ResultEntry :=
  match exec task with
  | Ok r => r
  | Raise e => ErrorResult (exnStr e)
  end.

(** A registry without agents, so that every task runs on a default agent,
    and a model that follows the script chosen by the task's id. *)
Definition sampleOrchestratorWorld (scripts : string → nat → res Response)
    : OrchestratorWorld :=
  {| getByType := λ _, Ok None;
     register := λ _, Ok tt;
     newAgentId := λ t, "agent-" +:+ typeValue t;
     engineWorld := λ task, scriptedWorld (scripts (taskId task)) |}.

(** The turn of task T1 passes the token ceiling in its first model call;
    every other task's turn answers at once. *)
Definition firstTaskOverCeiling (tid : string) (iteration : nat) : res Response :=
  if decide (tid = "T1") then Ok (textResponse "too much" 100001)
  else Ok (textResponse "done" 100).

Definition twoSequentialTasks : ExecutionPlan :=
  {| sequential := [mkTask "T1" []; mkTask "T2" []]; parallel := [] |}.

Definition twoParallelTasks : ExecutionPlan :=
  {| sequential := []; parallel := [mkTask "T1" []; mkTask "T2" []] |}.

(** Five subtasks in three waves: A and B, then C after both, then D and
    E after C. *)
Definition threeWaveTasks : list TaskDecomposition :=
  [taskA; taskB; taskC; mkTask "D" ["C"]; mkTask "E" ["C"]].

(** What the [while] loop keeps true of its variables. *)
Record LoopInv (taskMap : gmap string TaskDecomposition)
    (completed remaining : gset string) (waves : list (list TaskDecomposition)) : Prop := {
  inv_completed : completed = list_to_set (taskId <$> mjoin waves);
  inv_disjoint : remaining ## completed;
  inv_cover : remaining ∪ completed = dom taskMap;
  inv_ordered : wavesOrdered waves;
  inv_keyed : ∀ t, t ∈ mjoin waves → taskMap !! taskId t = Some t;
  inv_nodup : NoDup (taskId <$> mjoin waves);
  inv_nonempty : ∀ wave, wave ∈ waves → wave ≠ []
}.

(** ** Vocabulary of the further properties *)

(** The tasks of a plan, both buckets. *)
Definition planTasks (plan : ExecutionPlan) : list TaskDecomposition :=
  sequential plan ++ parallel plan.

(** The task that [taskMap] holds for the id of [task] is [task] itself:
    no later task of the list carries the same id. *)
Definition lastOfItsId (tasks : list TaskDecomposition) (task : TaskDecomposition) : Prop :=
  last (filter (λ t, taskId t = taskId task) tasks) = Some task.

(** The plan made of one wave. *)
Definition planOfWave (wave : list TaskDecomposition) : ExecutionPlan :=
  if decide (1 < length wave)%nat
  then {| sequential := []; parallel := wave |}
  else {| sequential := wave; parallel := [] |}.

(** What the executor leaves on the task object of a task it has run: the
    result and COMPLETED, or, for a task of the gathered batch that raised,
    FAILED with the result field as it was. *)
Definition settled (exec : TaskDecomposition → res ResultEntry)
    (task : TaskDecomposition) : TaskDecomposition :=
  match exec task with
  | Ok r => withOutcome task COMPLETED (Some r)
  | Raise _ => withOutcome task FAILED (result task)
  end.

(** [results[task.taskId] = ...] for the tasks of a list, in order. *)
Definition recordAll (exec : TaskDecomposition → res ResultEntry)
    (results : gmap string ResultEntry) (tasks : list TaskDecomposition)
    : gmap string ResultEntry :=
  foldl (λ m task, <[taskId task := gatheredEntry exec task]> m) results tasks.

(** What one tool request of iteration [iteration] is answered with: the
    error dict for a tool that is not loaded, the tool's payload, or the
    error dict made from the exception the tool raised. *)
Definition toolOutcome (W : EngineWorld) (tools : list ToolDefinition)
    (iteration : nat) (toolCall : ToolCall) : ToolResult :=
  match find (λ t, bool_decide (toolName t = callName toolCall)) tools with
  | None => ToolErrorDict ("Tool " +:+ callName toolCall +:+ " not found")
  | Some tool =>
      match toolExecute W iteration tool (callInput toolCall) with
      | Ok payload => ToolPayload payload
      | Raise e => ToolErrorDict (exnStr e)
      end
  end.

(** The entry appended to [execution.toolCalls] for a request. *)
Definition toolRecord (W : EngineWorld) (tools : list ToolDefinition)
    (iteration : nat) (toolCall : ToolCall) : ToolCallRecord :=
  {| tcId := callId toolCall; tcName := callName toolCall;
     tcInput := callInput toolCall;
     tcResult := toolOutcome W tools iteration toolCall |}.

(** The tool-result message appended to [messages] for a request. *)
Definition toolMessage (W : EngineWorld) (tools : list ToolDefinition)
    (iteration : nat) (toolCall : ToolCall) : Message :=
  formatToolResult (callId toolCall) (toolOutcome W tools iteration toolCall).

(** The executions that the requests of an iteration cause: one for each
    request whose tool is loaded. *)
Definition toolEvents (tools : list ToolDefinition) (iteration : nat)
    (toolCalls : list ToolCall) : list Event :=
  omap (λ toolCall,
          match find (λ t, bool_decide (toolName t = callName toolCall)) tools with
          | None => None
          | Some tool => Some (ToolExecute iteration tool (callInput toolCall))
          end) toolCalls.

(** The record after the entries [records] have been appended. *)
Definition withToolCalls (records : list ToolCallRecord) (e : AgentExecution)
    : AgentExecution :=
  foldl (λ e record, appendToolCall record e) e records.

(** [messages] at the next model call, after the model answered [response]
    with tool requests in iteration [iteration]: the assistant turn with
    the model's blocks, then one tool-result message per request. *)
Definition nextMessages (W : EngineWorld) (tools : list ToolDefinition)
    (iteration : nat) (messages : list Message) (response : Response) : list Message :=
  messages
  ++ [{| role := "assistant"; content := BlocksContent (respContent response) |}]
  ++ (toolMessage W tools iteration <$> extractToolCalls response).

(** The model calls of a trace: iteration and [messages] of each. *)
Definition modelCallOf (ev : Event) : option (nat * list Message) :=
  match ev with
  | InvokeModel iteration messages _ _ => Some (iteration, messages)
  | _ => None
  end.

Definition modelCalls (evs : list Event) : list (nat * list Message) :=
  omap modelCallOf evs.

(** The record that [execute] creates and registers before its [try]. *)
Definition createdExecution (W : EngineWorld) (agentConfig : AgentConfig)
    (message sessionId : string) (parentId : option string) (depth : Z)
    : AgentExecution :=
  {| execId := newExecutionId W; execAgentId := agentId agentConfig;
     execSessionId := sessionId; userMessage := message;
     agentResponse := None; execStatus := RUNNING; execToolCalls := [];
     tokensUsed := 0; executionTimeMs := 0; errorMessage := None;
     parentExecutionId := parentId; depth := depth |}.

(** The engine when a turn is over: the calls issued, and
    [_activeExecutions] without the turn's record. *)
Definition turnOver (W : EngineWorld) (st : EngineState) (ts : TurnState)
    : EngineState :=
  {| issued := trace ts;
     activeExecutions := delete (newExecutionId W) (activeExecutions st) |}.

(** The outcome made by the [except] handler from the exception [e]. *)
Definition abortedBy (ts : TurnState) (e : Exn) : TurnOutcome :=
  Aborted (setFailed (exnStr e) (execution ts))
          (AgentExecutionError ("Agent execution failed: " +:+ exnStr e)).

(** The episodic record derived from a turn whose record [e] carries the
    answer [response]. *)
Definition interactionOf (agentConfig : AgentConfig) (message sessionId : string)
    (depth : Z) (e : AgentExecution) (response : string) : Interaction :=
  {| intSessionId := sessionId; intAgentId := agentId agentConfig;
     intUserMessage := message; intAgentResponse := response;
     intToolsUsed := tcName <$> execToolCalls e;
     intOutcome := match execStatus e with
                   | COMPLETED => "success"
                   | _ => "failed"
                   end;
     intTopLevel := bool_decide (depth = 0) |}.

(** The writes to the memory manager of a turn that returns the record
    [e], in order. *)
Definition writesOf (agentConfig : AgentConfig) (message sessionId : string)
    (depth : Z) (e : AgentExecution) : list Event :=
  AppendToConversation sessionId {| role := "user"; content := TextContent message |}
  :: match agentResponse e with
     | Some (String c text) =>
         [AppendToConversation sessionId
            {| role := "assistant"; content := TextContent (String c text) |};
          StoreInteraction (interactionOf agentConfig message sessionId depth e
                                          (String c text))]
     | _ => []
     end.

(** A tool for the examples, and a world in which it is loaded: it raises
    on the input ["boom"] and answers ["42"] otherwise. The model asks for
    it and for a tool that is not loaded, then answers. *)
Definition lookupTool : ToolDefinition :=
  {| toolName := "lookup"; toolDescription := "Looks a value up"; inputSchema := "{}" |}.

Definition twoRequests : Response :=
  {| respContent := [ToolUseBlock "tu-1" "lookup" "boom";
                     ToolUseBlock "tu-2" "search" "{}";
                     ToolUseBlock "tu-3" "lookup" "{}"];
     usageTotalTokens := Some 100 |}.

Definition toolWorld : EngineWorld :=
  {| newExecutionId := "exec-1";
     getToolsForAgent := λ _, Ok [lookupTool];
     memoryWorld := sampleMemoryWorld "";
     getConversationHistory := λ _, Ok [];
     invokeModel := λ iteration _,
       match iteration with
       | 1%nat => Ok twoRequests
       | _ => Ok (textResponse "done" 50)
       end;
     toolExecute := λ _ _ input,
       if decide (input = "boom") then Raise (CollaboratorError "tool failed")
       else Ok "42";
     appendToConversation := λ _ _, Ok tt;
     storeInteraction := λ _, Ok tt;
     elapsedMs := 12 |}.

(** A store for the examples: an empty working context; three episodic
    records of 2, 10 and 1 tokens; no semantic record; four procedural
    patterns. *)
Definition crowdedMemoryWorld : MemoryWorld :=
  {| workingGetAll := λ _, Ok "";
     retrieveBySession := λ _ _,
       Ok [ {| memId := "e1"; memContent := "abcdefgh" |};
            {| memId := "e2"; memContent := rendering 10 |};
            {| memId := "e3"; memContent := "abcd" |} ];
     semanticSearch := λ _ _, Ok [];
     rankMemories := λ ms _, ms;
     proceduralSearch := λ _,
       Ok [ {| procName := "p1" |}; {| procName := "p2" |};
            {| procName := "p3" |}; {| procName := "p4" |} ] |}.

(** ** Decomposition and synthesis: [AgentOrchestrator.orchestrate]

    The rest of [agents/orchestrator/agentOrchestrator.py]: the model is
    asked for a decomposition, its JSON answer is turned into tasks, the
    tasks are planned and run, and a last turn synthesises the results. *)

(** A value as [json.loads] returns it. An object is the list of its
    items, each key once. *)
#[local] Set Warnings "-register-all".

Inductive Json :=
  | JNull
  | JBool (b : bool)
  | JInt (n : Z)
  | JFloat (f : spec_float)
  | JString (s : string)
  | JArray (items : list Json)
  | JObject (fields : list (string * Json)).

(** [bool(v)]. *)
Definition truthy (v : Json) : bool :=
  match v with
  | JNull => false
  | JBool b => b
  | JInt n => negb (n =? 0)
  | JFloat (S754_zero _) => false
  | JFloat _ => true
  | JString "" => false
  | JString _ => true
  | JArray [] => false
  | JArray _ => true
  | JObject [] => false
  | JObject _ => true
  end.

(** [fields.get(key)] on the items of a dict. *)
Fixpoint assocGet (key : string) (fields : list (string * Json)) : option Json :=
  match fields with
  | [] => None
  | (k, v) :: rest => if decide (k = key) then Some v else assocGet key rest
  end.

(** What leaves the orchestrator: an exception of the engine's layer, or
    one of the two built-in exceptions that the value shapes can cause. *)
Inductive PyExn :=
  | EngineRaised (e : Exn)
  | TypeError
  | AttributeError.

Inductive pyres (A : Type) :=
  | Done (a : A)
  | Thrown (e : PyExn).
Arguments Done {A} a.
Arguments Thrown {A} e.

(** [v[key]] for a string key. *)
Definition subscript (v : Json) (key : string) : pyres Json :=
  match v with
  | JObject fields =>
      match assocGet key fields with
      | Some x => Done x
      | None => Thrown (EngineRaised (KeyError key))
      end
  | _ => Thrown TypeError
  end.

(** [v.get(key, default)] for a dict [v]. *)
Definition getDefault (v : Json) (key : string) (default : Json) : Json :=
  match v with
  | JObject fields =>
      match assocGet key fields with
      | Some x => x
      | None => default
      end
  | _ => default
  end.

(** The values that [for taskData in v] goes through: the items of a
    list, the keys of a dict, the characters of a string; [None] when [v]
    is not iterable. *)
Definition iterate (v : Json) : option (list Json) :=
  match v with
  | JArray items => Some items
  | JObject fields => Some ((λ item, JString item.1) <$> fields)
  | JString s => Some ((λ c, JString (String c EmptyString)) <$> String.list_ascii_of_string s)
  | _ => None
  end.

(** [AgentType(v)]: the member whose value is [v]. *)
Definition agentTypeOfValue (v : Json) : option AgentType :=
  match v with
  | JString s =>
      find (λ t, bool_decide (typeValue t = s))
           [ORCHESTRATOR; SQL_AGENT; BI_AGENT; ETL_AGENT; ANALYTICS_AGENT; CUSTOM]
  | _ => None
  end.

(** The collaborators of [orchestrate]. [decompositionModel] is the
    model's answer to the decomposition prompt made from the request;
    [jsonLoads] is [json.loads], raising [ValueError] (of which
    [JSONDecodeError] is a subclass) on text that is not JSON;
    [validateTask] is the validation by the [TaskDecomposition] schema of
    the four fields taken from the model's JSON; [newTaskId] gives the
    [uuid4] drawn for each entry; [dumpResults] is
    [json.dumps(results, indent=2)], [None] when it raises [TypeError];
    [directWorld] and [synthesisWorld] are the engine's collaborators as
    the orchestrator's own two turns find them. *)
Record OrchestrationWorld := {
  registryWorld : OrchestratorWorld;
  decompositionModel : string → res Response;
  jsonLoads : string → res Json;
  validateTask : Json → Json → Json → Json → option (string * list string * Z * Z);
  newTaskId : nat → string;
  dumpResults : gmap string ResultEntry → option string;
  directWorld : EngineWorld;
  synthesisWorld : EngineWorld
}.

(** [_getOrCreateOrchestrator]. *)
Definition getOrCreateOrchestrator (W : OrchestratorWorld) : res AgentConfig :=
  match getByType W ORCHESTRATOR with
  | Raise e => Raise e
  | Ok (Some agent) => Ok agent
  | Ok None => createDefaultAgent W ORCHESTRATOR
  end.

(** The [TaskDecomposition(...)] call for one entry of the list; the
    arguments are evaluated from left to right. *)
Definition buildTask (W : OrchestrationWorld) (index : nat) (taskData : Json)
    : pyres TaskDecomposition :=
  let tid := newTaskId W index in
  match subscript taskData "description" with
  | Thrown e => Thrown e
  | Done describedAs =>
      match subscript taskData "agentType" with
      | Thrown e => Thrown e
      | Done typeName =>
          match agentTypeOfValue typeName with
          | None => Thrown (EngineRaised (ValueError "not a valid AgentType"))
          | Some assigned =>
              match validateTask W describedAs
                      (getDefault taskData "dependencies" (JArray []))
                      (getDefault taskData "priority" (JInt 1))
                      (getDefault taskData "estimatedTokens" (JInt 1000)) with
              | None => Thrown (EngineRaised (ValueError "validation error"))
              | Some (text, deps, prio, tokens) =>
                  Done {| taskId := tid; description := text;
                          assignedAgentType := assigned; dependencies := deps;
                          priority := prio; estimatedTokens := tokens;
                          status := IDLE; result := None |}
              end
          end
      end
  end.

(** [for taskData in tasksList: ... tasks.append(task)]. *)
Fixpoint buildTasks (W : OrchestrationWorld) (index : nat) (entries : list Json)
    (tasks : list TaskDecomposition) : pyres (list TaskDecomposition) :=
  match entries with
  | [] => Done tasks
  | taskData :: rest =>
      match buildTask W index taskData with
      | Thrown e => Thrown e
      | Done task => buildTasks W (S index) rest (tasks ++ [task])
      end
  end.

(** [except (json.JSONDecodeError, ValueError, KeyError): return []]. *)
Definition exceptDecodeErrors (r : pyres (list TaskDecomposition))
    : pyres (list TaskDecomposition) :=
  match r with
  | Thrown (EngineRaised (ValueError _)) => Done []
  | Thrown (EngineRaised (KeyError _)) => Done []
  | _ => r
  end.

(** The body of the [try] block of [_decomposeTask]. *)
Definition parseDecomposition (W : OrchestrationWorld) (responseText : string)
    : pyres (list TaskDecomposition) :=
  match jsonLoads W responseText with
  | Raise e => Thrown (EngineRaised e)
  | Ok (JObject fields) =>
      let tasksList := default (JArray []) (assocGet "tasks" fields) in
      if truthy tasksList then
        match iterate tasksList with
        | None => Thrown TypeError
        | Some entries => buildTasks W 0 entries []
        end
      else Done []
  | Ok _ => Thrown AttributeError
  end.

(** [_decomposeTask]. *)
Definition decomposeTask (W : OrchestrationWorld) (userRequest : string)
    : pyres (list TaskDecomposition) :=
  match decompositionModel W userRequest with
  | Raise e => Thrown (EngineRaised e)
  | Ok response =>
      exceptDecodeErrors (parseDecomposition W (extractTextResponse response))
  end.

(** How a call of [orchestrate] ends: with the dict it returns, with an
    exception, or never (a gather under a semaphore without permits).
    [taskWrites] are the status and result that the executor has set on
    the task objects of [tasks]; [executionPlan] is [None] for the empty
    dict of the single-agent path. *)
Inductive OrchestrateOutcome :=
  | Answered (response : option string) (tasks taskWrites : list TaskDecomposition)
             (results : gmap string ResultEntry) (executionPlan : option ExecutionPlan)
  | Failed (e : PyExn)
  | Hangs.

(** [_executeSingleAgent]: one turn of the given agent at depth 0. *)
Definition executeSingleAgent (cfg : Settings) (W : OrchestrationWorld)
    (agent : AgentConfig) (userRequest sessionId : string) : OrchestrateOutcome :=
  match outcomeRes (execute cfg (directWorld W) agent userRequest sessionId None 0
                            idleEngine).2 with
  | Raise e => Failed (EngineRaised e)
  | Ok finalExecution => Answered (agentResponse finalExecution) [] [] ∅ None
  end.

(** The prompt of the synthesis turn. *)
Definition synthesisPrompt (originalRequest dumped : string) : string :=
  newline +:+ "Original user request: " +:+ originalRequest +:+ newline +:+ newline
  +:+ "Results from specialized agents:" +:+ newline +:+ dumped +:+ newline +:+ newline
  +:+ "Synthesize these results into a cohesive response for the user." +:+ newline.

(** [_synthesizeResults]: one turn of the orchestrator agent at depth 1;
    [execution.agentResponse or "Unable to synthesize results"]. *)
Definition synthesizeResults (cfg : Settings) (W : OrchestrationWorld)
    (orchestratorAgent : AgentConfig) (originalRequest : string)
    (results : gmap string ResultEntry) (sessionId : string) : pyres string :=
  match dumpResults W results with
  | None => Thrown TypeError
  | Some dumped =>
      match outcomeRes (execute cfg (synthesisWorld W) orchestratorAgent
                                (synthesisPrompt originalRequest dumped) sessionId
                                None 1 idleEngine).2 with
      | Raise e => Thrown (EngineRaised e)
      | Ok finalExecution =>
          match agentResponse finalExecution with
          | Some (String c text) => Done (String c text)
          | _ => Done "Unable to synthesize results"
          end
      end
  end.

(** [orchestrate]. [order] is the iteration order of sets that the
    planner meets; [None] means the planner ran out of fuel. *)
Definition orchestrate (cfg : Settings) (order : gset string → list string)
    (W : OrchestrationWorld) (userRequest sessionId : string)
    : option OrchestrateOutcome :=
  match getOrCreateOrchestrator (registryWorld W) with
  | Raise e => Some (Failed (EngineRaised e))
  | Ok orchestratorAgent =>
      match decomposeTask W userRequest with
      | Thrown e => Some (Failed e)
      | Done [] =>
          Some (executeSingleAgent cfg W orchestratorAgent userRequest sessionId)
      | Done tasks =>
          match buildExecutionPlan order tasks with
          | None => None
          | Some (Raise e) => Some (Failed (EngineRaised e))
          | Some (Ok executionPlan) =>
              match executeParallelTasks cfg (registryWorld W) sessionId executionPlan with
              | (_, Propagated e) => Some (Failed (EngineRaised e))
              | (_, NeverReturns) => Some Hangs
              | (st, Completed) =>
                  match synthesizeResults cfg W orchestratorAgent userRequest
                          (results st) sessionId with
                  | Thrown e => Some (Failed e)
                  | Done finalResponse =>
                      Some (Answered (Some finalResponse) tasks (written st)
                                     (results st) (Some executionPlan))
                  end
              end
          end
      end
  end.

(** A validation for the examples: the description must be a string, the
    dependencies a list of strings. *)
Definition stringOf (v : Json) : option string :=
  match v with
  | JString s => Some s
  | _ => None
  end.

Definition sampleValidate (describedAs deps prio tokens : Json)
    : option (string * list string * Z * Z) :=
  match describedAs, deps with
  | JString text, JArray items =>
      match mapM stringOf items with
      | Some names => Some (text, names, 1, 1000)
      | None => None
      end
  | _, _ => None
  end.

(** A world for the examples: the model's decomposition answer parses to
    [decomposition]; every turn answers at once. *)
Definition sampleOrchestrationWorld (decomposition : res Json) : OrchestrationWorld :=
  {| registryWorld := sampleOrchestratorWorld (λ _, answersAtOnce);
     decompositionModel := λ _, Ok (textResponse "{}" 10);
     jsonLoads := λ _, decomposition;
     validateTask := sampleValidate;
     newTaskId := λ i, "task-" +:+ intStr (Z.of_nat i);
     dumpResults := λ _, Some "{}";
     directWorld := scriptedWorld answersAtOnce;
     synthesisWorld := scriptedWorld answersAtOnce |}.

Definition entryOf (describedAs typeName : string) (deps : list string) : Json :=
  JObject [("description", JString describedAs); ("agentType", JString typeName);
           ("dependencies", JArray (JString <$> deps))].

(** Two subtasks, the second of which names the first as the prompt's
    example does. *)
Definition twoEntries : Json :=
  JObject [("tasks", JArray [entryOf "query the sales" "sql_agent" [];
                             entryOf "chart them" "bi_agent" ["taskId1"]])].

(** The same, with the second agent type spelt as the prompt lists it. *)
Definition upperCaseEntry : Json :=
  JObject [("tasks", JArray [entryOf "query the sales" "sql_agent" [];
                             entryOf "chart them" "BI_AGENT" []])].

(** ** Loading an agent's tools: [ToolRegistry.getToolsForAgent]

    ([tools/registry/toolRegistry.py]) *)

(** [s.split(sep)] for a separator of one character. *)
Fixpoint splitOn (sep : Ascii.ascii) (s : string) : list string :=
  match s with
  | EmptyString => [EmptyString]
  | String c rest =>
      if decide (c = sep) then EmptyString :: splitOn sep rest
      else
        match splitOn sep rest with
        | [] => [String c EmptyString]
        | part :: parts => String c part :: parts
        end
  end.

Definition colon : Ascii.ascii := Ascii.ascii_of_nat 58.

(** How a lookup in the registry ends: with the tool, with [ToolNotFound],
    or with another exception. *)
Inductive Lookup :=
  | Found (tool : ToolDefinition)
  | NotFound
  | LookupRaises (e : Exn).

(** What the registry reads. [latestVersion] is
    [toolVersioning.getLatestVersion(toolName, tenantId, includePublic=True)];
    [fetch] is the lookup of one version in the cache, the tenant's items
    and the public items, in which every exception of the query is turned
    into [ToolNotFound]. *)
Record RegistryWorld := {
  latestVersion : string → res (option string);
  fetch : string → string → Lookup
}.

(** [ToolRegistry.get]. *)
Definition get (W : RegistryWorld) (toolName version : string) : Lookup :=
  if decide (version = "latest") then
    match latestVersion W toolName with
    | Raise e => LookupRaises e
    | Ok (Some (String c v)) => fetch W toolName (String c v)
    | Ok _ => NotFound
    end
  else fetch W toolName version.

(** The name and the version that a tool id stands for. *)
Definition toolIdName (toolId : string) : string :=
  match splitOn colon toolId with
  | toolName :: _ => toolName
  | [] => ""
  end.

Definition toolIdVersion (toolId : string) : string :=
  match splitOn colon toolId with
  | _ :: version :: _ => version
  | _ => "1.0.0"
  end.

(** The version that is looked up for a tool id: ["latest"] is replaced
    by the latest version when there is one. *)
Definition resolveVersion (W : RegistryWorld) (toolId : string) : res string :=
  let version := toolIdVersion toolId in
  if decide (version = "latest") then
    match latestVersion W (toolIdName toolId) with
    | Raise e => Raise e
    | Ok (Some (String c v)) => Ok (String c v)
    | Ok _ => Ok version
    end
  else Ok version.

(** [ToolRegistry.getToolsForAgent]: the loop over [toolIds], with the
    list [tools] it appends to. *)
Fixpoint loadTools (W : RegistryWorld) (toolIds : list string)
    (tools : list ToolDefinition) : res (list ToolDefinition) :=
  match toolIds with
  | [] => Ok tools
  | toolId :: rest =>
      match resolveVersion W toolId with
      | Raise e => Raise e
      | Ok version =>
          match get W (toolIdName toolId) version with
          | Found tool => loadTools W rest (tools ++ [tool])
          | NotFound => loadTools W rest tools
          | LookupRaises e => Raise e
          end
      end
  end.

Definition registryGetToolsForAgent (W : RegistryWorld) (toolIds : list string)
    : res (list ToolDefinition) :=
  loadTools W toolIds [].

(** What the lookup of one tool id contributes. *)
Definition loaded (W : RegistryWorld) (toolId : string) : option ToolDefinition :=
  match resolveVersion W toolId with
  | Ok version =>
      match get W (toolIdName toolId) version with
      | Found tool => Some tool
      | _ => None
      end
  | Raise _ => None
  end.

(** The lookup of a tool id raises something else than [ToolNotFound]. *)
Definition lookupFails (W : RegistryWorld) (toolId : string) (e : Exn) : Prop :=
  resolveVersion W toolId = Raise e ∨
  ∃ version, resolveVersion W toolId = Ok version ∧
             get W (toolIdName toolId) version = LookupRaises e.

(** A registry for the examples: it holds the tool ["lookup"] in version
    1.0.0 and 2.1.0, the latter being the latest. *)
Definition sampleRegistry : RegistryWorld :=
  {| latestVersion := λ toolName,
       if decide (toolName = "lookup") then Ok (Some "2.1.0") else Ok None;
     fetch := λ toolName version,
       if decide (toolName = "lookup" ∧ (version = "1.0.0" ∨ version = "2.1.0"))
       then Found {| toolName := "lookup"; toolDescription := version;
                     inputSchema := "{}" |}
       else NotFound |}.

(** ** Tool versions: [tools/versioning/toolVersioning.py]

    Strings are taken to hold characters below code 256, where the
    pattern's [\d] is one of the ten ASCII digits. Conversions between
    ints and strings are those of CPython 3.11 with its default limit of
    4300 digits. *)

Definition isDigit (c : Ascii.ascii) : bool :=
  (48 <=? Ascii.nat_of_ascii c)%nat && (Ascii.nat_of_ascii c <=? 57)%nat.

(** The longest run of digits at the front of a string, and what follows
    it. *)
Fixpoint spanDigits (s : string) : string * string :=
  match s with
  | EmptyString => (EmptyString, EmptyString)
  | String c rest =>
      if isDigit c then (String c (spanDigits rest).1, (spanDigits rest).2)
      else (EmptyString, s)
  end.

Definition dot : Ascii.ascii := Ascii.ascii_of_nat 46.

(** A match of the pattern [^\d+\.\d+\.\d+$] at the start of [version]:
    the three runs of digits. [$] matches at the end of the string and
    also just before a newline that ends it. *)
Definition matchVersion (version : string) : option (string * string * string) :=
  match spanDigits version with
  | (String c1 major, String sep1 rest1) =>
      if decide (sep1 = dot) then
        match spanDigits rest1 with
        | (String c2 minor, String sep2 rest2) =>
            if decide (sep2 = dot) then
              match spanDigits rest2 with
              | (String c3 patch, tail) =>
                  if decide (tail = "" ∨ tail = newline)
                  then Some (String c1 major, String c2 minor, String c3 patch)
                  else None
              | _ => None
              end
            else None
        | _ => None
        end
      else None
  | _ => None
  end.

(** [ToolVersioning.validateVersion]. *)
Definition validateVersion (version : string) : bool :=
  match matchVersion version with
  | Some _ => true
  | None => false
  end.

(** Exceptions of the tool layer: [InvalidToolDefinition], or one that
    Python or a collaborator raises. *)
Inductive ToolExn :=
  | InvalidToolDefinition (message : string) (toolName : option string)
  | ToolRaised (e : PyExn).

Inductive tres (A : Type) :=
  | Fine (a : A)
  | Refused (e : ToolExn).
Arguments Fine {A} a.
Arguments Refused {A} e.

(** [ToolVersioning.ensureValidVersion]. *)
Definition ensureValidVersion (version : string) : tres unit :=
  if validateVersion version then Fine tt
  else Refused (InvalidToolDefinition
                  ("Invalid tool version '" +:+ version
                   +:+ "'. Expected semantic versioning (major.minor.patch).")
                  None).

(** [s] without the newline that ends it, if one does. *)
Fixpoint stripNewline (s : string) : string :=
  match s with
  | EmptyString => EmptyString
  | String c rest =>
      if decide (String c rest = newline) then EmptyString
      else String c (stripNewline rest)
  end.

Definition maxStrDigits : nat := 4300.

(** [int(s)] for a run of digits, possibly followed by a newline, which
    is what the pattern lets through. *)
Definition intOfDigits (s : string) : res Z :=
  let digits := stripNewline s in
  if decide (maxStrDigits < String.length digits)%nat then
    Raise (ValueError
             ("Exceeds the limit (4300 digits) for integer string conversion: value has "
              +:+ intStr (Z.of_nat (String.length digits))
              +:+ " digits; use sys.set_int_max_str_digits() to increase the limit"))
  else
    match NilZero.uint_of_string digits with
    | Some d => Ok (Z.of_uint d)
    | None => Raise (ValueError ("invalid literal for int() with base 10: '" +:+ s +:+ "'"))
    end.

(** [str(n)] for an int that is not negative, with the same limit. *)
Definition strOfInt (n : Z) : res string :=
  if decide (maxStrDigits < String.length (intStr n))%nat then
    Raise (ValueError
             "Exceeds the limit (4300 digits) for integer string conversion; use sys.set_int_max_str_digits() to increase the limit")
  else Ok (intStr n).

(** [ToolVersioning._parseVersionTuple]. *)
Definition parseVersionTuple (version : string) : res (Z * Z * Z) :=
  if validateVersion version then
    match splitOn dot version with
    | [major; minor; patch] =>
        match intOfDigits major with
        | Raise e => Raise e
        | Ok a =>
            match intOfDigits minor with
            | Raise e => Raise e
            | Ok b =>
                match intOfDigits patch with
                | Raise e => Raise e
                | Ok c => Ok (a, b, c)
                end
            end
        end
    | _ => Raise (ValueError "not enough values to unpack")
    end
  else Ok (0, 0, 0).

Inductive ToolReleaseType := MAJOR | MINOR | PATCH.

(** The numbers of the next release. *)
Definition bump (releaseType : ToolReleaseType) (current : Z * Z * Z) : Z * Z * Z :=
  let '(major, minor, patch) := current in
  match releaseType with
  | MAJOR => (major + 1, 0, 0)
  | MINOR => (major, minor + 1, 0)
  | PATCH => (major, minor, patch + 1)
  end.

(** [f"{major}.{minor}.{patch}"]. *)
Definition formatVersion (numbers : Z * Z * Z) : res string :=
  let '(major, minor, patch) := numbers in
  match strOfInt major with
  | Raise e => Raise e
  | Ok a =>
      match strOfInt minor with
      | Raise e => Raise e
      | Ok b =>
          match strOfInt patch with
          | Raise e => Raise e
          | Ok c => Ok (a +:+ "." +:+ b +:+ "." +:+ c)
          end
      end
  end.

(** [ToolVersioning.calculateNextVersion]. *)
Definition calculateNextVersion (currentVersion : string)
    (releaseType : ToolReleaseType) : tres string :=
  match ensureValidVersion currentVersion with
  | Refused e => Refused e
  | Fine _ =>
      match parseVersionTuple currentVersion with
      | Raise e => Refused (ToolRaised (EngineRaised e))
      | Ok current =>
          match formatVersion (bump releaseType current) with
          | Raise e => Refused (ToolRaised (EngineRaised e))
          | Ok next => Fine next
          end
      end
  end.

(** The order of the sort keys: tuples of ints, compared from the left. *)
Definition keyLt (a b : Z * Z * Z) : bool :=
  let '(a1, a2, a3) := a in
  let '(b1, b2, b3) := b in
  (a1 <? b1) || ((a1 =? b1) && ((a2 <? b2) || ((a2 =? b2) && (a3 <? b3)))).

(** The number of digits of [str(n)]. *)
Definition digitCount (n : Z) : nat := String.length (intStr n).

(** Every character of [s] is a digit. *)
Definition allDigits (s : string) : Prop :=
  Forall (λ c, isDigit c = true) (String.list_ascii_of_string s).

(** The numbers of a version can be written out: none is negative and
    none has more digits than the conversion limit. *)
Definition printable (numbers : Z * Z * Z) : Prop :=
  let '(major, minor, patch) := numbers in
  (0 ≤ major ∧ 0 ≤ minor ∧ 0 ≤ patch) ∧
  (digitCount major ≤ maxStrDigits ∧ digitCount minor ≤ maxStrDigits
   ∧ digitCount patch ≤ maxStrDigits)%nat.

(** ** The version history of a tool

    An item of the registry table, with the attributes the version code
    reads. They are held as [ToolRegistry.register] writes them, strings
    and a bool; [None] is an attribute that the item lacks. *)
Record VersionItem := {
  itemVersion : option string;
  itemIsActive : option bool;
  itemPermission : option string;
  itemTenantId : option string;
  itemCreatedAt : option string;
  itemUpdatedAt : option string
}.

(** The dict that [_toVersionRecord] builds. *)
Record VersionRecord := {
  recordVersion : option string;
  recordIsActive : bool;
  recordPermission : option string;
  recordTenantId : option string;
  recordCreatedAt : option string;
  recordUpdatedAt : option string;
  recordSource : string
}.

(** [item.get("isActive", True)]. *)
Definition isActiveItem (item : VersionItem) : bool :=
  default true (itemIsActive item).

(** [ToolVersioning._toVersionRecord]. *)
Definition toVersionRecord (item : VersionItem) (source : string) : VersionRecord :=
  {| recordVersion := itemVersion item;
     recordIsActive := isActiveItem item;
     recordPermission := itemPermission item;
     recordTenantId := itemTenantId item;
     recordCreatedAt := itemCreatedAt item;
     recordUpdatedAt := itemUpdatedAt item;
     recordSource := source |}.

(** The two caches of a [ToolVersioning] object. *)
Record VersionCaches := {
  tenantCache : gmap string (list VersionItem);
  publicCache : gmap string (list VersionItem)
}.

(** The registry table. A run of queries answers with the items of its
    pages, up to the page that carries no [LastEvaluatedKey], or one of
    the queries raises. [tenantPages] is asked by partition key and
    sort-key prefix; [publicPages] by tool name on the index
    [ToolNameIndex], with the filter on public permission and, if the flag
    is set, on [isActive] being true. *)
Record VersionTable := {
  tenantPages : string → string → res (list (list VersionItem));
  publicPages : string → bool → res (list (list VersionItem))
}.

(** [ToolVersioning._cacheKey]. *)
Definition cacheKey (tenantId toolName : string) : string :=
  tenantId +:+ ":" +:+ toolName.

(** [ToolVersioning._fetchTenantVersions]. *)
Definition fetchTenantVersions (table : VersionTable)
    (toolName tenantId : string) (includeInactive : bool)
    (caches : VersionCaches) : VersionCaches * res (list VersionItem) :=
  match tenantCache caches !! cacheKey tenantId toolName with
  | Some items => (caches, Ok items)
  | None =>
      match tenantPages table ("TENANT#" +:+ tenantId)
                        ("TOOL#" +:+ toolName +:+ "#VERSION#") with
      | Raise e => (caches, Raise e)
      | Ok pages =>
          let items :=
            if includeInactive then concat pages
            else filter (λ item, isActiveItem item = true) (concat pages) in
          ({| tenantCache := <[cacheKey tenantId toolName := items]> (tenantCache caches);
              publicCache := publicCache caches |},
           Ok items)
      end
  end.

(** [ToolVersioning._fetchPublicVersions]. *)
Definition fetchPublicVersions (table : VersionTable)
    (toolName : string) (includeInactive : bool)
    (caches : VersionCaches) : VersionCaches * res (list VersionItem) :=
  match publicCache caches !! toolName with
  | Some items => (caches, Ok items)
  | None =>
      match publicPages table toolName (negb includeInactive) with
      | Raise e => (caches, Raise e)
      | Ok pages =>
          ({| tenantCache := tenantCache caches;
              publicCache := <[toolName := concat pages]> (publicCache caches) |},
           Ok (concat pages))
      end
  end.

(** The sort key of a record: [_parseVersionTuple(item.get("version",
    "0.0.0"))]. A record always has the key [version]; the pattern cannot
    be matched against [None]. *)
Definition versionKey (record : VersionRecord) : tres (Z * Z * Z) :=
  match recordVersion record with
  | None => Refused (ToolRaised TypeError)
  | Some version =>
      match parseVersionTuple version with
      | Ok key => Fine key
      | Raise e => Refused (ToolRaised (EngineRaised e))
      end
  end.

(** [sorted] computes the keys of all items first, in their order. *)
Fixpoint versionKeys (items : list VersionRecord)
    : tres (list ((Z * Z * Z) * VersionRecord)) :=
  match items with
  | [] => Fine []
  | item :: rest =>
      match versionKey item with
      | Refused e => Refused e
      | Fine key =>
          match versionKeys rest with
          | Refused e => Refused e
          | Fine keyed => Fine ((key, item) :: keyed)
          end
      end
  end.

(** [sorted(..., reverse=True)] is stable: of two entries with equal keys
    the one that came first stays first. *)
Fixpoint insertDescending (entry : (Z * Z * Z) * VersionRecord)
    (sorted : list ((Z * Z * Z) * VersionRecord))
    : list ((Z * Z * Z) * VersionRecord) :=
  match sorted with
  | [] => [entry]
  | other :: rest =>
      if keyLt entry.1 other.1 then other :: insertDescending entry rest
      else entry :: sorted
  end.

Definition sortDescending (entries : list ((Z * Z * Z) * VersionRecord))
    : list ((Z * Z * Z) * VersionRecord) :=
  foldr insertDescending [] entries.

(** [ToolVersioning._sortVersions]. *)
Definition sortVersions (items : list VersionRecord) : tres (list VersionRecord) :=
  match versionKeys items with
  | Refused e => Refused e
  | Fine keyed => Fine (snd <$> sortDescending keyed)
  end.

(** The dict [unique] of [getVersionHistory], in the order of its keys. *)
Fixpoint uniqueGet (version : string) (unique : list (string * VersionRecord))
    : option VersionRecord :=
  match unique with
  | [] => None
  | (key, record) :: rest =>
      if decide (key = version) then Some record else uniqueGet version rest
  end.

Fixpoint uniqueSet (version : string) (record : VersionRecord)
    (unique : list (string * VersionRecord)) : list (string * VersionRecord) :=
  match unique with
  | [] => [(version, record)]
  | (key, old) :: rest =>
      if decide (key = version) then (key, record) :: rest
      else (key, old) :: uniqueSet version record rest
  end.

(** One turn of the loop over the records. *)
Definition keepUnique (unique : list (string * VersionRecord))
    (record : VersionRecord) : list (string * VersionRecord) :=
  match recordVersion record with
  | None => unique
  | Some version =>
      if decide (version = "") then unique
      else
        match uniqueGet version unique with
        | None => uniqueSet version record unique
        | Some _ =>
            if decide (recordSource record = "tenant")
            then uniqueSet version record unique
            else unique
        end
  end.

Definition uniqueRecords (versions : list VersionRecord) : list VersionRecord :=
  snd <$> foldl keepUnique [] versions.

(** [ToolVersioning.getVersionHistory]. *)
Definition getVersionHistory (table : VersionTable)
    (toolName tenantId : string) (includePublic includeInactive : bool)
    (caches : VersionCaches) : VersionCaches * tres (list VersionRecord) :=
  match fetchTenantVersions table toolName tenantId includeInactive caches with
  | (caches, Raise e) => (caches, Refused (ToolRaised (EngineRaised e)))
  | (caches, Ok tenantItems) =>
      let versions := (λ item, toVersionRecord item "tenant") <$> tenantItems in
      if includePublic then
        match fetchPublicVersions table toolName includeInactive caches with
        | (caches, Raise e) => (caches, Refused (ToolRaised (EngineRaised e)))
        | (caches, Ok publicItems) =>
            (caches,
             sortVersions
               (uniqueRecords
                  (versions
                   ++ ((λ item, toVersionRecord item "public") <$> publicItems))))
        end
      else (caches, sortVersions (uniqueRecords versions))
  end.

(** [ToolVersioning.getLatestVersion]. *)
Definition getLatestVersion (table : VersionTable)
    (toolName tenantId : string) (includePublic : bool)
    (caches : VersionCaches) : VersionCaches * tres (option string) :=
  match getVersionHistory table toolName tenantId includePublic false caches with
  | (caches, Refused e) => (caches, Refused e)
  | (caches, Fine []) => (caches, Fine None)
  | (caches, Fine (record :: _)) => (caches, Fine (recordVersion record))
  end.

(** [ToolVersioning.versionExists]. *)
Definition versionExists (table : VersionTable)
    (toolName tenantId version : string) (includeInactive : bool)
    (caches : VersionCaches) : VersionCaches * tres bool :=
  match ensureValidVersion version with
  | Refused e => (caches, Refused e)
  | Fine _ =>
      match getVersionHistory table toolName tenantId false includeInactive caches with
      | (caches, Refused e) => (caches, Refused e)
      | (caches, Fine history) =>
          (caches,
           Fine (existsb (λ record, bool_decide (recordVersion record = Some version))
                         history))
      end
  end.

(** [ToolVersioning.ensureVersionAvailable]. *)
Definition ensureVersionAvailable (table : VersionTable)
    (toolName tenantId version : string)
    (caches : VersionCaches) : VersionCaches * tres unit :=
  match ensureValidVersion version with
  | Refused e => (caches, Refused e)
  | Fine _ =>
      match versionExists table toolName tenantId version true caches with
      | (caches, Refused e) => (caches, Refused e)
      | (caches, Fine true) =>
          (caches,
           Refused (InvalidToolDefinition
                      ("Tool " +:+ toolName +:+ " version " +:+ version
                       +:+ " already exists")
                      (Some toolName)))
      | (caches, Fine false) => (caches, Fine tt)
      end
  end.

(** [ToolVersioning.getNextVersion]. *)
Definition getNextVersion (table : VersionTable)
    (toolName tenantId : string) (releaseType : ToolReleaseType)
    (includePublic : bool)
    (caches : VersionCaches) : VersionCaches * tres string :=
  match getLatestVersion table toolName tenantId includePublic caches with
  | (caches, Refused e) => (caches, Refused e)
  | (caches, Fine None) => (caches, Fine "1.0.0")
  | (caches, Fine (Some latest)) =>
      if decide (latest = "") then (caches, Fine "1.0.0")
      else (caches, calculateNextVersion latest releaseType)
  end.

(** [key.startswith(prefix)] and [key.endswith(suffix)]. *)
Definition startsWith (start key : string) : bool :=
  bool_decide (String.list_ascii_of_string start
               `prefix_of` String.list_ascii_of_string key).

Definition endsWith (ending key : string) : bool :=
  bool_decide (String.list_ascii_of_string ending
               `suffix_of` String.list_ascii_of_string key).

(** [ToolVersioning.invalidateCache]; an argument is [None] or a string,
    and the empty string counts as absent too. *)
Definition invalidateCache (tenantId toolName : option string)
    (caches : VersionCaches) : VersionCaches :=
  let given (name : option string) : option string :=
    match name with
    | Some "" => None
    | _ => name
    end in
  {| tenantCache :=
       match given tenantId, given toolName with
       | Some tenant, Some tool => delete (cacheKey tenant tool) (tenantCache caches)
       | Some tenant, None =>
           filter (λ entry, startsWith (tenant +:+ ":") entry.1 = false)
                  (tenantCache caches)
       | None, Some tool =>
           filter (λ entry, endsWith (":" +:+ tool) entry.1 = false)
                  (tenantCache caches)
       | None, None => tenantCache caches
       end;
     publicCache :=
       match given toolName with
       | Some tool => delete tool (publicCache caches)
       | None => publicCache caches
       end |}.

(** [ToolVersioning.recordVersionRegistration] and
    [recordVersionDeactivation]. *)
Definition recordVersionRegistration (tenantId toolName : string)
    (caches : VersionCaches) : VersionCaches :=
  invalidateCache (Some tenantId) (Some toolName) caches.

Definition recordVersionDeactivation (tenantId toolName : string)
    (caches : VersionCaches) : VersionCaches :=
  invalidateCache (Some tenantId) (Some toolName) caches.

(** [ToolVersioning.clearCache]. *)
Definition clearCache (caches : VersionCaches) : VersionCaches :=
  {| tenantCache := ∅; publicCache := ∅ |}.

(** [a] does not sort below [b]: the key of [a] is not less than that of
    [b]. *)
Definition notBelow (a b : VersionRecord) : Prop :=
  ∀ ka kb, versionKey a = Fine ka → versionKey b = Fine kb → keyLt ka kb = false.

(** The version of an item, if it has one, is short enough for its
    numbers to be read. *)
Definition shortVersion (item : VersionItem) : Prop :=
  ∀ version, itemVersion item = Some version →
             (String.length version ≤ maxStrDigits)%nat.

(** A table for the examples: a tenant with three versions of a tool on
    two pages, one of them inactive, and two public versions. *)
Definition itemOf (version : string) (active : bool) : VersionItem :=
  {| itemVersion := Some version;
     itemIsActive := Some active;
     itemPermission := None;
     itemTenantId := None;
     itemCreatedAt := None;
     itemUpdatedAt := None |}.

Definition sampleTenantPages : list (list VersionItem) :=
  [[itemOf "1.2.0" true; itemOf "1.10.0" false]; [itemOf "1.9.3" true]].

Definition samplePublicPages : list (list VersionItem) :=
  [[itemOf "1.2.0" true; itemOf "2.0.0" true]].

Definition sampleVersionTable : VersionTable :=
  {| tenantPages := λ _ _, Ok sampleTenantPages;
     publicPages := λ _ _, Ok samplePublicPages |}.

Definition noVersionTable : VersionTable :=
  {| tenantPages := λ _ _, Ok [[]];
     publicPages := λ _ _, Ok [[]] |}.

Definition emptyCaches : VersionCaches :=
  {| tenantCache := ∅; publicCache := ∅ |}.

(** * Properties *)

(** ** The planner *)

Lemma buildTaskMap_spec_aux (tasks : list TaskDecomposition)
    (m : gmap string TaskDecomposition) (k : string) (t : TaskDecomposition) :
  (∀ k t, m !! k = Some t → taskId t = k) →
  foldl (λ m task, <[taskId task := task]> m) m tasks !! k = Some t →
  taskId t = k ∧ (t ∈ tasks ∨ m !! k = Some t).
Proof.
  revert m. induction tasks as [|task tasks IH]; intros m Hm; simpl.
  - intros H. split; [by eapply Hm | by right].
  - intros H. apply IH in H.
    + destruct H as [Hk [Hin | Hlook]]; split; try done.
      * left. apply elem_of_cons. by right.
      * destruct (decide (taskId task = k)) as [Heq | Hne].
        -- rewrite Heq, lookup_insert_eq in Hlook. left. apply elem_of_cons. left. congruence.
        -- rewrite lookup_insert_ne in Hlook by done. by right.
    + intros k' t' Hl. destruct (decide (taskId task = k')) as [Heq | Hne].
      * rewrite Heq, lookup_insert_eq in Hl. congruence.
      * rewrite lookup_insert_ne in Hl by done. by eapply Hm.
Qed.

Lemma buildTaskMap_lookup (tasks : list TaskDecomposition) (k : string)
    (t : TaskDecomposition) :
  buildTaskMap tasks !! k = Some t → taskId t = k ∧ t ∈ tasks.
Proof.
  intros H. apply buildTaskMap_spec_aux in H.
  - destruct H as [Hk [Hin | Hl]]; [done | by rewrite lookup_empty in Hl].
  - intros k' t' Hl. by rewrite lookup_empty in Hl.
Qed.

Lemma buildTaskMap_dom_aux (tasks : list TaskDecomposition)
    (m : gmap string TaskDecomposition) :
  dom (foldl (λ m task, <[taskId task := task]> m) m tasks)
  = dom m ∪ list_to_set (taskId <$> tasks).
Proof.
  revert m. induction tasks as [|task tasks IH]; intros m; simpl.
  - set_solver.
  - rewrite IH, dom_insert_L. set_solver.
Qed.

Lemma buildTaskMap_dom (tasks : list TaskDecomposition) :
  dom (buildTaskMap tasks) = list_to_set (taskId <$> tasks).
Proof.
  unfold buildTaskMap. rewrite buildTaskMap_dom_aux, dom_empty_L. set_solver.
Qed.

(** With distinct ids, the map gives each task back under its id. *)
Lemma buildTaskMap_nodup_aux (tasks : list TaskDecomposition)
    (m : gmap string TaskDecomposition) (t : TaskDecomposition) :
  NoDup (taskId <$> tasks) → t ∈ tasks →
  foldl (λ m task, <[taskId task := task]> m) m tasks !! taskId t = Some t.
Proof.
  revert m. induction tasks as [|task tasks IH]; intros m Hnd Hin; simpl.
  - by apply elem_of_nil in Hin.
  - rewrite fmap_cons in Hnd. apply NoDup_cons in Hnd as [Hnotin Hnd].
    apply elem_of_cons in Hin as [-> | Hin].
    + clear IH. revert m Hnotin. clear Hnd.
      induction tasks as [|t' tasks IH]; intros m Hnotin; simpl.
      * apply lookup_insert_eq.
      * rewrite fmap_cons in Hnotin. apply not_elem_of_cons in Hnotin as [Hne Hnotin].
        rewrite insert_insert_ne by done. by apply IH.
    + by apply IH.
Qed.

Lemma buildTaskMap_nodup (tasks : list TaskDecomposition) (t : TaskDecomposition) :
  NoDup (taskId <$> tasks) → t ∈ tasks → buildTaskMap tasks !! taskId t = Some t.
Proof. apply buildTaskMap_nodup_aux. Qed.

(** One pass of the [for] loop, on a snapshot without repetition whose ids
    are all keys of the map and all still in [remaining]: it raises
    nothing, appends the ready tasks and removes their ids. *)
Lemma collectWave_spec (taskMap : gmap string TaskDecomposition)
    (completed : gset string) (ids : list string)
    (currentWave : list TaskDecomposition) (remaining : gset string) :
  (∀ k t, taskMap !! k = Some t → taskId t = k) →
  NoDup ids →
  (∀ k, k ∈ ids → k ∈ remaining ∧ k ∈ dom taskMap) →
  collectWave taskMap completed ids currentWave remaining
  = Ok (currentWave ++ readyTasks taskMap completed ids,
        remaining ∖ list_to_set (taskId <$> readyTasks taskMap completed ids)).
Proof.
  intros Hkey. revert currentWave remaining.
  induction ids as [|tid ids IH]; intros currentWave remaining Hnd Hin; simpl.
  - rewrite app_nil_r. f_equal. f_equal. set_solver.
  - apply NoDup_cons in Hnd as [Hnotin Hnd].
    destruct (Hin tid) as [Hrem Hdom]; [by left |].
    apply elem_of_dom in Hdom as [task Htask].
    unfold readyTasks. simpl. fold (readyTasks taskMap completed ids).
    rewrite Htask. destruct (depsCompleted completed task).
    + rewrite decide_True by done. rewrite IH; [| done |].
      * simpl. rewrite <- app_assoc. simpl. f_equal. f_equal.
        rewrite (Hkey _ _ Htask). set_solver.
      * intros k Hk. destruct (Hin k) as [? ?]; [by right |].
        split; [| done]. apply elem_of_difference. split; [done |].
        intros ->%elem_of_singleton. done.
    + apply IH; [done |]. intros k Hk. apply Hin. by right.
Qed.

Lemma readyTasks_elem (taskMap : gmap string TaskDecomposition)
    (completed : gset string) (ids : list string) (t : TaskDecomposition) :
  t ∈ readyTasks taskMap completed ids ↔
  ∃ tid, tid ∈ ids ∧ taskMap !! tid = Some t ∧ depsCompleted completed t = true.
Proof.
  unfold readyTasks. rewrite list_elem_of_omap. split.
  - intros (tid & Hin & H). exists tid. split; [done |].
    destruct (taskMap !! tid) as [task|]; [| done].
    destruct (depsCompleted completed task) eqn:E; [| done].
    by simplify_eq.
  - intros (tid & Hin & Hl & Hd). exists tid. split; [done |].
    by rewrite Hl, Hd.
Qed.

Lemma depsCompleted_true (completed : gset string) (t : TaskDecomposition) :
  depsCompleted completed t = true ↔ ∀ dep, dep ∈ dependencies t → dep ∈ completed.
Proof.
  unfold depsCompleted. rewrite forallb_forall. split.
  - intros H dep Hin. apply list_elem_of_In in Hin. apply H in Hin.
    by apply bool_decide_eq_true in Hin.
  - intros H dep Hin. apply bool_decide_eq_true. apply H. by apply list_elem_of_In.
Qed.

Lemma readyTasks_ids_in (taskMap : gmap string TaskDecomposition)
    (completed : gset string) (ids : list string) (k : string) :
  (∀ k t, taskMap !! k = Some t → taskId t = k) →
  k ∈ (taskId <$> readyTasks taskMap completed ids) → k ∈ ids.
Proof.
  intros Hkey (t & -> & Ht)%list_elem_of_fmap.
  apply readyTasks_elem in Ht as (tid & Hin & Hl & _).
  by rewrite (Hkey _ _ Hl).
Qed.

Lemma readyTasks_NoDup (taskMap : gmap string TaskDecomposition)
    (completed : gset string) (ids : list string) :
  (∀ k t, taskMap !! k = Some t → taskId t = k) →
  NoDup ids → NoDup (taskId <$> readyTasks taskMap completed ids).
Proof.
  intros Hkey. induction ids as [|tid ids IH]; intros Hnd.
  - constructor.
  - apply NoDup_cons in Hnd as [Hnotin Hnd].
    unfold readyTasks. simpl. fold (readyTasks taskMap completed ids).
    destruct (taskMap !! tid) as [task|] eqn:Hl; [| by apply IH].
    destruct (depsCompleted completed task); [| by apply IH].
    simpl. apply NoDup_cons. split; [| by apply IH].
    rewrite (Hkey _ _ Hl). intros Hin. apply Hnotin.
    by eapply readyTasks_ids_in.
Qed.

Lemma LoopInv_step (order : gset string → list string)
    (taskMap : gmap string TaskDecomposition)
    (completed remaining : gset string) (waves : list (list TaskDecomposition)) :
  (∀ s, order s ≡ₚ elements s) →
  (∀ k t, taskMap !! k = Some t → taskId t = k) →
  LoopInv taskMap completed remaining waves →
  readyTasks taskMap completed (order remaining) ≠ [] →
  LoopInv taskMap
    (completed ∪ list_to_set (taskId <$> readyTasks taskMap completed (order remaining)))
    (remaining ∖ list_to_set (taskId <$> readyTasks taskMap completed (order remaining)))
    (waves ++ [readyTasks taskMap completed (order remaining)]).
Proof.
  intros Horder Hkey [Hc Hdis Hcov Hord Hk Hnd Hne] Hready.
  set (ready := readyTasks taskMap completed (order remaining)) in *.
  assert (Hsub : ∀ k, k ∈ (taskId <$> ready) → k ∈ remaining).
  { intros k Hin. apply readyTasks_ids_in in Hin; [| done].
    rewrite Horder in Hin. by apply elem_of_elements in Hin. }
  split.
  - rewrite join_app, fmap_app, list_to_set_app_L. simpl.
    rewrite app_nil_r. by rewrite <- Hc.
  - set_solver.
  - rewrite <- Hcov. apply set_eq. intros k.
    rewrite !elem_of_union, elem_of_difference, elem_of_list_to_set.
    destruct (decide (k ∈ (taskId <$> ready))); naive_solver.
  - intros i wave task dep Hi Htask Hdep.
    apply lookup_app_Some in Hi as [Hi | [Hlen Hi]].
    + destruct (Hord i wave task dep Hi Htask Hdep) as (j & w' & t' & Hj & Hw' & Ht' & Hid).
      exists j, w', t'. split_and!; try done. by apply lookup_app_l_Some.
    + destruct (i - length waves)%nat eqn:E; simpl in Hi; [| done].
      injection Hi as <-.
      apply readyTasks_elem in Htask as (tid & _ & _ & Hd).
      rewrite depsCompleted_true in Hd. specialize (Hd dep Hdep).
      rewrite Hc in Hd. apply elem_of_list_to_set in Hd.
      apply list_elem_of_fmap in Hd as (t' & Hid & Hin).
      apply list_elem_of_join in Hin as (w' & Ht' & Hw').
      apply list_elem_of_lookup in Hw' as [j Hj].
      exists j, w', t'. split_and!; try done.
      * apply lookup_lt_Some in Hj. lia.
      * by apply lookup_app_l_Some.
  - intros t. rewrite join_app. simpl. rewrite app_nil_r.
    intros [Hin | Hin]%elem_of_app; [by apply Hk |].
    apply readyTasks_elem in Hin as (tid & _ & Hl & _).
    by rewrite (Hkey _ _ Hl).
  - rewrite join_app, fmap_app. simpl. rewrite app_nil_r.
    apply NoDup_app. split_and!; [done | | ].
    + intros k Hin1 Hin2. apply Hsub in Hin2.
      apply (Hdis k); [done |]. rewrite Hc. by apply elem_of_list_to_set.
    + apply readyTasks_NoDup; [done |]. rewrite Horder. apply NoDup_elements.
  - intros wave [Hin | Hin]%elem_of_app; [by apply Hne |].
    apply list_elem_of_singleton in Hin. by subst.
Qed.

(** The [while] loop never runs out of a fuel of [size remaining] passes
    and never raises; it stops with [remaining] empty or with no task of
    [remaining] ready, and its invariant still holds. *)
Lemma layerWaves_spec (order : gset string → list string)
    (taskMap : gmap string TaskDecomposition) (fuel : nat) :
  (∀ s, order s ≡ₚ elements s) →
  (∀ k t, taskMap !! k = Some t → taskId t = k) →
  ∀ completed remaining waves,
    LoopInv taskMap completed remaining waves →
    (size remaining ≤ fuel)%nat →
    ∃ final completed' remaining',
      layerWaves order fuel taskMap completed remaining waves = Some (Ok final) ∧
      LoopInv taskMap completed' remaining' final ∧
      (remaining' = ∅ ∨ readyTasks taskMap completed' (order remaining') = []).
Proof.
  intros Horder Hkey.
  induction fuel as [|fuel IH]; intros completed remaining waves Hinv Hsize.
  - assert (remaining = ∅) as -> by (apply leibniz_equiv, size_empty_iff; lia).
    exists waves, completed, ∅. simpl. rewrite decide_True by done. eauto.
  - simpl. destruct (decide (remaining = ∅)) as [-> | Hne].
    { exists waves, completed, ∅. eauto. }
    rewrite (collectWave_spec taskMap completed (order remaining) [] remaining Hkey).
    + simpl.
      destruct (readyTasks taskMap completed (order remaining)) as [|t ready] eqn:Hready.
      { exists waves, completed, remaining. eauto. }
      rewrite <- Hready.
      apply IH.
      * apply LoopInv_step; try done. by rewrite Hready.
      * assert (taskId t ∈ remaining) as Hin.
        { assert (taskId t ∈ (taskId <$> readyTasks taskMap completed (order remaining))) as H.
          { rewrite Hready. rewrite fmap_cons. by left. }
          apply readyTasks_ids_in in H; [| done].
          rewrite Horder in H. by apply elem_of_elements in H. }
        assert (remaining ∖ list_to_set (taskId <$> readyTasks taskMap completed (order remaining))
                ⊂ remaining) as Hsub.
        { rewrite Hready. rewrite fmap_cons. set_solver. }
        apply subset_size in Hsub. lia.
    + rewrite Horder. apply NoDup_elements.
    + intros k Hk. rewrite Horder in Hk. apply elem_of_elements in Hk.
      split; [done |]. rewrite <- (inv_cover _ _ _ _ Hinv). set_solver.
Qed.

Lemma LoopInv_init (tasks : list TaskDecomposition) :
  LoopInv (buildTaskMap tasks) ∅ (list_to_set (taskId <$> tasks)) [].
Proof.
  split; simpl; try set_solver.
  - rewrite buildTaskMap_dom. set_solver.
  - intros i wave task dep Hi. by rewrite lookup_nil in Hi.
  - constructor.
Qed.

(** On an acyclic graph the loop cannot stop with tasks left over. *)
Lemma acyclic_not_stuck (order : gset string → list string)
    (tasks : list TaskDecomposition) (completed remaining : gset string)
    (waves : list (list TaskDecomposition)) :
  (∀ s, order s ≡ₚ elements s) →
  acyclicDeps tasks →
  LoopInv (buildTaskMap tasks) completed remaining waves →
  readyTasks (buildTaskMap tasks) completed (order remaining) = [] →
  remaining = ∅.
Proof.
  intros Horder [rank Hrank] Hinv Hstuck.
  assert (Hall : ∀ n k, k ∈ dom (buildTaskMap tasks) → (rank k < n)%nat → k ∈ completed).
  { induction n as [|n IHn]; intros k Hdom Hlt; [lia |].
    destruct (decide (k ∈ completed)) as [|Hnot]; [done | exfalso].
    assert (k ∈ remaining) as Hrem.
    { rewrite <- (inv_cover _ _ _ _ Hinv) in Hdom. set_solver. }
    apply elem_of_dom in Hdom as [t Ht].
    destruct (buildTaskMap_lookup _ _ _ Ht) as [Hid Hin].
    assert (t ∈ readyTasks (buildTaskMap tasks) completed (order remaining)) as Hready.
    { apply readyTasks_elem. exists k. split_and!; [| done |].
      - rewrite Horder. by apply elem_of_elements.
      - apply depsCompleted_true. intros dep Hdep.
        destruct (Hrank t dep Hin Hdep) as [Hd Hr].
        apply IHn; [| rewrite Hid in Hr; lia].
        rewrite buildTaskMap_dom. by apply elem_of_list_to_set. }
    rewrite Hstuck in Hready. by apply elem_of_nil in Hready. }
  apply set_eq. intros k. split; [| set_solver].
  intros Hk. exfalso.
  assert (k ∈ completed) as Hc.
  { apply (Hall (S (rank k))); [| lia].
    rewrite <- (inv_cover _ _ _ _ Hinv). set_solver. }
  by apply (inv_disjoint _ _ _ _ Hinv k).
Qed.

Lemma planOfWaves_aux (waves : list (list TaskDecomposition)) (plan : ExecutionPlan) :
  foldl extendPlan plan waves
  = {| sequential := sequential plan
                     ++ mjoin (filter (λ wave, ¬ (1 < length wave)%nat) waves);
       parallel := parallel plan
                   ++ mjoin (filter (λ wave, (1 < length wave)%nat) waves) |}.
Proof.
  revert plan. induction waves as [|wave waves IH]; intros plan; simpl.
  - rewrite !app_nil_r. by destruct plan.
  - rewrite IH. unfold extendPlan.
    destruct (decide (1 < length wave)%nat) as [Hl | Hl]; simpl.
    + rewrite (filter_cons_True (λ w : list TaskDecomposition, (1 < length w)%nat)) by exact Hl.
      rewrite (filter_cons_False (λ w : list TaskDecomposition, ¬ (1 < length w)%nat))
        by (intros H; apply H, Hl).
      simpl. by rewrite app_assoc.
    + rewrite (filter_cons_False (λ w : list TaskDecomposition, (1 < length w)%nat)) by exact Hl.
      rewrite (filter_cons_True (λ w : list TaskDecomposition, ¬ (1 < length w)%nat)) by exact Hl.
      simpl. by rewrite app_assoc.
Qed.

(** The two buckets of the plan: the waves of one task, concatenated in
    wave order, and the larger waves, concatenated in wave order. *)
Lemma planOfWaves_buckets (waves : list (list TaskDecomposition)) :
  sequential (planOfWaves waves)
  = mjoin (filter (λ wave, ¬ (1 < length wave)%nat) waves) ∧
  parallel (planOfWaves waves)
  = mjoin (filter (λ wave, (1 < length wave)%nat) waves).
Proof. unfold planOfWaves. rewrite planOfWaves_aux. done. Qed.

(** One pass of the [while] loop that finds a ready task. *)
Lemma layerWaves_step (order : gset string → list string)
    (taskMap : gmap string TaskDecomposition) (fuel : nat)
    (completed remaining : gset string) (waves : list (list TaskDecomposition)) :
  (∀ s, order s ≡ₚ elements s) →
  (∀ k t, taskMap !! k = Some t → taskId t = k) →
  remaining ⊆ dom taskMap →
  readyTasks taskMap completed (order remaining) ≠ [] →
  layerWaves order (S fuel) taskMap completed remaining waves
  = layerWaves order fuel taskMap
      (completed ∪ list_to_set (taskId <$> readyTasks taskMap completed (order remaining)))
      (remaining ∖ list_to_set (taskId <$> readyTasks taskMap completed (order remaining)))
      (waves ++ [readyTasks taskMap completed (order remaining)]).
Proof.
  intros Horder Hkey Hdom Hready. simpl.
  destruct (decide (remaining = ∅)) as [-> | Hne].
  { exfalso. apply Hready. apply Permutation_nil_r.
    unfold readyTasks. by rewrite Horder, elements_empty. }
  rewrite (collectWave_spec taskMap completed (order remaining) [] remaining Hkey).
  - simpl. by destruct (readyTasks taskMap completed (order remaining)).
  - rewrite Horder. apply NoDup_elements.
  - intros k Hk. rewrite Horder in Hk. apply elem_of_elements in Hk. set_solver.
Qed.

Lemma scenario_waves (order : gset string → list string) :
  (∀ s, order s ≡ₚ elements s) →
  ∃ wave1,
    wave1 ≡ₚ [taskA; taskB] ∧
    buildWaves order scenarioTasks = Some (Ok [wave1; [taskC]]).
Proof.
  intros Horder.
  set (taskMap := buildTaskMap scenarioTasks).
  assert (Hkey : ∀ k t, taskMap !! k = Some t → taskId t = k).
  { intros k t Hl. by apply buildTaskMap_lookup in Hl as [? _]. }
  set (remaining := list_to_set (taskId <$> scenarioTasks) : gset string).
  assert (Hdom : dom taskMap = remaining) by apply buildTaskMap_dom.
  exists (readyTasks taskMap ∅ (order remaining)).
  assert (Hw1 : readyTasks taskMap ∅ (order remaining) ≡ₚ [taskA; taskB]).
  { unfold readyTasks. rewrite Horder. by vm_compute. }
  split; [done |].
  assert (Hids : list_to_set (taskId <$> readyTasks taskMap ∅ (order remaining))
                 = ({[ "A"; "B" ]} : gset string)).
  { rewrite Hw1. by vm_compute. }
  assert (Hne1 : readyTasks taskMap ∅ (order remaining) ≠ []).
  { intros Hnil. rewrite Hnil in Hw1. by apply Permutation_nil_cons in Hw1. }
  assert (Hsub1 : remaining ⊆ dom taskMap) by (by rewrite Hdom).
  assert (Hord2 : order {[ "C" ]} = ["C"]).
  { apply Permutation_singleton_r. by rewrite Horder, elements_singleton. }
  assert (Hw2 : readyTasks taskMap {[ "A"; "B" ]} (order {[ "C" ]}) = [taskC]).
  { rewrite Hord2. by vm_compute. }
  assert (Hsub2 : ({[ "C" ]} : gset string) ⊆ dom taskMap).
  { rewrite Hdom. unfold remaining, scenarioTasks. simpl. set_solver. }
  assert (Hne2 : readyTasks taskMap {[ "A"; "B" ]} (order {[ "C" ]}) ≠ [])
    by (by rewrite Hw2).
  assert (Hrem1 : remaining ∖ {[ "A"; "B" ]} = ({[ "C" ]} : gset string)).
  { apply set_eq. intros k. unfold remaining, scenarioTasks. simpl. set_solver. }
  assert (Hsize : size remaining = 3%nat) by (by vm_compute).
  unfold buildWaves. fold taskMap. fold remaining. rewrite Hsize.
  rewrite (layerWaves_step order taskMap 2 ∅ remaining [] Horder Hkey Hsub1 Hne1).
  rewrite Hids, Hrem1, (left_id_L ∅ (∪)).
  rewrite (layerWaves_step order taskMap 1 _ _ _ Horder Hkey Hsub2 Hne2).
  rewrite Hw2. simpl.
  rewrite decide_True; [done |]. set_solver.
Qed.

(** C1, as the code has it. Whatever order the set of remaining ids is
    iterated in, [_buildExecutionPlan] returns for every task list: the
    wave layering it computes puts each dependency of a task of a wave in
    a strictly earlier wave, and the plan's two buckets are the one-task
    waves and the larger waves, each concatenated in wave order. When the
    ids are distinct and the dependency graph is acyclic, every subtask is
    in some wave. For the three subtasks A, B and C-after-A-and-B the
    layering is wave 1 = {A, B}, wave 2 = [C], and the plan has A and B in
    its parallel bucket and C in its sequential bucket. *)
Theorem buildExecutionPlan_layering (order : gset string → list string) :
  (∀ s, order s ≡ₚ elements s) →
  (∀ tasks, ∃ waves,
      buildWaves order tasks = Some (Ok waves) ∧
      buildExecutionPlan order tasks = Some (Ok (planOfWaves waves)) ∧
      wavesOrdered waves ∧
      sequential (planOfWaves waves)
        = mjoin (filter (λ wave, ¬ (1 < length wave)%nat) waves) ∧
      parallel (planOfWaves waves)
        = mjoin (filter (λ wave, (1 < length wave)%nat) waves) ∧
      (NoDup (taskId <$> tasks) → acyclicDeps tasks →
       ∀ task, task ∈ tasks → ∃ i wave, waves !! i = Some wave ∧ task ∈ wave)) ∧
  (∃ wave1,
      wave1 ≡ₚ [taskA; taskB] ∧
      buildWaves order scenarioTasks = Some (Ok [wave1; [taskC]]) ∧
      buildExecutionPlan order scenarioTasks
        = Some (Ok {| sequential := [taskC]; parallel := wave1 |})).
Proof.
  intros Horder. split.
  - intros tasks.
    assert (Hkey : ∀ k t, buildTaskMap tasks !! k = Some t → taskId t = k).
    { intros k t Hl. by apply buildTaskMap_lookup in Hl as [? _]. }
    destruct (layerWaves_spec order (buildTaskMap tasks)
                (size (list_to_set (taskId <$> tasks) : gset string)) Horder Hkey
                ∅ (list_to_set (taskId <$> tasks)) [] (LoopInv_init tasks))
      as (waves & completed & remaining & Hrun & Hinv & Hstop); [lia |].
    exists waves. unfold buildExecutionPlan, buildWaves. rewrite Hrun.
    destruct (planOfWaves_buckets waves) as [Hseq Hpar].
    split_and!; try done; [by apply (inv_ordered _ _ _ _ Hinv) |].
    intros Hnd Hacyclic task Hin.
    assert (remaining = ∅) as ->.
    { destruct Hstop as [-> | Hstuck]; [done |]. by eapply acyclic_not_stuck. }
    assert (taskId task ∈ completed) as Hdone.
    { assert (taskId task ∈ dom (buildTaskMap tasks)) as Hd.
      { rewrite buildTaskMap_dom. apply elem_of_list_to_set.
        by apply list_elem_of_fmap_2. }
      rewrite <- (inv_cover _ _ _ _ Hinv) in Hd. set_solver. }
    rewrite (inv_completed _ _ _ _ Hinv) in Hdone.
    apply elem_of_list_to_set, list_elem_of_fmap in Hdone as (t' & Hid & Ht').
    assert (t' = task) as ->.
    { apply (inv_keyed _ _ _ _ Hinv) in Ht'. rewrite <- Hid in Ht'.
      rewrite (buildTaskMap_nodup tasks task Hnd Hin) in Ht'. congruence. }
    apply list_elem_of_join in Ht' as (wave & Hw & Hwave).
    apply list_elem_of_lookup in Hwave as [i Hi]. eauto.
  - destruct (scenario_waves order Horder) as (wave1 & Hperm & Hrun).
    exists wave1. split_and!; try done.
    unfold buildExecutionPlan. rewrite Hrun. do 2 f_equal.
    assert (length wave1 = 2%nat) as Hlen by (by rewrite Hperm).
    destruct wave1 as [|a [|b [|c wave1]]]; simpl in Hlen; try lia.
    reflexivity.
Qed.

Lemma buildExecutionPlan_layering_witness :
  ∃ wave1,
    wave1 ≡ₚ [taskA; taskB] ∧
    buildWaves elements scenarioTasks = Some (Ok [wave1; [taskC]]).
Proof.
  destruct (buildExecutionPlan_layering elements (λ s, reflexivity _))
    as [_ (wave1 & Hperm & Hrun & _)].
  exists wave1. split; assumption.
Defined.

(** C1, as stated, fails on the scenario itself: read in the order in
    which the executor consumes it (the sequential bucket, then the
    parallel bucket), the plan puts C first and A and B after it, so C's
    dependencies are not in an earlier position. *)
Lemma buildExecutionPlan_loses_wave_order :
  ∃ plan,
    buildExecutionPlan elements scenarioTasks = Some (Ok plan) ∧
    planOrder plan = [[taskC]; [taskA; taskB]] ∧
    planOrder plan ≠ [[taskA; taskB]; [taskC]] ∧
    ¬ wavesOrdered (planOrder plan).
Proof.
  exists {| sequential := [taskC]; parallel := [taskA; taskB] |}.
  split_and!.
  - by vm_compute.
  - done.
  - discriminate.
  - intros Hord.
    destruct (Hord 0%nat [taskC] taskC "A") as (j & _ & _ & Hj & _).
    + done.
    + by left.
    + by left.
    + lia.
Qed.

(** ** Context assembly *)

Lemma includeWhileFits_total (maxTokens : Z) (memories included : list MemoryRecord)
    (total : Z) :
  ∃ added,
    includeWhileFits maxTokens memories included total
    = (included ++ added, total + tierTokens added) ∧
    (added = [] ∨ total + tierTokens added < maxTokens).
Proof.
  revert included total.
  induction memories as [|memory rest IH]; intros included total; simpl.
  - exists []. simpl. rewrite app_nil_r, Z.add_0_r. eauto.
  - destruct (total + countTokens (memContent memory) <? maxTokens) eqn:Hfits.
    + destruct (IH (included ++ [memory]) (total + countTokens (memContent memory)))
        as (added & Heq & Hbound).
      exists (memory :: added). rewrite Heq. simpl.
      rewrite <- app_assoc, Z.add_assoc. split; [done |]. right.
      apply Z.ltb_lt in Hfits.
      destruct Hbound as [-> | Hlt]; simpl; lia.
    + exists []. simpl. rewrite app_nil_r, Z.add_0_r. eauto.
Qed.

(** Unfolding one returning call of [retrieveContext]. *)
Lemma retrieveContext_returns (cfg : Settings) (W : MemoryWorld)
    (sessionId query : string) (maxTokens : Z) (tr tr' : list MemoryEvent)
    (ctx : Context) :
  retrieveContext cfg W sessionId query maxTokens tr = (tr', Ok ctx) →
  ∃ threshold fetchedSemantic,
    intMulFloat maxTokens seventyPercent = Ok threshold ∧
    (episodic ctx = [] ∨ consumedBeforeSemantic ctx < maxTokens) ∧
    totalTokens ctx = consumedBeforeSemantic ctx + tierTokens (semantic ctx) ∧
    (semantic ctx = [] ∨ totalTokens ctx < maxTokens) ∧
    (if intLtFloat (consumedBeforeSemantic ctx) threshold
     then fetchedSemantic = [SemanticSearch query (topKSemanticRetrieval cfg)]
     else fetchedSemantic = [] ∧ semantic ctx = []) ∧
    tr' = tr ++ [WorkingGetAll sessionId]
             ++ (if countTokens (working ctx) <? maxTokens
                 then [EpisodicRetrieveBySession sessionId 10] else [])
             ++ fetchedSemantic ++ [ProceduralSearch 5].
Proof.
  unfold retrieveContext, mbind, M_bind, mret, M_ret, call, liftRes.
  destruct (workingGetAll W sessionId) as [workingCtx|]; [| done].
  rewrite Z.add_0_l.
  destruct (countTokens workingCtx <? maxTokens) eqn:Hw.
  - destruct (retrieveBySession W sessionId 10) as [recent|]; [| done].
    destruct (includeWhileFits_total maxTokens recent [] (countTokens workingCtx))
      as (tier & Heq1 & Hb1).
    rewrite Heq1. simpl.
    destruct (intMulFloat maxTokens seventyPercent) as [threshold|]; [| done].
    destruct (intLtFloat (countTokens workingCtx + tierTokens tier) threshold) eqn:Hlt.
    + destruct (semanticSearch W query (topKSemanticRetrieval cfg)) as [found|]; [| done].
      destruct (includeWhileFits_total maxTokens (rankMemories W found query) []
                  (countTokens workingCtx + tierTokens tier)) as (added & Heq & Hb).
      rewrite Heq. simpl.
      destruct (proceduralSearch W 5) as [patterns|]; [| done].
      intros [= <- <-]. unfold consumedBeforeSemantic. simpl.
      exists threshold, [SemanticSearch query (topKSemanticRetrieval cfg)].
      rewrite Hlt, Hw. rewrite <- !app_assoc. split_and!; done.
    + destruct (proceduralSearch W 5) as [patterns|]; [| done].
      intros [= <- <-]. unfold consumedBeforeSemantic. simpl.
      exists threshold, []. rewrite Hlt, Hw. rewrite <- !app_assoc.
      split_and!; eauto. lia.
  - simpl.
    destruct (intMulFloat maxTokens seventyPercent) as [threshold|]; [| done].
    destruct (intLtFloat (countTokens workingCtx) threshold) eqn:Hlt.
    + destruct (semanticSearch W query (topKSemanticRetrieval cfg)) as [found|]; [| done].
      destruct (includeWhileFits_total maxTokens (rankMemories W found query) []
                  (countTokens workingCtx)) as (added & Heq & Hb).
      rewrite Heq. simpl.
      destruct (proceduralSearch W 5) as [patterns|]; [| done].
      intros [= <- <-]. unfold consumedBeforeSemantic. simpl.
      exists threshold, [SemanticSearch query (topKSemanticRetrieval cfg)].
      rewrite Z.add_0_r, Hlt, Hw. rewrite <- !app_assoc. split_and!; eauto.
    + destruct (proceduralSearch W 5) as [patterns|]; [| done].
      intros [= <- <-]. unfold consumedBeforeSemantic. simpl.
      exists threshold, []. rewrite Z.add_0_r, Hlt, Hw. rewrite <- !app_assoc.
      split_and!; eauto. lia.
Qed.

Lemma intLtFloat_mono (t t' : Z) (f : spec_float) :
  t ≤ t' → intLtFloat t' f = true → intLtFloat t f = true.
Proof.
  intros Hle. destruct f as [s | s | | s m e]; simpl; try done.
  - rewrite !Z.ltb_lt. lia.
  - destruct (0 <=? e) eqn:He; rewrite !Z.ltb_lt.
    + lia.
    + apply Z.leb_gt in He.
      assert (0 < 2 ^ (- e)) by (apply Z.pow_pos_nonneg; lia). nia.
Qed.

Lemma agreesFrom_spec (count : nat) (from k : Z) :
  agreesFrom from count = true → from ≤ k < from + Z.of_nat count →
  thresholdAgrees k = true.
Proof.
  revert from. induction count as [|count IH]; intros from Hall Hk; [lia |].
  simpl in Hall. destruct (thresholdAgrees from) eqn:Hfrom; [| done].
  destruct (decide (k = from)) as [-> | Hne]; [done |].
  apply (IH (from + 1)); [done | lia].
Qed.

(** Checked by evaluation for every budget up to 20000 and for the default
    [maxContextTokens]. *)
Lemma thresholdAgrees_range : agreesFrom 0 (Z.to_nat 20001) = true.
Proof. vm_cast_no_check (eq_refl true). Qed.

Lemma thresholdAgrees_default :
  thresholdAgrees (maxContextTokens defaultSettings) = true.
Proof. vm_cast_no_check (eq_refl true). Qed.

(** For such a budget, being under the float threshold is being under 70%
    of the budget. *)
Lemma seventyPercent_exact (maxTokens t : Z) :
  checkedBudget maxTokens →
  ∃ threshold,
    intMulFloat maxTokens seventyPercent = Ok threshold ∧
    (intLtFloat t threshold = true ↔ 10 * t < 7 * maxTokens).
Proof.
  intros Hrange.
  assert (thresholdAgrees maxTokens = true) as Hagree.
  { destruct Hrange as [Hrange | ->]; [| exact thresholdAgrees_default].
    apply (agreesFrom_spec _ 0 maxTokens thresholdAgrees_range). lia. }
  unfold thresholdAgrees in Hagree.
  destruct (intMulFloat maxTokens seventyPercent) as [threshold|]; [| done].
  exists threshold. split; [done |].
  apply andb_true_iff in Hagree as [Hbelow Habove].
  apply negb_true_iff in Habove.
  assert (0 ≤ maxTokens) as Hnonneg
    by (destruct Hrange as [? | ->]; [lia | by vm_compute]).
  set (below := (7 * maxTokens - 1) `div` 10) in *.
  assert (10 * below ≤ 7 * maxTokens - 1 < 10 * below + 10) as Hdiv.
  { unfold below. pose proof (Z.div_mod (7 * maxTokens - 1) 10 ltac:(lia)).
    pose proof (Z.mod_pos_bound (7 * maxTokens - 1) 10 ltac:(lia)). lia. }
  split.
  - intros Hlt. destruct (decide (t ≤ below)) as [|Hgt]; [lia |].
    assert (intLtFloat (below + 1) threshold = true) as Hcontra
      by (apply (intLtFloat_mono _ t); [lia | done]).
    congruence.
  - intros Hlt. apply (intLtFloat_mono _ below); [lia | done].
Qed.




(** C9, as the code has it. When [retrieveContext] returns, the semantic
    store was searched exactly when what the working and episodic tiers
    consumed is strictly under the float product [maxTokens * 0.7], and
    without a search the semantic tier is empty. For a budget up to 20000,
    and for the default budget of 200000, that is: exactly when less than
    70% of the budget has been consumed. *)
Theorem semantic_fetched_under_seventy_percent (cfg : Settings) (W : MemoryWorld)
    (sessionId query : string) (maxTokens : Z) (tr' : list MemoryEvent)
    (ctx : Context) :
  retrieveContext cfg W sessionId query maxTokens [] = (tr', Ok ctx) →
  ∃ threshold,
    intMulFloat maxTokens seventyPercent = Ok threshold ∧
    (SemanticSearch query (topKSemanticRetrieval cfg) ∈ tr' ↔
     intLtFloat (consumedBeforeSemantic ctx) threshold = true) ∧
    (SemanticSearch query (topKSemanticRetrieval cfg) ∉ tr' → semantic ctx = []) ∧
    (checkedBudget maxTokens →
     (SemanticSearch query (topKSemanticRetrieval cfg) ∈ tr' ↔
      10 * consumedBeforeSemantic ctx < 7 * maxTokens)).
Proof.
  intros Hrun.
  apply retrieveContext_returns in Hrun
    as (threshold & fetched & Hthr & _ & _ & _ & Hfetch & ->).
  exists threshold.
  assert (Hiff : SemanticSearch query (topKSemanticRetrieval cfg)
                   ∈ [] ++ [WorkingGetAll sessionId]
                        ++ (if countTokens (working ctx) <? maxTokens
                            then [EpisodicRetrieveBySession sessionId 10] else [])
                        ++ fetched ++ [ProceduralSearch 5]
                 ↔ intLtFloat (consumedBeforeSemantic ctx) threshold = true).
  { destruct (intLtFloat (consumedBeforeSemantic ctx) threshold).
    - subst fetched. split; [done | intros _].
      rewrite !elem_of_app. right. right. right. left. by left.
    - destruct Hfetch as [-> _]. split; [| done].
      rewrite !elem_of_app.
      destruct (countTokens (working ctx) <? maxTokens);
        rewrite ?elem_of_cons, ?elem_of_nil; naive_solver. }
  split_and!; [done | done | |].
  - intros Hnot. destruct (intLtFloat (consumedBeforeSemantic ctx) threshold).
    + exfalso. by apply Hnot, Hiff.
    + by destruct Hfetch.
  - intros Hrange. rewrite Hiff.
    destruct (seventyPercent_exact maxTokens (consumedBeforeSemantic ctx) Hrange)
      as (threshold' & Hthr' & Hexact).
    congruence.
Qed.

Lemma semantic_fetched_under_seventy_percent_witness :
  SemanticSearch "q" 10
    ∈ (retrieveContext defaultSettings (sampleMemoryWorld (rendering 50)) "s" "q" 100 []).1.
Proof.
  destruct (semantic_fetched_under_seventy_percent defaultSettings
              (sampleMemoryWorld (rendering 50)) "s" "q" 100
              (retrieveContext defaultSettings (sampleMemoryWorld (rendering 50))
                               "s" "q" 100 []).1
              {| working := rendering 50; episodic := [];
                 semantic := [ {| memId := "m1"; memContent := "abcdefgh" |} ];
                 procedural := []; totalTokens := 52 |})
    as (threshold & _ & _ & _ & Hpercent).
  - vm_compute. reflexivity.
  - apply Hpercent; [left; lia |]. vm_compute. reflexivity.
Defined.

(** C9, as stated, fails: with a budget of 100 and 50 tokens consumed by
    the working tier, the remaining budget is 50, which is not above 70% of
    the budget, and the semantic store is searched and its record appended
    all the same. *)
Lemma semantic_fetched_with_half_budget_left :
  ∃ tr' ctx,
    retrieveContext defaultSettings (sampleMemoryWorld (rendering 50)) "s" "q" 100 []
    = (tr', Ok ctx) ∧
    SemanticSearch "q" 10 ∈ tr' ∧
    semantic ctx ≠ [] ∧
    ¬ (10 * (100 - consumedBeforeSemantic ctx) > 7 * 100).
Proof.
  eexists _, _. split; [vm_compute; reflexivity |].
  split_and!.
  - rewrite !elem_of_cons. right. right. by left.
  - done.
  - vm_compute. intros H. discriminate H.
Qed.

(** ** The agent turn *)

Lemma app_cons_split (l1 l2 a b : list Event) (x : Event) :
  l1 ++ x :: l2 = a ++ b → x ∉ a → ∃ l, l1 = a ++ l ∧ b = l ++ x :: l2.
Proof.
  revert l1. induction a as [|y a IH]; intros l1 Heq Hnot; simpl in *.
  - exists l1. by split.
  - destruct l1 as [|z l1]; simpl in Heq.
    + injection Heq as -> _. exfalso. apply Hnot. by left.
    + injection Heq as -> Heq. apply IH in Heq as (l & -> & ->).
      * by exists l.
      * intros Hin. apply Hnot. by right.
Qed.

Lemma usageIssued_app (W : EngineWorld) (evs1 evs2 : list Event) :
  usageIssued W (evs1 ++ evs2) = usageIssued W evs1 + usageIssued W evs2.
Proof. induction evs1 as [|ev evs1 IH]; simpl; [done | rewrite IH; lia]. Qed.

Lemma usageIssued_no_model (W : EngineWorld) (evs : list Event) :
  Forall (λ ev, ¬ isModelCall ev) evs → usageIssued W evs = 0.
Proof.
  induction 1 as [|ev evs Hev _ IH]; simpl; [done |].
  rewrite IH. destruct ev; simpl in *; try done; by exfalso.
Qed.

Lemma tool_calls_no_model (evs : list Event) :
  Forall isToolCall evs → Forall (λ ev, ¬ isModelCall ev) evs.
Proof.
  intros H. eapply Forall_impl; [exact H |].
  intros ev Hev Hm. destruct ev; simpl in *; done.
Qed.

Section TurnLoop.

Variable cfg : Settings.
Variable W : EngineWorld.
Variable tools : list ToolDefinition.
Variable prompt : string.

(** The tool calls of one iteration: they never raise, they log tool
    executions only, and they leave the answer and the status alone. *)
Lemma runToolCalls_spec (iteration : nat) (calls : list ToolCall)
    (msgs : list Message) (ts : TurnState) :
  ∃ ts' msgs' new,
    runToolCalls W tools iteration calls msgs ts = (ts', Ok msgs') ∧
    trace ts' = trace ts ++ new ∧ Forall isToolCall new ∧
    agentResponse (execution ts') = agentResponse (execution ts) ∧
    execStatus (execution ts') = execStatus (execution ts).
Proof.
  revert msgs ts. induction calls as [|toolCall rest IH]; intros msgs ts.
  - exists ts, msgs, []. simpl. rewrite app_nil_r. by split_and!.
  - simpl. unfold mbind, M_bind, mret, M_ret, tryExcept, callT, updateExecution,
      modifyState.
    destruct (find (λ t, bool_decide (toolName t = callName toolCall)) tools)
      as [tool|].
    + destruct (toolExecute W iteration tool (callInput toolCall)) as [payload|e].
      * match goal with |- context [runToolCalls W tools iteration rest ?m ?t] =>
          destruct (IH m t) as (ts' & msgs' & new & Hrun & Htr & Hall & Hresp & Hst)
        end.
        exists ts', msgs', (ToolExecute iteration tool (callInput toolCall) :: new).
        rewrite Hrun. simpl in *. rewrite Htr, <- app_assoc.
        split_and!; try done. by constructor.
      * match goal with |- context [runToolCalls W tools iteration rest ?m ?t] =>
          destruct (IH m t) as (ts' & msgs' & new & Hrun & Htr & Hall & Hresp & Hst)
        end.
        exists ts', msgs', (ToolExecute iteration tool (callInput toolCall) :: new).
        rewrite Hrun. simpl in *. rewrite Htr, <- app_assoc.
        split_and!; try done. by constructor.
    + match goal with |- context [runToolCalls W tools iteration rest ?m ?t] =>
        destruct (IH m t) as (ts' & msgs' & new & Hrun & Htr & Hall & Hresp & Hst)
      end.
      exists ts', msgs', new. rewrite Hrun. simpl in *. by split_and!.
Qed.

Arguments runToolCalls : simpl never.

(** One pass of the loop body: the model raises, the ceiling is passed,
    the answer is final, or the tools run and the loop goes on. *)
Lemma toolLoop_step (left it : nat) (msgs : list Message) (total : Z)
    (ts : TurnState) :
  let ev := InvokeModel (S it) msgs prompt
              (match tools with [] => None | _ => Some tools end) in
  (∃ e, invokeModel W (S it) msgs = Raise e ∧
        toolLoop cfg W tools prompt (S left) it msgs total ts
        = (logged ts ev, Raise e)) ∨
  (∃ resp,
     invokeModel W (S it) msgs = Ok resp ∧
     let total' := total + default 0 (usageTotalTokens resp) in
     (maxTokenLimit cfg < total' ∧
      toolLoop cfg W tools prompt (S left) it msgs total ts
      = (logged ts ev, Raise (TokenLimitExceeded total' (maxTokenLimit cfg)))) ∨
     (total' ≤ maxTokenLimit cfg ∧ extractToolCalls resp = [] ∧
      toolLoop cfg W tools prompt (S left) it msgs total ts
      = ({| trace := trace ts ++ [ev];
            execution := setCompleted (extractTextResponse resp) total' (execution ts) |},
         Ok (S it))) ∨
     (total' ≤ maxTokenLimit cfg ∧ extractToolCalls resp ≠ [] ∧
      ∃ ts1 msgs1 toolEvs,
        trace ts1 = trace ts ++ [ev] ++ toolEvs ∧ Forall isToolCall toolEvs ∧
        agentResponse (execution ts1) = agentResponse (execution ts) ∧
        execStatus (execution ts1) = execStatus (execution ts) ∧
        toolLoop cfg W tools prompt (S left) it msgs total ts
        = toolLoop cfg W tools prompt left (S it) msgs1 total' ts1)).
Proof.
  intros ev. simpl. unfold mbind, M_bind, callT at 1. fold ev.
  destruct (invokeModel W (S it) msgs) as [resp|e]; [right | left; eauto].
  exists resp. split; [done |]. simpl.
  destruct (maxTokenLimit cfg <? total + default 0 (usageTotalTokens resp)) eqn:Hlim.
  { apply Z.ltb_lt in Hlim. left. split; [done |]. done. }
  apply Z.ltb_ge in Hlim. right.
  destruct (extractToolCalls resp) as [|call calls] eqn:Hcalls.
  { left. split_and!; try done. }
  right. split_and!; try done.
  destruct (runToolCalls_spec (S it) (call :: calls)
              (msgs ++ [{| role := "assistant";
                           content := BlocksContent (respContent resp) |}])
              (logged ts ev))
    as (ts1 & msgs1 & toolEvs & Hrun & Htr & Hall & Hresp & Hst).
  exists ts1, msgs1, toolEvs. split_and!; try done.
  - rewrite Htr. simpl. by rewrite <- app_assoc.
  - unfold logged in Hrun. rewrite Hrun. done.
Qed.

(** The loop, summed up: the calls it logs are model and tool calls; a
    call whose answer holds no tool request ends a returning loop, with
    that answer recorded and the status COMPLETED; a returned call after
    which the cumulative usage is over the ceiling is the last call, and
    the loop raises [TokenLimitExceeded]. *)
Lemma toolLoop_spec (left : nat) :
  ∀ (it : nat) (msgs : list Message) (total : Z) (ts ts' : TurnState) (r : res nat),
    toolLoop cfg W tools prompt left it msgs total ts = (ts', r) →
    ∃ new,
      trace ts' = trace ts ++ new ∧
      Forall isLoopCall new ∧
      (∀ n k m s tl resp,
          r = Ok n → InvokeModel k m s tl ∈ new →
          invokeModel W k m = Ok resp → extractToolCalls resp = [] →
          n = k ∧
          agentResponse (execution ts') = Some (extractTextResponse resp) ∧
          execStatus (execution ts') = COMPLETED) ∧
      (∀ before after k m s tl resp,
          new = before ++ InvokeModel k m s tl :: after →
          invokeModel W k m = Ok resp →
          maxTokenLimit cfg < total + usageIssued W (before ++ [InvokeModel k m s tl]) →
          after = [] ∧
          r = Raise (TokenLimitExceeded
                       (total + usageIssued W (before ++ [InvokeModel k m s tl]))
                       (maxTokenLimit cfg))).
Proof.
  induction left as [|left IH]; intros it msgs total ts ts' r Hrun.
  { simpl in Hrun. injection Hrun as <- <-. exists []. rewrite app_nil_r.
    split_and!; [done | constructor | |].
    - intros n k m s tl resp _ Hin. by apply elem_of_nil in Hin.
    - intros before after k m s tl resp Heq. by destruct before. }
  set (ev := InvokeModel (S it) msgs prompt
               (match tools with [] => None | _ => Some tools end)).
  assert (Hsingle : ∀ before after k m s tl,
             [ev] = before ++ InvokeModel k m s tl :: after →
             before = [] ∧ after = [] ∧ k = S it ∧ m = msgs).
  { intros before after k m s tl Heq.
    destruct before as [|x before]; simpl in Heq.
    - unfold ev in Heq. injection Heq as ? ? ? ? ?. by subst.
    - injection Heq as _ Heq. by destruct before. }
  destruct (toolLoop_step left it msgs total ts)
    as [(e & Hmodel & Heq) | (resp0 & Hmodel & [[Hover Heq] | [(Hfits & Hcalls & Heq)
        | (Hfits & Hcalls & ts1 & msgs1 & toolEvs & Htr1 & Htools & _ & _ & Heq)]])];
    fold ev in Heq; rewrite Heq in Hrun.
  - (* the model call raises *)
    injection Hrun as <- <-. exists [ev]. split_and!; [done | | |].
    + constructor; [by left | constructor].
    + intros n k m s tl resp Hn. discriminate Hn.
    + intros before after k m s tl resp Hsplit Hresp _.
      apply Hsingle in Hsplit as (-> & -> & -> & ->). congruence.
  - (* the ceiling is passed *)
    injection Hrun as <- <-. exists [ev]. split_and!; [done | | |].
    + constructor; [by left | constructor].
    + intros n k m s tl resp Hn. discriminate Hn.
    + intros before after k m s tl resp Hsplit Hresp _.
      apply Hsingle in Hsplit as (-> & -> & -> & ->).
      split; [done |]. simpl. rewrite Hmodel. do 2 f_equal. lia.
  - (* the answer is final *)
    injection Hrun as <- <-. exists [ev]. split_and!; [done | | |].
    + constructor; [by left | constructor].
    + intros n k m s tl resp [= <-] Hin Hresp _.
      apply list_elem_of_singleton in Hin.
      assert (k = S it ∧ m = msgs) as [-> ->] by (unfold ev in Hin; by injection Hin).
      rewrite Hmodel in Hresp. injection Hresp as <-. done.
    + intros before after k m s tl resp Hsplit Hresp Hlim.
      apply Hsingle in Hsplit as (-> & -> & -> & ->).
      simpl in Hlim. rewrite Hmodel in Hlim. lia.
  - (* the tools run and the loop goes on *)
    apply IH in Hrun as (new & Htr & Hall & Hfinal & Hceiling).
    exists ([ev] ++ toolEvs ++ new). split_and!.
    + rewrite Htr, Htr1. by rewrite <- !app_assoc.
    + apply Forall_app. split; [constructor; [by left | constructor] |].
      apply Forall_app. split; [| done].
      eapply Forall_impl; [exact Htools |]. intros x Hx. by right.
    + intros n k m s tl resp Hn Hin Hresp Hnone.
      apply elem_of_app in Hin as [Hin | Hin].
      { apply list_elem_of_singleton in Hin.
        assert (k = S it ∧ m = msgs) as [-> ->] by (unfold ev in Hin; by injection Hin).
        rewrite Hmodel in Hresp. injection Hresp as <-. done. }
      apply elem_of_app in Hin as [Hin | Hin].
      { rewrite Forall_forall in Htools. by apply Htools in Hin. }
      by eapply Hfinal.
    + intros before after k m s tl resp Hsplit Hresp Hlim.
      destruct before as [|x before]; simpl in Hsplit.
      { unfold ev in Hsplit. injection Hsplit as ? ? ? ? ?. subst.
        simpl in Hlim. rewrite Hmodel in Hlim. lia. }
      injection Hsplit as <- Hsplit.
      symmetry in Hsplit. apply app_cons_split in Hsplit as (rest & -> & ->).
      2:{ intros Hin. rewrite Forall_forall in Htools. by apply Htools in Hin. }
      assert (Husage : total + usageIssued W ((ev :: toolEvs ++ rest) ++ [InvokeModel k m s tl])
                       = total + default 0 (usageTotalTokens resp0)
                         + usageIssued W (rest ++ [InvokeModel k m s tl])).
      { simpl. rewrite Hmodel, <- app_assoc, usageIssued_app.
        rewrite (usageIssued_no_model W toolEvs) by by apply tool_calls_no_model.
        lia. }
      rewrite Husage in *. by eapply Hceiling.
Qed.

End TurnLoop.

Arguments toolLoop : simpl never.

Lemma app_cons_split_r (l1 l2 a b : list Event) (x : Event) :
  l1 ++ x :: l2 = a ++ b → x ∉ b → ∃ l, l2 = l ++ b ∧ a = l1 ++ x :: l.
Proof.
  revert a. induction l1 as [|y l1 IH]; intros a Heq Hnot; simpl in *.
  - destruct a as [|z a]; simpl in Heq.
    + exfalso. apply Hnot. rewrite <- Heq. by left.
    + injection Heq as <- ->. by exists a.
  - destruct a as [|z a]; simpl in Heq.
    + exfalso. apply Hnot. rewrite <- Heq. right. apply elem_of_app. right. by left.
    + injection Heq as <- Heq. apply IH in Heq as (l & -> & ->); [| done].
      by exists l.
Qed.

(** The statements before the loop log setup calls only and leave the
    execution record alone. *)
Lemma turnSetup_spec (cfg : Settings) (W : EngineWorld) (agentConfig : AgentConfig)
    (message sessionId : string) (ts ts' : TurnState)
    (r : res (list ToolDefinition * Context * list Message)) :
  turnSetup cfg W agentConfig message sessionId ts = (ts', r) →
  ∃ pre, trace ts' = trace ts ++ pre ∧ Forall isSetupCall pre ∧
         execution ts' = execution ts.
Proof.
  unfold turnSetup, mbind, M_bind, mret, M_ret, callT, liftMemory.
  destruct (getToolsForAgent W (toolIds agentConfig)) as [tools|e].
  2:{ intros [= <- <-]. eexists [_]. simpl. split_and!; try done. by repeat constructor. }
  simpl.
  destruct (retrieveContext cfg (memoryWorld W) sessionId message
              (maxContextTokens cfg) []) as [evs [context|e]].
  2:{ intros [= <- <-]. exists (GetToolsForAgent (toolIds agentConfig) :: (MemoryCall <$> evs)).
      simpl. rewrite <- app_assoc. split_and!; try done.
      constructor; [done |]. apply Forall_fmap. by apply Forall_true. }
  destruct (getConversationHistory W sessionId) as [history|e];
    intros [= <- <-];
    exists (GetToolsForAgent (toolIds agentConfig) :: (MemoryCall <$> evs)
            ++ [GetConversationHistory sessionId]);
    simpl; rewrite <- !app_assoc; (split_and!; try done);
    (constructor; [done |]); (apply Forall_app; split; [| by repeat constructor]);
    apply Forall_fmap; by apply Forall_true.
Qed.

(** The writes that end the block: they log writes to the memory manager
    only; when they return, the record is returned as it was, the user
    message has been appended, and the episodic record has been written
    exactly when the record carries a non-empty answer. *)
Lemma persistTurn_spec (W : EngineWorld) (agentConfig : AgentConfig)
    (message sessionId : string) (depth : Z) (ts ts' : TurnState)
    (r : res AgentExecution) :
  persistTurn W agentConfig message sessionId depth ts = (ts', r) →
  ∃ post,
    trace ts' = trace ts ++ post ∧ Forall isPersist post ∧
    ∀ e, r = Ok e →
      e = execution ts ∧
      AppendToConversation sessionId {| role := "user"; content := TextContent message |}
        ∈ post ∧
      ((∃ interaction, StoreInteraction interaction ∈ post) ↔
       (∃ c text, agentResponse e = Some (String c text))).
Proof.
  unfold persistTurn, mbind, M_bind, mret, M_ret, callT, getState.
  set (userTurn := {| role := "user"; content := TextContent message |}).
  assert (Hnostore : ¬ ∃ interaction,
             StoreInteraction interaction ∈ [AppendToConversation sessionId userTurn]).
  { intros [i Hin]. apply list_elem_of_singleton in Hin. discriminate Hin. }
  destruct (appendToConversation W sessionId userTurn) as [[]|e0].
  2:{ intros [= <- <-]. exists [AppendToConversation sessionId userTurn].
      simpl. split_and!; [done | by repeat constructor | by intros e Hr]. }
  simpl. destruct (agentResponse (execution ts)) as [[|c text]|] eqn:Hresp.
  - intros [= <- <-]. exists [AppendToConversation sessionId userTurn].
    simpl. split_and!; [done | by repeat constructor |].
    intros e [= <-]. split_and!; [done | by left |].
    split; [by intros H%Hnostore |]. rewrite Hresp. by intros (? & ? & ?).
  - simpl.
    destruct (appendToConversation W sessionId
                {| role := "assistant"; content := TextContent (String c text) |})
      as [[]|e1].
    2:{ intros [= <- <-]. eexists [_; _]. simpl. rewrite <- app_assoc.
        split_and!; [done | by repeat constructor | by intros e Hr]. }
    simpl.
    match goal with
    | |- context [storeInteraction W ?i] =>
        destruct (storeInteraction W i) as [[]|e2]
    end.
    2:{ intros [= <- <-]. eexists [_; _; _]. simpl. rewrite <- !app_assoc.
        split_and!; [done | by repeat constructor | by intros e Hr]. }
    intros [= <- <-]. eexists [_; _; _]. simpl. rewrite <- !app_assoc.
    split_and!; [done | by repeat constructor |].
    intros e [= <-]. split_and!; [done | by left |].
    split; [intros _; rewrite Hresp; eauto |].
    intros _. eexists. do 2 right. by left.
  - intros [= <- <-]. exists [AppendToConversation sessionId userTurn].
    simpl. split_and!; [done | by repeat constructor |].
    intros e [= <-]. split_and!; [done | by left |].
    split; [by intros H%Hnostore |]. rewrite Hresp. by intros (? & ? & ?).
Qed.

(** The statements after the loop: besides the writes, the answer stays the
    loop's, and the status is FAILED, with the iteration-limit message,
    exactly when the iteration count reached the ceiling. *)
Lemma turnFinish_spec (W : EngineWorld) (agentConfig : AgentConfig)
    (message sessionId : string) (depth : Z) (iterations : nat)
    (ts ts' : TurnState) (r : res AgentExecution) :
  turnFinish W agentConfig message sessionId depth iterations ts = (ts', r) →
  ∃ post,
    trace ts' = trace ts ++ post ∧ Forall isPersist post ∧
    ∀ e, r = Ok e →
      AppendToConversation sessionId {| role := "user"; content := TextContent message |}
        ∈ post ∧
      ((∃ interaction, StoreInteraction interaction ∈ post) ↔
       (∃ c text, agentResponse e = Some (String c text))) ∧
      agentResponse e = agentResponse (execution ts) ∧
      ((maxIterations ≤ iterations)%nat →
       execStatus e = FAILED ∧ errorMessage e = Some "Max iterations exceeded") ∧
      ((iterations < maxIterations)%nat → execStatus e = execStatus (execution ts)).
Proof.
  unfold turnFinish, mbind, M_bind, mret, M_ret, updateExecution, modifyState.
  destruct (decide (maxIterations ≤ iterations)%nat) as [Hmax | Hmax];
    intros Hrun; apply persistTurn_spec in Hrun as (post & Htr & Hall & Hret);
    exists post; (split_and!; [done | done |]);
    intros e He; destruct (Hret e He) as (-> & Happ & Hstore);
    simpl; split_and!; try done; lia.
Qed.

(** One call of [execute] below the depth ceiling, summed up: setup calls,
    then the loop's calls, then writes to the memory manager. A returned
    model call that takes the cumulative usage over the ceiling is the
    turn's last call, and the turn is aborted with the record marked
    FAILED. A returned turn has appended the user message, has written the
    episodic record exactly when it carries a non-empty answer, and an
    answer without tool request is the record's answer, with status FAILED
    when it came in the last permitted iteration. *)
Lemma execute_spec (cfg : Settings) (W : EngineWorld) (agentConfig : AgentConfig)
    (message sessionId : string) (parentId : option string) (depth : Z)
    (st st' : EngineState) (outcome : TurnOutcome) :
  depth < maxRecursionDepth cfg →
  execute cfg W agentConfig message sessionId parentId depth st = (st', outcome) →
  ∃ pre loopEvs post,
    issued st' = issued st ++ pre ++ loopEvs ++ post ∧
    Forall isSetupCall pre ∧ Forall isLoopCall loopEvs ∧ Forall isPersist post ∧
    (∀ before after k m s tl resp,
        loopEvs = before ++ InvokeModel k m s tl :: after →
        invokeModel W k m = Ok resp →
        maxTokenLimit cfg < usageIssued W (before ++ [InvokeModel k m s tl]) →
        after = [] ∧ post = [] ∧
        ∃ e,
          outcome = Aborted e
            (AgentExecutionError
               ("Agent execution failed: " +:+
                exnStr (TokenLimitExceeded
                          (usageIssued W (before ++ [InvokeModel k m s tl]))
                          (maxTokenLimit cfg)))) ∧
          execStatus e = FAILED ∧
          errorMessage e
          = Some (exnStr (TokenLimitExceeded
                            (usageIssued W (before ++ [InvokeModel k m s tl]))
                            (maxTokenLimit cfg))) ∧
          ∃ tools prompt msgs ts1 ts2,
            toolLoop cfg W tools prompt maxIterations 0 msgs 0 ts1
            = (ts2, Raise (TokenLimitExceeded
                             (usageIssued W (before ++ [InvokeModel k m s tl]))
                             (maxTokenLimit cfg)))) ∧
    (∀ e, outcome = Returned e →
        AppendToConversation sessionId {| role := "user"; content := TextContent message |}
          ∈ post ∧
        ((∃ interaction, StoreInteraction interaction ∈ post) ↔
         (∃ c text, agentResponse e = Some (String c text))) ∧
        (∀ k m s tl resp,
            InvokeModel k m s tl ∈ loopEvs →
            invokeModel W k m = Ok resp → extractToolCalls resp = [] →
            agentResponse e = Some (extractTextResponse resp) ∧
            (k = maxIterations →
             execStatus e = FAILED ∧ errorMessage e = Some "Max iterations exceeded") ∧
            ((k < maxIterations)%nat → execStatus e = COMPLETED))) ∧
    (∀ e, outcome ≠ Rejected e).
Proof.
  intros Hdepth. unfold execute.
  rewrite (proj2 (Z.leb_gt _ _)) by done.
  unfold turnBody, mbind, M_bind.
  match goal with
  | |- context [turnSetup cfg W agentConfig message sessionId ?t] =>
      set (ts0 := t); destruct (turnSetup cfg W agentConfig message sessionId ts0)
        as [ts1 rsetup] eqn:Hsetup
  end.
  destruct (turnSetup_spec _ _ _ _ _ _ _ _ Hsetup) as (pre & Hpre & Hallpre & Hex1).
  destruct rsetup as [[[tools context] history]|e].
  2:{ intros [= <- <-]. exists pre, [], []. simpl. rewrite Hpre, !app_nil_r.
      split_and!; try done.
      intros before after k m s tl resp Heq. by destruct before. }
  match goal with
  | |- context [toolLoop cfg W tools ?p maxIterations 0%nat ?msgs 0 ts1] =>
      destruct (toolLoop cfg W tools p maxIterations 0%nat msgs 0 ts1)
        as [ts2 rloop] eqn:Hloop
  end.
  destruct (toolLoop_spec _ _ _ _ _ _ _ _ _ _ _ Hloop)
    as (loopEvs & Hloopev & Hallloop & Hfinal & Hceiling).
  destruct rloop as [n|e].
  2:{ intros [= <- <-]. exists pre, loopEvs, []. simpl.
      rewrite Hloopev, Hpre, !app_nil_r, <- app_assoc.
      split_and!; try done.
      intros before after k m s tl resp Hsplit Hresp Hlim.
      destruct (Hceiling before after k m s tl resp Hsplit Hresp) as [-> Heq];
        [lia |].
      injection Heq as ->. rewrite Z.add_0_l. split_and!; try done.
      eexists. split_and!; try done.
      rewrite Z.add_0_l in Hloop. eauto 10. }
  destruct (turnFinish W agentConfig message sessionId depth n ts2)
    as [ts3 rfin] eqn:Hfin.
  destruct (turnFinish_spec _ _ _ _ _ _ _ _ _ Hfin) as (post & Hpost & Hallpost & Hret).
  assert (Hnoceil : ∀ before after k m s tl resp,
             loopEvs = before ++ InvokeModel k m s tl :: after →
             invokeModel W k m = Ok resp →
             maxTokenLimit cfg < usageIssued W (before ++ [InvokeModel k m s tl]) →
             False).
  { intros before after k m s tl resp Hsplit Hresp Hlim.
    destruct (Hceiling before after k m s tl resp Hsplit Hresp) as [_ Heq]; [lia |].
    discriminate Heq. }
  destruct rfin as [returned|e].
  2:{ intros [= <- <-]. exists pre, loopEvs, post. simpl.
      rewrite Hpost, Hloopev, Hpre, <- !app_assoc.
      split_and!; try done.
      intros before after k m s tl resp Hsplit Hresp Hlim. exfalso. by eapply Hnoceil. }
  intros [= <- <-]. exists pre, loopEvs, post. simpl.
  rewrite Hpost, Hloopev, Hpre, <- !app_assoc.
  split_and!; try done.
  - intros before after k m s tl resp Hsplit Hresp Hlim. exfalso. by eapply Hnoceil.
  - intros e' [= <-].
    destruct (Hret returned eq_refl) as (Happ & Hstore & Hresp & Hmax & Hlt).
    split_and!; try done.
    intros k m s tl resp Hin Hmodel Hnone.
    destruct (Hfinal n k m s tl resp eq_refl Hin Hmodel Hnone) as (-> & Hans & Hst).
    rewrite Hresp, Hans. split_and!; [done | |].
    + intros ->. apply Hmax. done.
    + intros Hk. rewrite Hlt by done. done.
Qed.

Lemma turnEvents_app (st st' : EngineState) (new : list Event) :
  issued st' = issued st ++ new → turnEvents st st' = new.
Proof. intros Heq. unfold turnEvents. rewrite Heq. apply drop_app_length. Qed.

Lemma setup_calls_no_model (evs : list Event) :
  Forall isSetupCall evs → Forall (λ ev, ¬ isModelCall ev) evs.
Proof.
  intros H. eapply Forall_impl; [exact H |].
  intros ev Hev Hm. destruct ev; simpl in *; done.
Qed.

Lemma persist_calls_no_model (evs : list Event) :
  Forall isPersist evs → Forall (λ ev, ¬ isModelCall ev) evs.
Proof.
  intros H. eapply Forall_impl; [exact H |].
  intros ev Hev Hm. destruct ev; simpl in *; done.
Qed.

Lemma not_model_not_elem (evs : list Event) (k : nat) (m : list Message)
    (s : string) (tl : option (list ToolDefinition)) :
  Forall (λ ev, ¬ isModelCall ev) evs → InvokeModel k m s tl ∉ evs.
Proof. intros Hall Hin. rewrite Forall_forall in Hall. by apply (Hall _ Hin). Qed.

(** The same summary, read off the calls of the turn. *)
Lemma execute_turn (cfg : Settings) (W : EngineWorld) (agentConfig : AgentConfig)
    (message sessionId : string) (parentId : option string) (depth : Z)
    (st st' : EngineState) (outcome : TurnOutcome) :
  execute cfg W agentConfig message sessionId parentId depth st = (st', outcome) →
  (∀ before after k m s tl resp,
      turnEvents st st' = before ++ InvokeModel k m s tl :: after →
      invokeModel W k m = Ok resp →
      maxTokenLimit cfg < usageIssued W (before ++ [InvokeModel k m s tl]) →
      after = [] ∧
      Forall (λ ev, ¬ isPersist ev) (turnEvents st st') ∧
      ∃ e,
        outcome = Aborted e
          (AgentExecutionError
             ("Agent execution failed: " +:+
              exnStr (TokenLimitExceeded
                        (usageIssued W (before ++ [InvokeModel k m s tl]))
                        (maxTokenLimit cfg)))) ∧
        execStatus e = FAILED ∧
        errorMessage e
        = Some (exnStr (TokenLimitExceeded
                          (usageIssued W (before ++ [InvokeModel k m s tl]))
                          (maxTokenLimit cfg))) ∧
        ∃ tools prompt msgs ts1 ts2,
          toolLoop cfg W tools prompt maxIterations 0 msgs 0 ts1
          = (ts2, Raise (TokenLimitExceeded
                           (usageIssued W (before ++ [InvokeModel k m s tl]))
                           (maxTokenLimit cfg)))) ∧
  (∀ e, outcome = Returned e →
      AppendToConversation sessionId {| role := "user"; content := TextContent message |}
        ∈ turnEvents st st' ∧
      ((∃ interaction, StoreInteraction interaction ∈ turnEvents st st') ↔
       (∃ c text, agentResponse e = Some (String c text))) ∧
      (∀ k m s tl resp,
          InvokeModel k m s tl ∈ turnEvents st st' →
          invokeModel W k m = Ok resp → extractToolCalls resp = [] →
          agentResponse e = Some (extractTextResponse resp) ∧
          (k = maxIterations →
           execStatus e = FAILED ∧ errorMessage e = Some "Max iterations exceeded") ∧
          ((k < maxIterations)%nat → execStatus e = COMPLETED))).
Proof.
  intros Hrun.
  destruct (decide (depth < maxRecursionDepth cfg)) as [Hdepth | Hdepth].
  2:{ unfold execute in Hrun. rewrite (proj2 (Z.leb_le _ _)) in Hrun by lia.
      injection Hrun as <- <-.
      assert (turnEvents st st = []) as ->.
      { apply turnEvents_app. by rewrite app_nil_r. }
      split; [| done]. intros before after k m s tl resp Heq. by destruct before. }
  destruct (execute_spec _ _ _ _ _ _ _ _ _ _ Hdepth Hrun)
    as (pre & loopEvs & post & Hevs & Hpre & Hloop & Hpost & Hceiling & Hret & _).
  apply turnEvents_app in Hevs. rewrite Hevs.
  assert (Hnostore : ∀ evs, Forall (λ ev, ¬ isPersist ev) evs →
                     ¬ ∃ interaction, StoreInteraction interaction ∈ evs).
  { intros evs Hall [i Hin]. rewrite Forall_forall in Hall. by apply (Hall _ Hin). }
  assert (Hprenp : Forall (λ ev, ¬ isPersist ev) pre).
  { eapply Forall_impl; [exact Hpre |]. intros ev Hev Hp. destruct ev; simpl in *; done. }
  assert (Hloopnp : Forall (λ ev, ¬ isPersist ev) loopEvs).
  { eapply Forall_impl; [exact Hloop |].
    intros ev [Hev | Hev] Hp; destruct ev; simpl in *; done. }
  split.
  - intros before after k m s tl resp Hsplit Hresp Hlim.
    symmetry in Hsplit. apply app_cons_split in Hsplit as (l & -> & Hsplit);
      [| by apply not_model_not_elem, setup_calls_no_model].
    symmetry in Hsplit. apply app_cons_split_r in Hsplit as (l' & -> & ->);
      [| by apply not_model_not_elem, persist_calls_no_model].
    assert (Husage : usageIssued W ((pre ++ l) ++ [InvokeModel k m s tl])
                     = usageIssued W (l ++ [InvokeModel k m s tl])).
    { rewrite <- app_assoc, usageIssued_app.
      rewrite (usageIssued_no_model W pre) by by apply setup_calls_no_model. lia. }
    rewrite Husage in *.
    destruct (Hceiling l l' k m s tl resp eq_refl Hresp Hlim) as (-> & -> & Hout).
    split_and!; [done | | done].
    apply Forall_app. split; [done |].
    apply Forall_app. split; [done | constructor].
  - intros e He. destruct (Hret e He) as (Happ & Hstore & Hfinal).
    split_and!.
    + rewrite !elem_of_app. by do 2 right.
    + rewrite <- Hstore. split.
      * intros [i Hin]. exists i.
        apply elem_of_app in Hin as [Hin | Hin];
          [exfalso; apply (Hnostore pre Hprenp); eauto |].
        apply elem_of_app in Hin as [Hin | Hin];
          [exfalso; apply (Hnostore loopEvs Hloopnp); eauto | done].
      * intros [i Hin]. exists i. rewrite !elem_of_app. by do 2 right.
    + intros k m s tl resp Hin. apply (Hfinal k m s tl resp).
      apply elem_of_app in Hin as [Hin | Hin].
      { exfalso. revert Hin. by apply not_model_not_elem, setup_calls_no_model. }
      apply elem_of_app in Hin as [Hin | Hin]; [done |].
      exfalso. revert Hin. by apply not_model_not_elem, persist_calls_no_model.
Qed.

(** C8. A call of [execute] with [depth >= maxRecursionDepth] ends at once
    with [RecursionDepthExceeded]: no collaborator is called (no model
    call, no tool call, no memory read or write), [_activeExecutions] is
    as before, and no execution record exists. *)
Theorem execute_rejects_at_depth_ceiling (cfg : Settings) (W : EngineWorld)
    (agentConfig : AgentConfig) (message sessionId : string)
    (parentId : option string) (depth : Z) (st : EngineState) :
  maxRecursionDepth cfg ≤ depth →
  execute cfg W agentConfig message sessionId parentId depth st
  = (st, Rejected (RecursionDepthExceeded depth (maxRecursionDepth cfg))) ∧
  turnEvents st (execute cfg W agentConfig message sessionId parentId depth st).1 = [].
Proof.
  intros Hdepth. unfold execute. rewrite (proj2 (Z.leb_le _ _)) by done.
  split; [done |]. simpl. apply turnEvents_app. by rewrite app_nil_r.
Qed.

Lemma execute_rejects_at_depth_ceiling_witness :
  execute defaultSettings (scriptedWorld answersAtOnce) sampleAgent "hi" "s" None 5
          idleEngine
  = (idleEngine, Rejected (RecursionDepthExceeded 5 5)).
Proof.
  apply (execute_rejects_at_depth_ceiling defaultSettings (scriptedWorld answersAtOnce)
           sampleAgent "hi" "s" None 5 idleEngine).
  simpl. lia.
Defined.

(** C7. In a turn, a model call that returns with the cumulative token
    usage over the configured ceiling is the turn's last collaborator call:
    the loop raises [TokenLimitExceeded], the execution record is marked
    FAILED with that exception's message, and the caller is raised
    [AgentExecutionError] wrapping it. *)
Theorem token_ceiling_aborts_turn (cfg : Settings) (W : EngineWorld)
    (agentConfig : AgentConfig) (message sessionId : string)
    (parentId : option string) (depth : Z) (st st' : EngineState)
    (outcome : TurnOutcome) (before after : list Event) (k : nat)
    (m : list Message) (s : string) (tl : option (list ToolDefinition))
    (resp : Response) :
  execute cfg W agentConfig message sessionId parentId depth st = (st', outcome) →
  turnEvents st st' = before ++ InvokeModel k m s tl :: after →
  invokeModel W k m = Ok resp →
  maxTokenLimit cfg < usageIssued W (before ++ [InvokeModel k m s tl]) →
  after = [] ∧
  ∃ e used,
    used = usageIssued W (before ++ [InvokeModel k m s tl]) ∧
    (∃ tools prompt msgs ts1 ts2,
        toolLoop cfg W tools prompt maxIterations 0 msgs 0 ts1
        = (ts2, Raise (TokenLimitExceeded used (maxTokenLimit cfg)))) ∧
    outcome = Aborted e
      (AgentExecutionError
         ("Agent execution failed: " +:+
          exnStr (TokenLimitExceeded used (maxTokenLimit cfg)))) ∧
    execStatus e = FAILED ∧
    errorMessage e = Some (exnStr (TokenLimitExceeded used (maxTokenLimit cfg))).
Proof.
  intros Hrun Hsplit Hresp Hlim.
  destruct (execute_turn _ _ _ _ _ _ _ _ _ _ Hrun) as [Hceiling _].
  destruct (Hceiling before after k m s tl resp Hsplit Hresp Hlim)
    as (-> & _ & e & Hout & Hst & Hmsg & Hloop).
  split; [done |]. exists e, (usageIssued W (before ++ [InvokeModel k m s tl])).
  by split_and!.
Qed.

Lemma token_ceiling_aborts_turn_witness :
  ∃ e,
    (execute defaultSettings (scriptedWorld overCeilingInSecond) sampleAgent "hi" "s"
             None 0 idleEngine).2
    = Aborted e
        (AgentExecutionError "Agent execution failed: Token limit exceeded: 120000/100000") ∧
    execStatus e = FAILED.
Proof.
  pose (run := execute defaultSettings (scriptedWorld overCeilingInSecond) sampleAgent
                       "hi" "s" None 0 idleEngine).
  pose (evs := turnEvents idleEngine run.1).
  destruct (token_ceiling_aborts_turn defaultSettings (scriptedWorld overCeilingInSecond)
              sampleAgent "hi" "s" None 0 idleEngine run.1 run.2
              (take 7 evs) []
              2%nat
              [ {| role := "user"; content := TextContent "hi" |};
                {| role := "assistant";
                   content := BlocksContent [ToolUseBlock "tu-1" "lookup" "{}"] |};
                {| role := "user";
                   content := ToolResultContent "tu-1"
                                (jsonErrorDict "Tool lookup not found") |} ]
              (buildSystemPrompt sampleAgent
                 {| working := ""; episodic := [];
                    semantic := [ {| memId := "m1"; memContent := "abcdefgh" |} ];
                    procedural := []; totalTokens := 2 |})
              None (textResponse "too late" 60000))
    as (_ & e & used & Hused & _ & Hout & Hst & _).
  - apply surjective_pairing.
  - vm_compute. reflexivity.
  - reflexivity.
  - vm_compute. reflexivity.
  - exists e. split; [| done]. unfold run in Hout. rewrite Hout, Hused.
    vm_compute. reflexivity.
Defined.

(** C10. When a turn returns and its model call of iteration [k] came back
    without any tool request, the record carries that answer's text; if
    [k] is the last permitted iteration (the 10th), the record's status is
    FAILED and its error message is "Max iterations exceeded"; if [k] is an
    earlier iteration the status is COMPLETED. *)
Theorem final_answer_on_last_iteration_is_failed (cfg : Settings) (W : EngineWorld)
    (agentConfig : AgentConfig) (message sessionId : string)
    (parentId : option string) (depth : Z) (st st' : EngineState)
    (e : AgentExecution) (k : nat) (m : list Message) (s : string)
    (tl : option (list ToolDefinition)) (resp : Response) :
  execute cfg W agentConfig message sessionId parentId depth st = (st', Returned e) →
  InvokeModel k m s tl ∈ turnEvents st st' →
  invokeModel W k m = Ok resp →
  extractToolCalls resp = [] →
  maxIterations = 10%nat ∧
  agentResponse e = Some (extractTextResponse resp) ∧
  (k = maxIterations →
   execStatus e = FAILED ∧ errorMessage e = Some "Max iterations exceeded") ∧
  ((k < maxIterations)%nat → execStatus e = COMPLETED).
Proof.
  intros Hrun Hin Hresp Hnone.
  destruct (execute_turn _ _ _ _ _ _ _ _ _ _ Hrun) as [_ Hret].
  destruct (Hret e eq_refl) as (_ & _ & Hfinal).
  split; [done |]. by apply (Hfinal k m s tl resp).
Qed.

Lemma final_answer_on_last_iteration_is_failed_witness :
  ∃ e,
    (execute defaultSettings (scriptedWorld answerOnLastIteration) sampleAgent "hi" "s"
             None 0 idleEngine).2 = Returned e ∧
    execStatus e = FAILED ∧
    errorMessage e = Some "Max iterations exceeded" ∧
    agentResponse e = Some "final answer".
Proof.
  remember (execute defaultSettings (scriptedWorld answerOnLastIteration) sampleAgent
                    "hi" "s" None 0 idleEngine) as run eqn:Hrun.
  destruct run as [st' out]. simpl.
  assert (Hout : out = (execute defaultSettings (scriptedWorld answerOnLastIteration)
                                sampleAgent "hi" "s" None 0 idleEngine).2)
    by (by rewrite <- Hrun).
  assert (Hst : st' = (execute defaultSettings (scriptedWorld answerOnLastIteration)
                               sampleAgent "hi" "s" None 0 idleEngine).1)
    by (by rewrite <- Hrun).
  destruct out as [e | |]; try (vm_compute in Hout; discriminate Hout).
  exists e. split; [done |].
  destruct (turnEvents idleEngine st' !! 15%nat) as [ev|] eqn:Hev;
    [| rewrite Hst in Hev; vm_compute in Hev; discriminate Hev].
  destruct ev as [| | | k m s tl | | |];
    try (rewrite Hst in Hev; vm_compute in Hev; discriminate Hev).
  assert (k = maxIterations) as Hk.
  { rewrite Hst in Hev. vm_compute in Hev. by injection Hev. }
  destruct (final_answer_on_last_iteration_is_failed defaultSettings
              (scriptedWorld answerOnLastIteration) sampleAgent "hi" "s" None 0
              idleEngine st' e k m s tl (textResponse "final answer" 100))
    as (_ & Hans & Hfail & _).
  - by symmetry.
  - apply list_elem_of_lookup. eauto.
  - rewrite Hk. reflexivity.
  - reflexivity.
  - destruct (Hfail Hk) as [Hstatus Hmsg]. by split_and!.
Defined.




(** ** The executor *)

Section ExecutorProperties.

Variable exec : TaskDecomposition → res ResultEntry.
Variable maxParallel : Z.

Lemma recordParallel_fold (tasks : list TaskDecomposition) (st : ExecutorState) :
  schedule (foldl recordParallel st (zip tasks (exec <$> tasks))) = schedule st ∧
  (∀ tid, tid ∉ (taskId <$> tasks) →
     results (foldl recordParallel st (zip tasks (exec <$> tasks))) !! tid
     = results st !! tid) ∧
  (NoDup (taskId <$> tasks) →
   ∀ task, task ∈ tasks →
     results (foldl recordParallel st (zip tasks (exec <$> tasks))) !! taskId task
     = Some (gatheredEntry exec task)).
Proof.
  revert st. induction tasks as [|t tasks IH]; intros st.
  - simpl. split_and!; [done | done |]. intros _ task Hin. by apply elem_of_nil in Hin.
  - rewrite !fmap_cons. cbn [zip zip_with foldl].
    destruct (IH (recordParallel st (t, exec t))) as (Hsched & Hother & Hin).
    assert (Hstep : ∀ tid, results (recordParallel st (t, exec t)) !! tid
                           = if decide (taskId t = tid)
                             then Some (gatheredEntry exec t)
                             else results st !! tid).
    { intros tid. unfold recordParallel, gatheredEntry.
      destruct (exec t); simpl; apply lookup_insert. }
    split_and!.
    + rewrite Hsched. unfold recordParallel. by destruct (exec t).
    + intros tid Hnot. apply not_elem_of_cons in Hnot as [Hne Hnot].
      rewrite Hother by done. rewrite Hstep. by rewrite decide_False.
    + intros Hnd task Htask. apply NoDup_cons in Hnd as [Hfresh Hnd].
      apply elem_of_cons in Htask as [-> | Htask].
      * rewrite Hother by done. rewrite Hstep. by rewrite decide_True.
      * by apply Hin.
Qed.

(** A sequential task that raises ends the executor: the exception leaves
    it, the task has no entry of its own making in the results, and no
    later task of the plan is started. *)
Lemma runSequential_raises (done : list TaskDecomposition)
    (task : TaskDecomposition) (rest : list TaskDecomposition)
    (e : Exn) (st : ExecutorState) :
  Forall (λ t, ∃ r, exec t = Ok r) done →
  exec task = Raise e →
  ∃ st',
    runSequential exec (done ++ task :: rest) st = (st', Propagated e) ∧
    schedule st' = schedule st ++ (Awaited ∘ taskId <$> done) ++ [Awaited (taskId task)].
Proof.
  intros Hdone Hraise. revert st.
  induction Hdone as [|t done [r Hr] _ IH]; intros st; simpl.
  - rewrite Hraise. eexists. split; [done |]. done.
  - rewrite Hr. destruct (IH {| results := <[taskId t := r]> (results st);
                                schedule := schedule st ++ [Awaited (taskId t)];
                                written := written st
                                           ++ [withOutcome t COMPLETED (Some r)] |})
      as (st' & Hrun & Hsched).
    exists st'. split; [done |]. rewrite Hsched. simpl. by rewrite <- app_assoc.
Qed.

(** When no sequential task raises, they are awaited one after the other
    in plan order, each recorded before the next is started. *)
Lemma runSequential_completes (tasks : list TaskDecomposition) (st : ExecutorState) :
  Forall (λ t, ∃ r, exec t = Ok r) tasks →
  ∃ st',
    runSequential exec tasks st = (st', Completed) ∧
    schedule st' = schedule st ++ (Awaited ∘ taskId <$> tasks).
Proof.
  intros Hall. revert st.
  induction Hall as [|t tasks [r Hr] _ IH]; intros st; simpl.
  - exists st. by rewrite app_nil_r.
  - rewrite Hr. destruct (IH {| results := <[taskId t := r]> (results st);
                                schedule := schedule st ++ [Awaited (taskId t)];
                                written := written st
                                           ++ [withOutcome t COMPLETED (Some r)] |})
      as (st' & Hrun & Hsched).
    exists st'. split; [done |]. rewrite Hsched. simpl. by rewrite <- app_assoc.
Qed.

(** X6. When no sequential task raises and the parallelism ceiling is
    positive, the run completes, and its order is: the sequential bucket
    first, task by task, then the parallel bucket in one gather under a
    semaphore of [min(len(bucket), ceiling)] permits. *)
Lemma executeParallelTasksWith_schedule (plan : ExecutionPlan) :
  1 ≤ maxParallel →
  Forall (λ t, ∃ r, exec t = Ok r) (sequential plan) →
  ∃ st',
    executeParallelTasksWith exec maxParallel plan = (st', Completed) ∧
    schedule st'
    = (Awaited ∘ taskId <$> sequential plan)
      ++ match parallel plan with
         | [] => []
         | batch => [Gathered (taskId <$> batch)
                              (Z.of_nat (length batch) `min` maxParallel)]
         end.
Proof.
  intros Hmax Hseq. unfold executeParallelTasksWith.
  destruct (runSequential_completes (sequential plan)
              {| results := ∅; schedule := []; written := [] |} Hseq)
    as (st1 & Hrun & Hsched).
  rewrite Hrun. simpl in Hsched. unfold runParallel.
  destruct (parallel plan) as [|t batch] eqn:Hpar.
  { exists st1. by rewrite app_nil_r. }
  set (limit := Z.of_nat (length (t :: batch)) `min` maxParallel).
  assert (1 ≤ limit) as Hlimit by (unfold limit; simpl length; lia).
  rewrite (proj2 (Z.ltb_ge _ _)) by lia.
  rewrite (proj2 (Z.eqb_neq _ _)) by lia.
  eexists. split; [done |].
  match goal with
  | |- schedule (foldl recordParallel ?s (zip ?ts (exec <$> ?ts))) = _ =>
      destruct (recordParallel_fold ts s) as (-> & _ & _)
  end.
  simpl. by rewrite Hsched.
Qed.

End ExecutorProperties.

(** C4. In a parallel wave, under a positive parallelism ceiling and with
    distinct task ids, the gather completes whatever the tasks do, and the
    results mapping holds an entry under every task's id: the task's result,
    or, when the task raised, the error entry [{"error": str(exception)}].
    A task that raises changes no sibling's entry. *)
Theorem parallel_wave_isolates_failures (exec : TaskDecomposition → res ResultEntry)
    (maxParallel : Z) (tasks : list TaskDecomposition) (st : ExecutorState) :
  1 ≤ maxParallel →
  NoDup (taskId <$> tasks) →
  ∃ st',
    runParallel exec maxParallel tasks st = (st', Completed) ∧
    (∀ task, task ∈ tasks →
       results st' !! taskId task = Some (gatheredEntry exec task)) ∧
    (∀ task e, task ∈ tasks → exec task = Raise e →
       results st' !! taskId task = Some (ErrorResult (exnStr e))) ∧
    (∀ task r, task ∈ tasks → exec task = Ok r →
       results st' !! taskId task = Some r).
Proof.
  intros Hmax Hnd. unfold runParallel.
  destruct tasks as [|t batch] eqn:Htasks.
  { exists st. split_and!; [done | | |]; intros task; intros; by apply elem_of_nil in H. }
  rewrite <- Htasks in *.
  set (limit := Z.of_nat (length tasks) `min` maxParallel).
  assert (1 ≤ limit) as Hlimit by (unfold limit; rewrite Htasks; simpl length; lia).
  rewrite (proj2 (Z.ltb_ge _ _)) by lia.
  rewrite (proj2 (Z.eqb_neq _ _)) by lia.
  eexists. split; [done |].
  match goal with
  | |- context [foldl recordParallel ?s _] =>
      destruct (recordParallel_fold exec tasks s) as (_ & _ & Hin)
  end.
  specialize (Hin Hnd).
  split_and!.
  - done.
  - intros task e Htask Hraise. rewrite Hin by done.
    unfold gatheredEntry. by rewrite Hraise.
  - intros task r Htask Hok. rewrite Hin by done.
    unfold gatheredEntry. by rewrite Hok.
Qed.

Lemma parallel_wave_isolates_failures_witness :
  ∃ st',
    runParallel (executeTask defaultSettings
                   (sampleOrchestratorWorld firstTaskOverCeiling) "s")
                10 (parallel twoParallelTasks)
                {| results := ∅; schedule := []; written := [] |}
    = (st', Completed) ∧
    results st' !! "T1"
    = Some (ErrorResult "Agent execution failed: Token limit exceeded: 100001/100000") ∧
    results st' !! "T2" = Some (TaskResult (Some "done") [] "completed").
Proof.
  destruct (parallel_wave_isolates_failures
              (executeTask defaultSettings
                 (sampleOrchestratorWorld firstTaskOverCeiling) "s")
              10 (parallel twoParallelTasks)
              {| results := ∅; schedule := []; written := [] |})
    as (st' & Hrun & Hall & _).
  - lia.
  - simpl. repeat constructor; set_solver.
  - exists st'. split; [done |]. split.
    + apply (Hall (mkTask "T1" [])). by left.
    + apply (Hall (mkTask "T2" [])). right. by left.
Defined.

(** X7. A sequential task that raises halts the plan, whatever the task
    runner: the exception leaves [_executeParallelTasks], the tasks before
    it have been awaited in order, and neither the later sequential tasks
    nor the parallel bucket are started. *)
Lemma sequential_failure_halts_plan (exec : TaskDecomposition → res ResultEntry)
    (maxParallel : Z) (plan : ExecutionPlan)
    (done : list TaskDecomposition) (task : TaskDecomposition)
    (rest : list TaskDecomposition) (e : Exn) :
  sequential plan = done ++ task :: rest →
  Forall (λ t, ∃ r, exec t = Ok r) done →
  exec task = Raise e →
  ∃ st',
    executeParallelTasksWith exec maxParallel plan = (st', Propagated e) ∧
    schedule st' = (Awaited ∘ taskId <$> done) ++ [Awaited (taskId task)].
Proof.
  intros Hseq Hdone Hraise. unfold executeParallelTasksWith. rewrite Hseq.
  destruct (runSequential_raises exec done task rest e
              {| results := ∅; schedule := []; written := [] |} Hdone Hraise)
    as (st' & Hrun & Hsched).
  rewrite Hrun. exists st'. by split.
Qed.

(** C3, on the code. Two sequential tasks, the first of which ends its turn
    over the token ceiling: the engine raises [AgentExecutionError], the
    sequential loop has no handler, and the exception leaves
    [_executeParallelTasks]. Nothing is recorded for T1 and T2 is never
    started. *)
Lemma sequential_failure_propagates :
  executeParallelTasks defaultSettings (sampleOrchestratorWorld firstTaskOverCeiling)
                       "s" twoSequentialTasks
  = ({| results := ∅; schedule := [Awaited "T1"]; written := [] |},
     Propagated
       (AgentExecutionError
          "Agent execution failed: Token limit exceeded: 100001/100000")).
Proof. vm_compute. reflexivity. Qed.

(** The same two tasks in the parallel bucket: the failure of T1 is
    recorded as its entry and T2's result is recorded. *)
Lemma parallel_failure_recorded :
  let run := executeParallelTasks defaultSettings
               (sampleOrchestratorWorld firstTaskOverCeiling) "s" twoParallelTasks in
  run.2 = Completed ∧
  results run.1 !! "T1"
  = Some (ErrorResult "Agent execution failed: Token limit exceeded: 100001/100000") ∧
  results run.1 !! "T2" = Some (TaskResult (Some "done") [] "completed").
Proof. vm_compute. by split_and!. Qed.

(** C2, on the code. The plan built for the scenario (A and B independent,
    C after both) is executed with C first: C is awaited to completion
    before the gather that runs A and B is created. *)
Lemma dependent_task_runs_before_its_dependencies :
  buildExecutionPlan elements scenarioTasks
  = Some (Ok {| sequential := [taskC]; parallel := [taskA; taskB] |}) ∧
  dependencies taskC = ["A"; "B"] ∧
  let run := executeParallelTasks defaultSettings
               (sampleOrchestratorWorld (λ _, answersAtOnce)) "s"
               {| sequential := [taskC]; parallel := [taskA; taskB] |} in
  run.2 = Completed ∧
  schedule run.1 = [Awaited "C"; Gathered ["A"; "B"] 2] ∧
  schedulePosition "C" (schedule run.1) = Some 0%nat ∧
  schedulePosition "A" (schedule run.1) = Some 1%nat ∧
  schedulePosition "B" (schedule run.1) = Some 1%nat.
Proof. vm_compute. by split_and!. Qed.

(** With three waves (A and B; C; D and E after C), the tasks of the third
    wave are gathered together with those of the first, after C. *)
Lemma later_wave_gathered_with_earlier :
  match buildExecutionPlan elements threeWaveTasks with
  | Some (Ok plan) =>
      let run := executeParallelTasks defaultSettings
                   (sampleOrchestratorWorld (λ _, answersAtOnce)) "s" plan in
      run.2 = Completed ∧
      schedule run.1 = [Awaited "C"; Gathered ["A"; "B"; "E"; "D"] 4]
  | _ => False
  end.
Proof. vm_compute. by split_and!. Qed.

(** * Further properties *)

(** ** More on the planner *)

Lemma planOfWaves_perm (waves : list (list TaskDecomposition)) :
  planTasks (planOfWaves waves) ≡ₚ mjoin waves.
Proof.
  unfold planTasks. destruct (planOfWaves_buckets waves) as [-> ->].
  induction waves as [|wave waves IH]; [done |].
  destruct (decide (1 < length wave)%nat) as [Hl | Hl].
  - rewrite (filter_cons_True (λ w : list TaskDecomposition, (1 < length w)%nat)) by exact Hl.
    rewrite (filter_cons_False (λ w : list TaskDecomposition, ¬ (1 < length w)%nat))
      by (intros H; apply H, Hl).
    simpl. rewrite <- IH. rewrite !app_assoc. apply Permutation_app_tail.
    apply Permutation_app_comm.
  - rewrite (filter_cons_False (λ w : list TaskDecomposition, (1 < length w)%nat)) by exact Hl.
    rewrite (filter_cons_True (λ w : list TaskDecomposition, ¬ (1 < length w)%nat)) by exact Hl.
    simpl. rewrite <- IH. by rewrite app_assoc.
Qed.

Lemma buildTaskMap_snoc (tasks : list TaskDecomposition) (task : TaskDecomposition) :
  buildTaskMap (tasks ++ [task]) = <[taskId task := task]> (buildTaskMap tasks).
Proof. unfold buildTaskMap. by rewrite foldl_app. Qed.

(** The map holds, under each id, the last task of the list with that id. *)
Lemma buildTaskMap_last (tasks : list TaskDecomposition) (k : string) :
  buildTaskMap tasks !! k = last (filter (λ t, taskId t = k) tasks).
Proof.
  induction tasks as [|task tasks IH] using rev_ind; [done |].
  rewrite buildTaskMap_snoc, filter_app.
  destruct (decide (taskId task = k)) as [Heq | Hne].
  - rewrite Heq, lookup_insert_eq.
    rewrite (filter_cons_True (λ t, taskId t = k)) by exact Heq.
    rewrite filter_nil. by rewrite last_snoc.
  - rewrite lookup_insert_ne by done.
    rewrite (filter_cons_False (λ t, taskId t = k)) by exact Hne.
    rewrite filter_nil, app_nil_r. done.
Qed.

Lemma buildTaskMap_key (tasks : list TaskDecomposition) (k : string)
    (t : TaskDecomposition) :
  buildTaskMap tasks !! k = Some t → taskId t = k.
Proof. intros Hl. by apply buildTaskMap_lookup in Hl as [? _]. Qed.

Lemma depsCompleted_false (completed : gset string) (t : TaskDecomposition) :
  depsCompleted completed t = false →
  ∃ dep, dep ∈ dependencies t ∧ dep ∉ completed.
Proof.
  unfold depsCompleted. induction (dependencies t) as [|dep deps IH]; simpl; [done |].
  destruct (bool_decide (dep ∈ completed)) eqn:Hdep; simpl.
  - intros (d & Hd & Hn)%IH. exists d. split; [by right | done].
  - intros _. exists dep. split; [by left |]. by apply bool_decide_eq_false in Hdep.
Qed.

(** What the [while] loop has established when it is left, for any task
    list. *)
Lemma buildWaves_inv (order : gset string → list string)
    (tasks : list TaskDecomposition) :
  (∀ s, order s ≡ₚ elements s) →
  ∃ waves completed remaining,
    buildWaves order tasks = Some (Ok waves) ∧
    LoopInv (buildTaskMap tasks) completed remaining waves ∧
    (remaining = ∅ ∨ readyTasks (buildTaskMap tasks) completed (order remaining) = []).
Proof.
  intros Horder.
  destruct (layerWaves_spec order (buildTaskMap tasks)
              (size (list_to_set (taskId <$> tasks) : gset string)) Horder
              (buildTaskMap_key tasks)
              ∅ (list_to_set (taskId <$> tasks)) [] (LoopInv_init tasks))
    as (waves & completed & remaining & Hrun & Hinv & Hstop); [lia |].
  exists waves, completed, remaining. by split_and!.
Qed.

(** A task is in one wave only. *)
Lemma waves_disjoint (waves : list (list TaskDecomposition)) (i j : nat)
    (wave wave' : list TaskDecomposition) (t : TaskDecomposition) :
  NoDup (mjoin waves) → (j < i)%nat →
  waves !! i = Some wave → waves !! j = Some wave' →
  t ∈ wave → t ∈ wave' → False.
Proof.
  intros Hnd Hlt Hi Hj Ht Ht'.
  rewrite <- (take_drop_middle waves j wave' Hj) in Hnd, Hi.
  rewrite join_app in Hnd. simpl in Hnd.
  apply NoDup_app in Hnd as (_ & _ & Hnd).
  apply NoDup_app in Hnd as (_ & Hdis & _).
  apply (Hdis t Ht').
  apply list_elem_of_join. exists wave. split; [done |].
  assert (length (take j waves) = j) as Hlen.
  { apply length_take_le. apply lookup_lt_Some in Hj. lia. }
  rewrite lookup_app_r in Hi by lia. rewrite Hlen in Hi.
  destruct (i - j)%nat as [|n] eqn:E; [lia |].
  simpl in Hi. by eapply list_elem_of_lookup_2.
Qed.

(** The planned tasks, summed up: what the plan holds is what the waves
    hold; ids are not repeated; each planned task is the one the map holds
    for its id; each of its dependencies is the id of another planned task;
    and a task the map holds that is left out has a dependency that is not
    the id of a planned task. *)
Lemma plan_summary (order : gset string → list string)
    (tasks : list TaskDecomposition) :
  (∀ s, order s ≡ₚ elements s) →
  ∃ plan,
    buildExecutionPlan order tasks = Some (Ok plan) ∧
    NoDup (taskId <$> planTasks plan) ∧
    (∀ t, t ∈ planTasks plan → buildTaskMap tasks !! taskId t = Some t) ∧
    (∀ t dep, t ∈ planTasks plan → dep ∈ dependencies t →
       dep ≠ taskId t ∧ ∃ t', t' ∈ planTasks plan ∧ taskId t' = dep) ∧
    (∀ t, buildTaskMap tasks !! taskId t = Some t → t ∉ planTasks plan →
       ∃ dep, dep ∈ dependencies t ∧ dep ∉ (taskId <$> planTasks plan)).
Proof.
  intros Horder.
  destruct (buildWaves_inv order tasks Horder)
    as (waves & completed & remaining & Hrun & Hinv & Hstop).
  exists (planOfWaves waves). unfold buildExecutionPlan. rewrite Hrun.
  pose proof (planOfWaves_perm waves) as Hperm.
  destruct Hinv as [Hc Hdis Hcov Hord Hk Hnd Hne].
  split_and!; [done | by rewrite Hperm | | |].
  - intros t Ht. rewrite Hperm in Ht. by apply Hk.
  - intros t dep Ht Hdep. rewrite Hperm in Ht.
    apply list_elem_of_join in Ht as (wave & Htw & Hw).
    apply list_elem_of_lookup in Hw as [i Hi].
    destruct (Hord i wave t dep Hi Htw Hdep) as (j & wave' & t' & Hlt & Hj & Ht' & Hid).
    split.
    + intros Heq.
      assert (t' = t) as ->.
      { assert (t ∈ mjoin waves) as H1
          by (apply list_elem_of_join; exists wave; split;
              [done | by eapply list_elem_of_lookup_2]).
        assert (t' ∈ mjoin waves) as H2
          by (apply list_elem_of_join; exists wave'; split;
              [done | by eapply list_elem_of_lookup_2]).
        apply Hk in H1. apply Hk in H2. rewrite Hid, Heq in H2. congruence. }
      apply (waves_disjoint waves i j wave wave' t); try done.
      by eapply NoDup_fmap_1.
    + exists t'. split; [| done]. rewrite Hperm.
      apply list_elem_of_join. exists wave'. split; [done |].
      by eapply list_elem_of_lookup_2.
  - intros t Hmap Hnot.
    assert (taskId t ∉ completed) as Hnc.
    { rewrite Hc. intros Hin. apply elem_of_list_to_set, list_elem_of_fmap in Hin
        as (t' & Hid & Ht').
      apply Hnot. rewrite Hperm.
      pose proof (Hk _ Ht') as Hl. rewrite <- Hid in Hl.
      rewrite Hmap in Hl. injection Hl as ->. done. }
    assert (taskId t ∈ remaining) as Hrem.
    { assert (taskId t ∈ dom (buildTaskMap tasks)) as Hd by (by apply elem_of_dom).
      rewrite <- Hcov in Hd. set_solver. }
    destruct Hstop as [-> | Hstuck]; [set_solver |].
    destruct (depsCompleted completed t) eqn:Hready.
    { exfalso.
      assert (t ∈ readyTasks (buildTaskMap tasks) completed (order remaining)) as Hin.
      { apply readyTasks_elem. exists (taskId t). split_and!; try done.
        rewrite Horder. by apply elem_of_elements. }
      rewrite Hstuck in Hin. by apply elem_of_nil in Hin. }
    apply depsCompleted_false in Hready as (dep & Hdep & Hnotin).
    exists dep. split; [done |]. rewrite Hperm. intros Hin. apply Hnotin.
    rewrite Hc. by apply elem_of_list_to_set.
Qed.

(** X1. Whatever the task list, the plan never holds two tasks with the
    same id, and a planned task is the last task of the list that carries
    its id: of several tasks sharing an id, only the last can be planned. *)
Theorem plan_holds_each_id_once (order : gset string → list string)
    (tasks : list TaskDecomposition) :
  (∀ s, order s ≡ₚ elements s) →
  ∃ plan,
    buildExecutionPlan order tasks = Some (Ok plan) ∧
    NoDup (taskId <$> planTasks plan) ∧
    (∀ t, t ∈ planTasks plan → t ∈ tasks ∧ lastOfItsId tasks t).
Proof.
  intros Horder.
  destruct (plan_summary order tasks Horder) as (plan & Hrun & Hnd & Hkey & _ & _).
  exists plan. split_and!; [done | done |].
  intros t Ht. specialize (Hkey t Ht). split.
  - by apply buildTaskMap_lookup in Hkey as [_ ?].
  - unfold lastOfItsId. by rewrite <- buildTaskMap_last.
Qed.

Lemma plan_holds_each_id_once_witness :
  ∃ plan,
    buildExecutionPlan elements [mkTask "A" ["B"]; mkTask "B" []; mkTask "A" []]
    = Some (Ok plan) ∧
    NoDup (taskId <$> planTasks plan) ∧
    (∀ t, t ∈ planTasks plan →
       t ∈ [mkTask "A" ["B"]; mkTask "B" []; mkTask "A" []] ∧
       lastOfItsId [mkTask "A" ["B"]; mkTask "B" []; mkTask "A" []] t).
Proof.
  apply (plan_holds_each_id_once elements
           [mkTask "A" ["B"]; mkTask "B" []; mkTask "A" []]).
  intros s. reflexivity.
Defined.

(** X2. The planned tasks are closed under dependencies and never depend
    on themselves: each dependency of a planned task is the id of another
    planned task. Conversely a task (the last of its id) is left out of
    the plan only when one of its dependencies is not the id of any
    planned task. So a task that names an id no task carries, or its own
    id, is in neither bucket, and nothing is raised for it. *)
Theorem plan_is_dependency_closed (order : gset string → list string)
    (tasks : list TaskDecomposition) :
  (∀ s, order s ≡ₚ elements s) →
  ∃ plan,
    buildExecutionPlan order tasks = Some (Ok plan) ∧
    (∀ t dep, t ∈ planTasks plan → dep ∈ dependencies t →
       dep ≠ taskId t ∧ ∃ t', t' ∈ planTasks plan ∧ t' ∈ tasks ∧ taskId t' = dep) ∧
    (∀ t, t ∈ tasks → lastOfItsId tasks t → t ∉ planTasks plan →
       ∃ dep, dep ∈ dependencies t ∧ dep ∉ (taskId <$> planTasks plan)) ∧
    (∀ t dep, t ∈ tasks → dep ∈ dependencies t →
       dep ∉ (taskId <$> tasks) ∨ dep = taskId t → t ∉ planTasks plan).
Proof.
  intros Horder.
  destruct (plan_summary order tasks Horder)
    as (plan & Hrun & Hnd & Hkey & Hclosed & Hleft).
  exists plan. split_and!; [done | | |].
  - intros t dep Ht Hdep. destruct (Hclosed t dep Ht Hdep) as (Hne & t' & Ht' & Hid).
    split; [done |]. exists t'. split_and!; try done.
    by apply Hkey, buildTaskMap_lookup in Ht' as [_ ?].
  - intros t _ Hlast Hnot. apply Hleft; [| done].
    unfold lastOfItsId in Hlast. by rewrite buildTaskMap_last.
  - intros t dep _ Hdep Hbad Ht.
    destruct (Hclosed t dep Ht Hdep) as (Hne & t' & Ht' & Hid).
    destruct Hbad as [Hunknown | Hself]; [| done].
    apply Hunknown. rewrite <- Hid. apply list_elem_of_fmap_2.
    by apply Hkey, buildTaskMap_lookup in Ht' as [_ ?].
Qed.

Lemma plan_is_dependency_closed_witness :
  ∃ plan,
    buildExecutionPlan elements [mkTask "A" []; mkTask "B" ["A"; "ghost"]]
    = Some (Ok plan) ∧
    mkTask "B" ["A"; "ghost"] ∉ planTasks plan.
Proof.
  destruct (plan_is_dependency_closed elements
              [mkTask "A" []; mkTask "B" ["A"; "ghost"]])
    as (plan & Hrun & _ & _ & Hout).
  - intros s. reflexivity.
  - exists plan. split; [exact Hrun |].
    apply (Hout (mkTask "B" ["A"; "ghost"]) "ghost").
    + right. left.
    + right. left.
    + left. vm_compute. intros Hin.
      apply elem_of_cons in Hin as [Hin | Hin]; [discriminate Hin |].
      apply elem_of_cons in Hin as [Hin | Hin]; [discriminate Hin |].
      by apply elem_of_nil in Hin.
Defined.

(** A pass that finds no ready task ends the loop with the waves it has. *)
Lemma layerWaves_stop (order : gset string → list string)
    (taskMap : gmap string TaskDecomposition) (fuel : nat)
    (completed remaining : gset string) (waves : list (list TaskDecomposition)) :
  (∀ s, order s ≡ₚ elements s) →
  (∀ k t, taskMap !! k = Some t → taskId t = k) →
  remaining ⊆ dom taskMap →
  readyTasks taskMap completed (order remaining) = [] →
  (size remaining ≤ fuel)%nat →
  layerWaves order fuel taskMap completed remaining waves = Some (Ok waves).
Proof.
  intros Horder Hkey Hdom Hready Hfuel.
  destruct fuel as [|fuel]; simpl.
  - assert (remaining = ∅) as -> by (apply leibniz_equiv, size_empty_iff; lia).
    by rewrite decide_True.
  - destruct (decide (remaining = ∅)) as [-> | Hne]; [done |].
    rewrite (collectWave_spec taskMap completed (order remaining) [] remaining Hkey).
    + by rewrite Hready.
    + rewrite Horder. apply NoDup_elements.
    + intros k Hk. rewrite Horder in Hk. apply elem_of_elements in Hk. set_solver.
Qed.

Lemma depsCompleted_empty (t : TaskDecomposition) :
  depsCompleted ∅ t = true ↔ dependencies t = [].
Proof.
  rewrite depsCompleted_true. split.
  - intros H. destruct (dependencies t) as [|dep deps]; [done |].
    exfalso. by apply (not_elem_of_empty (C := gset string) dep), H; left.
  - intros -> dep Hdep. by apply elem_of_nil in Hdep.
Qed.

(** X3. When no dependency of any task is the id of a task of the list
    (as when the ids are generated after the dependencies were written),
    the layering has at most one wave: the plan holds exactly the tasks
    without dependencies (the last of each id), all in the parallel bucket
    when they are two or more and in the sequential bucket otherwise.
    Every task that has a dependency is left out. *)
Theorem unmatched_dependencies_leave_one_wave (order : gset string → list string)
    (tasks : list TaskDecomposition) :
  (∀ s, order s ≡ₚ elements s) →
  (∀ t dep, t ∈ tasks → dep ∈ dependencies t → dep ∉ (taskId <$> tasks)) →
  ∃ wave,
    buildExecutionPlan order tasks = Some (Ok (planOfWave wave)) ∧
    NoDup (taskId <$> wave) ∧
    (∀ t, t ∈ wave ↔ t ∈ tasks ∧ lastOfItsId tasks t ∧ dependencies t = []).
Proof.
  intros Horder Hfresh.
  set (taskMap := buildTaskMap tasks).
  set (ids := list_to_set (taskId <$> tasks) : gset string).
  assert (Hkey : ∀ k t, taskMap !! k = Some t → taskId t = k)
    by apply buildTaskMap_key.
  assert (Hdom : dom taskMap = ids) by apply buildTaskMap_dom.
  set (wave := readyTasks taskMap ∅ (order ids)).
  assert (Hmem : ∀ t, t ∈ wave ↔ t ∈ tasks ∧ lastOfItsId tasks t ∧ dependencies t = []).
  { intros t. unfold wave. rewrite readyTasks_elem. unfold lastOfItsId.
    rewrite <- buildTaskMap_last. fold taskMap. split.
    - intros (tid & Hin & Hl & Hd).
      pose proof (Hkey _ _ Hl) as <-.
      split_and!; [| done | by apply depsCompleted_empty].
      by apply buildTaskMap_lookup in Hl as [_ ?].
    - intros (Hin & Hl & Hd). exists (taskId t). split_and!; [| done |].
      + rewrite Horder. apply elem_of_elements. unfold ids.
        apply elem_of_list_to_set. by apply list_elem_of_fmap_2.
      + by apply depsCompleted_empty. }
  assert (Hnd : NoDup (taskId <$> wave)).
  { apply readyTasks_NoDup; [done |]. rewrite Horder. apply NoDup_elements. }
  exists wave. split_and!; [| done | done].
  unfold buildExecutionPlan, buildWaves. fold taskMap. fold ids.
  destruct (decide (wave = [])) as [Hnil | Hnonnil].
  { rewrite (layerWaves_stop order taskMap _ ∅ ids [] Horder Hkey); try done.
    - by rewrite Hnil.
    - by rewrite Hdom. }
  assert (Hsub : ∀ k, k ∈ (taskId <$> wave) → k ∈ ids).
  { intros k Hk. apply readyTasks_ids_in in Hk; [| done].
    rewrite Horder in Hk. by apply elem_of_elements in Hk. }
  destruct (size ids) as [|fuel] eqn:Hsize.
  { exfalso. apply size_empty_iff in Hsize.
    destruct wave as [|t w]; [done |].
    assert (taskId t ∈ ids) as Hin by (apply Hsub; rewrite fmap_cons; by left).
    set_solver. }
  rewrite (layerWaves_step order taskMap fuel ∅ ids [] Horder Hkey); try done;
    [| by rewrite Hdom].
  fold wave. simpl.
  rewrite (layerWaves_stop order taskMap fuel _ _ [wave] Horder Hkey).
  - unfold planOfWaves, extendPlan, planOfWave. simpl.
    by destruct (decide (1 < length wave)%nat).
  - rewrite Hdom. set_solver.
  - apply elem_of_nil_inv. intros t Ht.
    apply readyTasks_elem in Ht as (tid & Htid & Hl & Hd).
    pose proof (Hkey _ _ Hl) as <-.
    rewrite Horder in Htid. apply elem_of_elements in Htid.
    destruct (dependencies t) as [|dep deps] eqn:Hdeps.
    + assert (t ∈ wave) as Hin.
      { apply Hmem. unfold lastOfItsId. rewrite <- buildTaskMap_last.
        split_and!; try done. by apply buildTaskMap_lookup in Hl as [_ ?]. }
      apply (list_elem_of_fmap_2 taskId) in Hin. set_solver.
    + rewrite depsCompleted_true in Hd.
      assert (dep ∈ (∅ ∪ list_to_set (taskId <$> wave) : gset string)) as Hdep
        by (apply Hd; rewrite Hdeps; by left).
      apply (Hfresh t dep).
      * by apply buildTaskMap_lookup in Hl as [_ ?].
      * rewrite Hdeps. by left.
      * assert (dep ∈ ids) as Hids by (apply Hsub; set_solver).
        unfold ids in Hids. by apply elem_of_list_to_set in Hids.
  - assert (ids ∖ list_to_set (taskId <$> wave) ⊂ ids) as Hstrict.
    { destruct wave as [|t w] eqn:Hw; [done |].
      assert (taskId t ∈ ids) as Hin by (apply Hsub; rewrite fmap_cons; by left).
      rewrite fmap_cons. set_solver. }
    apply subset_size in Hstrict. lia.
Qed.

Lemma unmatched_dependencies_leave_one_wave_witness :
  ∃ wave,
    buildExecutionPlan elements [mkTask "u1" []; mkTask "u2" ["task1"]; mkTask "u3" []]
    = Some (Ok (planOfWave wave)) ∧
    mkTask "u2" ["task1"] ∉ wave.
Proof.
  destruct (unmatched_dependencies_leave_one_wave elements
              [mkTask "u1" []; mkTask "u2" ["task1"]; mkTask "u3" []])
    as (wave & Hrun & _ & Hmem).
  - intros s. reflexivity.
  - intros t dep Ht Hdep Hin.
    apply elem_of_cons in Ht as [-> | Ht]; [by apply elem_of_nil in Hdep |].
    apply elem_of_cons in Ht as [-> | Ht].
    + apply list_elem_of_singleton in Hdep as ->.
      vm_compute in Hin.
      apply elem_of_cons in Hin as [Hin | Hin]; [discriminate Hin |].
      apply elem_of_cons in Hin as [Hin | Hin]; [discriminate Hin |].
      apply elem_of_cons in Hin as [Hin | Hin]; [discriminate Hin |].
      by apply elem_of_nil in Hin.
    + apply list_elem_of_singleton in Ht as ->. by apply elem_of_nil in Hdep.
  - exists wave. split; [exact Hrun |].
    intros Hin. apply Hmem in Hin as (_ & _ & Hdeps). discriminate Hdeps.
Defined.

(** ** More on the executor *)

Lemma recordAll_lookup_other (exec : TaskDecomposition → res ResultEntry)
    (tasks : list TaskDecomposition) (m : gmap string ResultEntry) (tid : string) :
  tid ∉ (taskId <$> tasks) → recordAll exec m tasks !! tid = m !! tid.
Proof.
  revert m. induction tasks as [|t tasks IH]; intros m Hnot; [done |].
  rewrite fmap_cons in Hnot. apply not_elem_of_cons in Hnot as [Hne Hnot].
  unfold recordAll. simpl. fold (recordAll exec (<[taskId t := gatheredEntry exec t]> m) tasks).
  rewrite IH by done. by rewrite lookup_insert_ne.
Qed.

Lemma recordAll_lookup (exec : TaskDecomposition → res ResultEntry)
    (tasks : list TaskDecomposition) (m : gmap string ResultEntry)
    (task : TaskDecomposition) :
  NoDup (taskId <$> tasks) → task ∈ tasks →
  recordAll exec m tasks !! taskId task = Some (gatheredEntry exec task).
Proof.
  revert m. induction tasks as [|t tasks IH]; intros m Hnd Hin.
  { by apply elem_of_nil in Hin. }
  rewrite fmap_cons in Hnd. apply NoDup_cons in Hnd as [Hfresh Hnd].
  unfold recordAll. simpl. fold (recordAll exec (<[taskId t := gatheredEntry exec t]> m) tasks).
  apply elem_of_cons in Hin as [-> | Hin]; [| by apply IH].
  rewrite recordAll_lookup_other by done. apply lookup_insert_eq.
Qed.

Lemma recordAll_dom (exec : TaskDecomposition → res ResultEntry)
    (tasks : list TaskDecomposition) (m : gmap string ResultEntry) :
  dom (recordAll exec m tasks) = dom m ∪ list_to_set (taskId <$> tasks).
Proof.
  revert m. induction tasks as [|t tasks IH]; intros m.
  - simpl. set_solver.
  - unfold recordAll. simpl.
    fold (recordAll exec (<[taskId t := gatheredEntry exec t]> m) tasks).
    rewrite IH, dom_insert_L. set_solver.
Qed.

Lemma recordAll_app (exec : TaskDecomposition → res ResultEntry)
    (tasks1 tasks2 : list TaskDecomposition) (m : gmap string ResultEntry) :
  recordAll exec m (tasks1 ++ tasks2) = recordAll exec (recordAll exec m tasks1) tasks2.
Proof. unfold recordAll. by rewrite foldl_app. Qed.

(** The sequential loop when no task raises, as one equation. *)
Lemma runSequential_ok (exec : TaskDecomposition → res ResultEntry)
    (tasks : list TaskDecomposition) (st : ExecutorState) :
  Forall (λ t, ∃ r, exec t = Ok r) tasks →
  runSequential exec tasks st
  = ({| results := recordAll exec (results st) tasks;
        schedule := schedule st ++ (Awaited ∘ taskId <$> tasks);
        written := written st ++ (settled exec <$> tasks) |}, Completed).
Proof.
  intros Hall. revert st.
  induction Hall as [|t tasks [r Hr] _ IH]; intros st; simpl.
  - rewrite !app_nil_r. by destruct st.
  - rewrite Hr, IH. simpl.
    assert (gatheredEntry exec t = r) as -> by (unfold gatheredEntry; by rewrite Hr).
    assert (settled exec t = withOutcome t COMPLETED (Some r)) as ->
      by (unfold settled; by rewrite Hr).
    by rewrite <- !app_assoc.
Qed.

(** The loop over the gathered results, as one equation. *)
Lemma recordParallel_all (exec : TaskDecomposition → res ResultEntry)
    (tasks : list TaskDecomposition) (st : ExecutorState) :
  foldl recordParallel st (zip tasks (exec <$> tasks))
  = {| results := recordAll exec (results st) tasks;
       schedule := schedule st;
       written := written st ++ (settled exec <$> tasks) |}.
Proof.
  revert st. induction tasks as [|t tasks IH]; intros st.
  - simpl. rewrite app_nil_r. by destruct st.
  - rewrite !fmap_cons. cbn [zip zip_with foldl]. rewrite IH.
    unfold recordAll at 2. cbn [foldl].
    fold (recordAll exec (<[taskId t := gatheredEntry exec t]> (results st)) tasks).
    unfold recordParallel. simpl.
    assert (Hhead : settled exec t
                    = match exec t with
                      | Ok r => withOutcome t COMPLETED (Some r)
                      | Raise _ => withOutcome t FAILED (result t)
                      end) by done.
    assert (Hentry : gatheredEntry exec t
                     = match exec t with
                       | Ok r => r
                       | Raise e => ErrorResult (exnStr e)
                       end) by done.
    rewrite Hhead, Hentry.
    destruct (exec t); simpl; by rewrite <- app_assoc.
Qed.

(** A run in which no sequential task raises and the ceiling is positive,
    as one equation. *)
Lemma executeParallelTasksWith_ok (exec : TaskDecomposition → res ResultEntry)
    (maxParallel : Z) (plan : ExecutionPlan) :
  1 ≤ maxParallel →
  Forall (λ t, ∃ r, exec t = Ok r) (sequential plan) →
  executeParallelTasksWith exec maxParallel plan
  = ({| results := recordAll exec ∅ (planTasks plan);
        schedule := (Awaited ∘ taskId <$> sequential plan)
                    ++ match parallel plan with
                       | [] => []
                       | batch => [Gathered (taskId <$> batch)
                                            (Z.of_nat (length batch) `min` maxParallel)]
                       end;
        written := settled exec <$> planTasks plan |}, Completed).
Proof.
  intros Hmax Hseq. unfold executeParallelTasksWith, planTasks.
  rewrite (runSequential_ok exec _ _ Hseq). simpl.
  unfold runParallel. rewrite recordAll_app, fmap_app.
  destruct (parallel plan) as [|t batch] eqn:Hpar.
  { simpl. by rewrite !app_nil_r. }
  set (limit := Z.of_nat (length (t :: batch)) `min` maxParallel).
  assert (1 ≤ limit) as Hlimit by (unfold limit; simpl length; lia).
  rewrite (proj2 (Z.ltb_ge _ _)) by lia.
  rewrite (proj2 (Z.eqb_neq _ _)) by lia.
  by rewrite recordParallel_all.
Qed.

(** X4. A run of the executor in which no sequential task raises, under a
    positive parallelism ceiling, returns, and the results mapping has
    exactly the ids of the plan's tasks as its keys. With distinct ids,
    the entry of each task is its own result, or the error entry of the
    exception it raised in the gathered batch; and each task object has
    been given the status COMPLETED with its result, or FAILED. *)
Theorem completed_run_records_every_planned_task
    (exec : TaskDecomposition → res ResultEntry) (maxParallel : Z)
    (plan : ExecutionPlan) :
  1 ≤ maxParallel →
  Forall (λ t, ∃ r, exec t = Ok r) (sequential plan) →
  ∃ st',
    executeParallelTasksWith exec maxParallel plan = (st', Completed) ∧
    dom (results st') = list_to_set (taskId <$> planTasks plan) ∧
    (NoDup (taskId <$> planTasks plan) →
     ∀ task, task ∈ planTasks plan →
       results st' !! taskId task = Some (gatheredEntry exec task)) ∧
    written st' = settled exec <$> planTasks plan.
Proof.
  intros Hmax Hseq. eexists. split; [by apply executeParallelTasksWith_ok |].
  simpl. split_and!; [| | done].
  - rewrite recordAll_dom, dom_empty_L. set_solver.
  - intros Hnd task Hin. by apply recordAll_lookup.
Qed.

Lemma completed_run_records_every_planned_task_witness :
  ∃ st',
    executeParallelTasksWith
      (executeTask defaultSettings (sampleOrchestratorWorld firstTaskOverCeiling) "s")
      10 twoParallelTasks = (st', Completed) ∧
    dom (results st') = list_to_set (taskId <$> planTasks twoParallelTasks) ∧
    status <$> written st' = [FAILED; COMPLETED].
Proof.
  destruct (completed_run_records_every_planned_task
              (executeTask defaultSettings
                 (sampleOrchestratorWorld firstTaskOverCeiling) "s")
              10 twoParallelTasks)
    as (st' & Hrun & Hdom & _ & Hwritten).
  - lia.
  - simpl. constructor.
  - exists st'. split_and!; [exact Hrun | exact Hdom |].
    rewrite Hwritten. vm_compute. reflexivity.
Defined.

(** X5. With a parallelism ceiling of zero (or below) a plan whose
    parallel bucket is not empty cannot complete. The sequential tasks are
    run first, with all their effects; then, for a ceiling of zero, the
    gather is made under a semaphore without permits and never completes,
    and for a negative ceiling the semaphore's constructor raises
    [ValueError]. No task of the parallel bucket gets an entry. *)
Theorem no_permits_no_return (exec : TaskDecomposition → res ResultEntry)
    (maxParallel : Z) (plan : ExecutionPlan) :
  maxParallel ≤ 0 →
  parallel plan ≠ [] →
  Forall (λ t, ∃ r, exec t = Ok r) (sequential plan) →
  ∃ st',
    executeParallelTasksWith exec maxParallel plan
    = (st', if decide (maxParallel = 0) then NeverReturns
            else Propagated (ValueError "Semaphore initial value must be >= 0")) ∧
    results st' = recordAll exec ∅ (sequential plan) ∧
    written st' = settled exec <$> sequential plan ∧
    schedule st'
    = (Awaited ∘ taskId <$> sequential plan)
      ++ (if decide (maxParallel = 0)
          then [Gathered (taskId <$> parallel plan) 0] else []).
Proof.
  intros Hmax Hpar Hseq. unfold executeParallelTasksWith.
  rewrite (runSequential_ok exec _ _ Hseq). simpl. unfold runParallel.
  destruct (parallel plan) as [|t batch] eqn:Hbatch; [done |].
  assert (Z.of_nat (length (t :: batch)) `min` maxParallel = maxParallel) as ->
    by (simpl length; lia).
  destruct (decide (maxParallel = 0)) as [-> | Hneg].
  - simpl. eexists. split; [done |]. simpl. by split_and!.
  - rewrite (proj2 (Z.ltb_lt _ _)) by lia.
    eexists. split; [done |]. simpl. rewrite app_nil_r. by split_and!.
Qed.

Lemma no_permits_no_return_witness :
  ∃ st',
    executeParallelTasksWith
      (executeTask defaultSettings (sampleOrchestratorWorld (λ _, answersAtOnce)) "s")
      0 {| sequential := [taskC]; parallel := [taskA; taskB] |}
    = (st', NeverReturns) ∧
    schedule st' = [Awaited "C"; Gathered ["A"; "B"] 0].
Proof.
  destruct (no_permits_no_return
              (executeTask defaultSettings
                 (sampleOrchestratorWorld (λ _, answersAtOnce)) "s")
              0 {| sequential := [taskC]; parallel := [taskA; taskB] |})
    as (st' & Hrun & _ & _ & Hsched).
  - lia.
  - discriminate.
  - simpl. constructor; [| constructor]. eexists. vm_compute. reflexivity.
  - exists st'. split; [exact Hrun | exact Hsched].
Defined.

Lemma executeParallelTasksWith_schedule_witness :
  ∃ st',
    executeParallelTasksWith
      (executeTask defaultSettings (sampleOrchestratorWorld (λ _, answersAtOnce)) "s")
      10 {| sequential := [taskC]; parallel := [taskA; taskB] |}
    = (st', Completed) ∧
    schedule st' = [Awaited "C"; Gathered ["A"; "B"] 2].
Proof.
  destruct (executeParallelTasksWith_schedule
              (executeTask defaultSettings
                 (sampleOrchestratorWorld (λ _, answersAtOnce)) "s")
              10 {| sequential := [taskC]; parallel := [taskA; taskB] |})
    as (st' & Hrun & Hsched).
  - lia.
  - simpl. constructor; [| constructor]. eexists. vm_compute. reflexivity.
  - exists st'. split; [exact Hrun | exact Hsched].
Defined.

Lemma sequential_failure_halts_plan_witness :
  ∃ st',
    executeParallelTasksWith
      (executeTask defaultSettings (sampleOrchestratorWorld firstTaskOverCeiling) "s")
      10 twoSequentialTasks
    = (st', Propagated
              (AgentExecutionError
                 "Agent execution failed: Token limit exceeded: 100001/100000")) ∧
    schedule st' = [Awaited "T1"].
Proof.
  destruct (sequential_failure_halts_plan
              (executeTask defaultSettings
                 (sampleOrchestratorWorld firstTaskOverCeiling) "s")
              10 twoSequentialTasks [] (mkTask "T1" []) [mkTask "T2" []]
              (AgentExecutionError
                 "Agent execution failed: Token limit exceeded: 100001/100000"))
    as (st' & Hrun & Hsched).
  - reflexivity.
  - constructor.
  - vm_compute. reflexivity.
  - exists st'. split; [exact Hrun | exact Hsched].
Defined.

(** ** More on the agent turn *)

Lemma withToolCalls_fields (records : list ToolCallRecord) (e : AgentExecution) :
  execToolCalls (withToolCalls records e) = execToolCalls e ++ records ∧
  agentResponse (withToolCalls records e) = agentResponse e ∧
  execStatus (withToolCalls records e) = execStatus e ∧
  tokensUsed (withToolCalls records e) = tokensUsed e ∧
  errorMessage (withToolCalls records e) = errorMessage e ∧
  execId (withToolCalls records e) = execId e.
Proof.
  revert e. induction records as [|record records IH]; intros e; simpl.
  - by rewrite app_nil_r.
  - destruct (IH (appendToolCall record e)) as (-> & -> & -> & -> & -> & ->).
    simpl. by rewrite <- app_assoc.
Qed.

(** The tool requests of one iteration, as one equation. *)
Lemma runToolCalls_closed (W : EngineWorld)
    (tools : list ToolDefinition) (iteration : nat) (toolCalls : list ToolCall)
    (messages : list Message) (ts : TurnState) :
  runToolCalls W tools iteration toolCalls messages ts
  = ({| trace := trace ts ++ toolEvents tools iteration toolCalls;
        execution := withToolCalls (toolRecord W tools iteration <$> toolCalls)
                                   (execution ts) |},
     Ok (messages ++ (toolMessage W tools iteration <$> toolCalls))).
Proof.
  revert messages ts. induction toolCalls as [|toolCall rest IH]; intros messages ts.
  - simpl. rewrite !app_nil_r. by destruct ts.
  - cbn [runToolCalls]. unfold mbind, M_bind, mret, M_ret, tryExcept, callT, updateExecution,
      modifyState.
    unfold toolEvents. cbn [omap list_omap fmap list_fmap].
    fold (toolEvents tools iteration rest).
    unfold toolMessage at 1, toolRecord at 1, toolOutcome.
    destruct (find (λ t, bool_decide (toolName t = callName toolCall)) tools)
      as [tool|].
    + destruct (toolExecute W iteration tool (callInput toolCall)) as [payload|e];
        rewrite IH; simpl; by rewrite <- !app_assoc.
    + rewrite IH. simpl. by rewrite <- !app_assoc.
Qed.

Arguments runToolCalls : simpl never.

(** One pass of the loop body, as one equation. *)
Lemma toolLoop_unfold (cfg : Settings) (W : EngineWorld) (tools : list ToolDefinition)
    (prompt : string) (left it : nat) (msgs : list Message) (total : Z)
    (ts : TurnState) :
  toolLoop cfg W tools prompt (S left) it msgs total ts
  = let ev := InvokeModel (S it) msgs prompt
                (match tools with [] => None | _ => Some tools end) in
    match invokeModel W (S it) msgs with
    | Raise e => (logged ts ev, Raise e)
    | Ok resp =>
        let total' := total + default 0 (usageTotalTokens resp) in
        if maxTokenLimit cfg <? total' then
          (logged ts ev, Raise (TokenLimitExceeded total' (maxTokenLimit cfg)))
        else
          match extractToolCalls resp with
          | [] =>
              ({| trace := trace ts ++ [ev];
                  execution := setCompleted (extractTextResponse resp) total'
                                            (execution ts) |}, Ok (S it))
          | _ =>
              toolLoop cfg W tools prompt left (S it)
                (nextMessages W tools (S it) msgs resp) total'
                {| trace := (trace ts ++ [ev])
                            ++ toolEvents tools (S it) (extractToolCalls resp);
                   execution := withToolCalls
                                  (toolRecord W tools (S it) <$> extractToolCalls resp)
                                  (execution ts) |}
          end
    end.
Proof.
  unfold toolLoop. fold (toolLoop cfg W tools prompt).
  unfold mbind, M_bind, callT at 1. simpl.
  destruct (invokeModel W (S it) msgs) as [resp|e]; [| done].
  simpl.
  destruct (maxTokenLimit cfg <? total + default 0 (usageTotalTokens resp)); [done |].
  destruct (extractToolCalls resp) as [|call calls] eqn:Hcalls; [done |].
  rewrite runToolCalls_closed. simpl. unfold nextMessages. rewrite Hcalls.
  by rewrite <- app_assoc.
Qed.

Lemma modelCalls_app (evs1 evs2 : list Event) :
  modelCalls (evs1 ++ evs2) = modelCalls evs1 ++ modelCalls evs2.
Proof. unfold modelCalls. apply omap_app. Qed.

Lemma modelCalls_none (evs : list Event) :
  Forall (λ ev, ¬ isModelCall ev) evs → modelCalls evs = [].
Proof.
  induction 1 as [|ev evs Hev _ IH]; [done |].
  destruct ev; simpl in Hev; try exact IH. by exfalso.
Qed.

Lemma toolEvents_tool_calls (tools : list ToolDefinition) (iteration : nat)
    (toolCalls : list ToolCall) :
  Forall isToolCall (toolEvents tools iteration toolCalls).
Proof.
  induction toolCalls as [|toolCall rest IH]; [constructor |].
  unfold toolEvents. simpl.
  destruct (find (λ t, bool_decide (toolName t = callName toolCall)) tools);
    [constructor; [done |] |]; exact IH.
Qed.

(** The three phases of a call of [execute] below the depth ceiling, as
    one equation. *)
Lemma execute_phases (cfg : Settings) (W : EngineWorld) (agentConfig : AgentConfig)
    (message sessionId : string) (parentId : option string) (depth : Z)
    (st : EngineState) :
  depth < maxRecursionDepth cfg →
  execute cfg W agentConfig message sessionId parentId depth st
  = match turnSetup cfg W agentConfig message sessionId
            {| trace := issued st;
               execution := createdExecution W agentConfig message sessionId
                                             parentId depth |} with
    | (ts1, Raise e) => (turnOver W st ts1, abortedBy ts1 e)
    | (ts1, Ok (tools, context, history)) =>
        match toolLoop cfg W tools (buildSystemPrompt agentConfig context)
                maxIterations 0
                (history ++ [{| role := "user"; content := TextContent message |}])
                0 ts1 with
        | (ts2, Raise e) => (turnOver W st ts2, abortedBy ts2 e)
        | (ts2, Ok n) =>
            match turnFinish W agentConfig message sessionId depth n ts2 with
            | (ts3, Raise e) => (turnOver W st ts3, abortedBy ts3 e)
            | (ts3, Ok e) => (turnOver W st ts3, Returned e)
            end
        end
    end.
Proof.
  intros Hdepth. unfold execute. rewrite (proj2 (Z.leb_gt _ _)) by done.
  unfold turnBody, mbind, M_bind, turnOver, abortedBy, createdExecution. simpl.
  rewrite delete_insert_eq.
  destruct (turnSetup cfg W agentConfig message sessionId _) as [ts1 [[[tools context] history]|e]];
    [| done].
  destruct (toolLoop cfg W tools _ maxIterations 0%nat _ 0 ts1) as [ts2 [n|e]]; [| done].
  by destruct (turnFinish W agentConfig message sessionId depth n ts2) as [ts3 [e|e]].
Qed.

(** The loop, call by call: the model calls are numbered consecutively;
    the first is made with the messages the loop starts from and each next
    one with the previous messages, the assistant turn and the tool
    results appended; a returning loop ended on an answer without tool
    request, which it recorded with the cumulative usage, or used up its
    passes and left answer, status and usage as they were. *)
Lemma toolLoop_calls (cfg : Settings) (W : EngineWorld) (tools : list ToolDefinition)
    (prompt : string) (left : nat) :
  ∀ (it : nat) (msgs : list Message) (total : Z) (ts ts' : TurnState) (r : res nat),
    toolLoop cfg W tools prompt left it msgs total ts = (ts', r) →
    ∃ new,
      trace ts' = trace ts ++ new ∧
      Forall isLoopCall new ∧
      execId (execution ts') = execId (execution ts) ∧
      (length (modelCalls new) ≤ left)%nat ∧
      (∀ i k m, modelCalls new !! i = Some (k, m) → k = (S it + i)%nat) ∧
      (∀ k m, modelCalls new !! 0%nat = Some (k, m) → m = msgs) ∧
      (∀ i k m k' m',
          modelCalls new !! i = Some (k, m) → modelCalls new !! S i = Some (k', m') →
          ∃ resp, invokeModel W k m = Ok resp ∧ extractToolCalls resp ≠ [] ∧
                  m' = nextMessages W tools k m resp) ∧
      (∀ n, r = Ok n →
         n = (it + length (modelCalls new))%nat ∧
         ((∃ k m resp,
              last (modelCalls new) = Some (k, m) ∧
              invokeModel W k m = Ok resp ∧ extractToolCalls resp = [] ∧
              agentResponse (execution ts') = Some (extractTextResponse resp) ∧
              execStatus (execution ts') = COMPLETED ∧
              tokensUsed (execution ts') = total + usageIssued W new ∧
              total + usageIssued W new ≤ maxTokenLimit cfg ∧
              errorMessage (execution ts') = errorMessage (execution ts))
          ∨ (length (modelCalls new) = left ∧
             agentResponse (execution ts') = agentResponse (execution ts) ∧
             execStatus (execution ts') = execStatus (execution ts) ∧
             tokensUsed (execution ts') = tokensUsed (execution ts) ∧
             errorMessage (execution ts') = errorMessage (execution ts)))).
Proof.
  induction left as [|left IH]; intros it msgs total ts ts' r Hrun.
  { unfold toolLoop in Hrun. simpl in Hrun. injection Hrun as <- <-.
    exists []. rewrite app_nil_r. simpl.
    split_and!; try done.
    intros n [= <-]. split; [lia |]. right. by split_and!. }
  rewrite toolLoop_unfold in Hrun. cbv zeta in Hrun.
  set (ev := InvokeModel (S it) msgs prompt
               (match tools with [] => None | _ => Some tools end)) in *.
  assert (Hone : modelCalls [ev] = [(S it, msgs)]) by done.
  assert (Hsingle : ∃ new,
             trace (logged ts ev) = trace ts ++ new ∧ new = [ev]) by (by exists [ev]).
  assert (Hshape : ∀ ts1,
             trace ts1 = trace ts ++ [ev] →
             trace ts1 = trace ts ++ [ev] ∧
             Forall isLoopCall [ev] ∧
             (length (modelCalls [ev]) ≤ S left)%nat ∧
             (∀ i k m, modelCalls [ev] !! i = Some (k, m) → k = (S it + i)%nat) ∧
             (∀ k m, modelCalls [ev] !! 0%nat = Some (k, m) → m = msgs) ∧
             (∀ i k m k' m',
                 modelCalls [ev] !! i = Some (k, m) →
                 modelCalls [ev] !! S i = Some (k', m') →
                 ∃ resp, invokeModel W k m = Ok resp ∧ extractToolCalls resp ≠ [] ∧
                         m' = nextMessages W tools k m resp)).
  { intros ts1 Htr. rewrite Hone. split_and!.
    - done.
    - constructor; [by left | constructor].
    - simpl. lia.
    - intros [|i] k m Hi; [| done]. injection Hi as <- <-. lia.
    - intros k m Hi. by injection Hi as <- <-.
    - intros i k m k' m' _ Hi. done. }
  destruct (invokeModel W (S it) msgs) as [resp|e] eqn:Hmodel.
  2:{ injection Hrun as <- <-. exists [ev].
      destruct (Hshape (logged ts ev) eq_refl) as (? & ? & ? & ? & ? & ?).
      split_and!; try assumption; [done |]. intros n Hn. discriminate Hn. }
  destruct (maxTokenLimit cfg <? total + default 0 (usageTotalTokens resp)) eqn:Hlim.
  { injection Hrun as <- <-. exists [ev].
    destruct (Hshape (logged ts ev) eq_refl) as (? & ? & ? & ? & ? & ?).
    split_and!; try assumption; [done |]. intros n Hn. discriminate Hn. }
  apply Z.ltb_ge in Hlim.
  destruct (extractToolCalls resp) as [|call calls] eqn:Hcalls.
  { injection Hrun as <- <-. exists [ev].
    match goal with
    | |- context [execution ?t] =>
        destruct (Hshape t eq_refl) as (? & ? & ? & ? & ? & ?)
    end.
    split_and!; try assumption; [done |].
    intros n [= <-]. rewrite Hone. split; [simpl; lia |]. left.
    exists (S it), msgs, resp. simpl. rewrite Hmodel.
    split_and!; try done; lia. }
  rewrite <- Hcalls in Hrun.
  apply IH in Hrun as (new & Htr & Hall & Hid & Hlen & Hnum & Hfirst & Hnext & Hret).
  simpl in Htr, Hid.
  pose proof (toolEvents_tool_calls tools (S it) (extractToolCalls resp)) as Htools.
  assert (Hcallsnew : modelCalls ([ev] ++ toolEvents tools (S it) (extractToolCalls resp) ++ new)
                      = (S it, msgs) :: modelCalls new).
  { rewrite !modelCalls_app, Hone.
    rewrite (modelCalls_none (toolEvents _ _ _)) by by apply tool_calls_no_model.
    done. }
  exists ([ev] ++ toolEvents tools (S it) (extractToolCalls resp) ++ new).
  rewrite Hcallsnew.
  destruct (withToolCalls_fields (toolRecord W tools (S it) <$> extractToolCalls resp)
              (execution ts)) as (_ & Hresp & Hstatus & Hused & Herr & Hid0).
  simpl in Hret.
  assert (Husage : usageIssued W ([ev] ++ toolEvents tools (S it) (extractToolCalls resp)
                                  ++ new)
                   = default 0 (usageTotalTokens resp) + usageIssued W new).
  { rewrite !usageIssued_app.
    rewrite (usageIssued_no_model W (toolEvents _ _ _)) by by apply tool_calls_no_model.
    simpl. rewrite Hmodel. lia. }
  split_and!.
  - rewrite Htr. by rewrite <- !app_assoc.
  - apply Forall_app. split; [constructor; [by left | constructor] |].
    apply Forall_app. split; [| done].
    eapply Forall_impl; [exact Htools |]. intros x Hx. by right.
  - congruence.
  - simpl. lia.
  - intros [|i] k m; simpl; [intros [= <- <-]; lia |].
    intros Hi. apply Hnum in Hi. lia.
  - by intros k m [= <- <-].
  - intros [|i] k m k' m'; simpl.
    + intros [= <- <-] Hsecond. apply Hfirst in Hsecond as ->.
      exists resp. split_and!; try done. by rewrite Hcalls.
    + apply Hnext.
  - intros n Hn. destruct (Hret n Hn) as [-> Hcases]. split; [simpl; lia |].
    destruct Hcases as [(k & m & resp' & Hlast & Hm & Hnone & Hans & Hst & Htok & Hle & He)
                       | (Hfull & Hans & Hst & Htok & He)].
    + left. exists k, m, resp'. rewrite Husage. split_and!; try done; try lia.
      * destruct (modelCalls new); [done | done].
      * by rewrite He.
    + right. simpl. split_and!; [lia | | | |]; congruence.
Qed.

(** The writes that end a returning turn are exactly [writesOf]. *)
Lemma persistTurn_writes (W : EngineWorld) (agentConfig : AgentConfig)
    (message sessionId : string) (depth : Z) (ts ts' : TurnState)
    (e : AgentExecution) :
  persistTurn W agentConfig message sessionId depth ts = (ts', Ok e) →
  e = execution ts ∧
  trace ts' = trace ts ++ writesOf agentConfig message sessionId depth e.
Proof.
  unfold persistTurn, writesOf, interactionOf, mbind, M_bind, mret, M_ret, callT, getState.
  destruct (appendToConversation W sessionId _) as [[]|e0]; [| done].
  simpl. destruct (agentResponse (execution ts)) as [[|c text]|] eqn:Hresp.
  - intros [= <- <-]. by rewrite Hresp.
  - simpl. destruct (appendToConversation W sessionId _) as [[]|e1]; [| done].
    simpl. destruct (storeInteraction W _) as [[]|e2]; [| done].
    intros [= <- <-]. simpl. rewrite Hresp. by rewrite <- !app_assoc.
  - intros [= <- <-]. by rewrite Hresp.
Qed.

Lemma turnFinish_writes (W : EngineWorld) (agentConfig : AgentConfig)
    (message sessionId : string) (depth : Z) (iterations : nat)
    (ts ts' : TurnState) (e : AgentExecution) :
  turnFinish W agentConfig message sessionId depth iterations ts = (ts', Ok e) →
  e = setExecutionTime (elapsedMs W)
        (if decide (maxIterations ≤ iterations)%nat
         then setFailed "Max iterations exceeded" (execution ts)
         else execution ts) ∧
  trace ts' = trace ts ++ writesOf agentConfig message sessionId depth e.
Proof.
  unfold turnFinish, mbind, M_bind, mret, M_ret, updateExecution, modifyState.
  destruct (decide (maxIterations ≤ iterations)%nat);
    intros Hrun; by apply persistTurn_writes in Hrun as [-> Htr].
Qed.

Lemma turnFinish_execId (W : EngineWorld) (agentConfig : AgentConfig)
    (message sessionId : string) (depth : Z) (iterations : nat)
    (ts ts' : TurnState) (r : res AgentExecution) :
  turnFinish W agentConfig message sessionId depth iterations ts = (ts', r) →
  execId (execution ts') = execId (execution ts).
Proof.
  unfold turnFinish, persistTurn, mbind, M_bind, mret, M_ret, updateExecution,
    modifyState, callT, getState.
  destruct (decide (maxIterations ≤ iterations)%nat); simpl;
    (destruct (appendToConversation W sessionId _) as [[]|e0];
       [| by intros [= <- <-]]);
    simpl;
    (match goal with
     | |- context [match ?r with Some _ => _ | None => _ end] =>
         destruct r as [[|c text]|]
     end; try (by intros [= <- <-]));
    simpl;
    (destruct (appendToConversation W sessionId _) as [[]|e1];
       [| by intros [= <- <-]]);
    simpl;
    (destruct (storeInteraction W _) as [[]|e2]; by intros [= <- <-]).
Qed.

(** When the statements before the loop return, each collaborator did. *)
Lemma turnSetup_ok (cfg : Settings) (W : EngineWorld) (agentConfig : AgentConfig)
    (message sessionId : string) (ts ts' : TurnState)
    (tools : list ToolDefinition) (context : Context) (history : list Message) :
  turnSetup cfg W agentConfig message sessionId ts = (ts', Ok (tools, context, history)) →
  getToolsForAgent W (toolIds agentConfig) = Ok tools ∧
  (retrieveContext cfg (memoryWorld W) sessionId message (maxContextTokens cfg) []).2
  = Ok context ∧
  getConversationHistory W sessionId = Ok history.
Proof.
  unfold turnSetup, mbind, M_bind, mret, M_ret, callT, liftMemory.
  destruct (getToolsForAgent W (toolIds agentConfig)) as [tools'|]; [| done].
  simpl.
  destruct (retrieveContext cfg (memoryWorld W) sessionId message
              (maxContextTokens cfg) []) as [evs [context'|]]; [| done].
  destruct (getConversationHistory W sessionId) as [history'|]; [| done].
  by intros [= <- <- <- <-].
Qed.

(** One call of [execute] below the depth ceiling, call by call. *)
Lemma execute_calls (cfg : Settings) (W : EngineWorld) (agentConfig : AgentConfig)
    (message sessionId : string) (parentId : option string) (depth : Z)
    (st st' : EngineState) (outcome : TurnOutcome) :
  depth < maxRecursionDepth cfg →
  execute cfg W agentConfig message sessionId parentId depth st = (st', outcome) →
  ∃ pre loopEvs post,
    turnEvents st st' = pre ++ loopEvs ++ post ∧
    Forall isSetupCall pre ∧ Forall isLoopCall loopEvs ∧ Forall isPersist post ∧
    activeExecutions st' = delete (newExecutionId W) (activeExecutions st) ∧
    (length (modelCalls loopEvs) ≤ maxIterations)%nat ∧
    (∀ i k m, modelCalls loopEvs !! i = Some (k, m) → k = S i) ∧
    (∀ k m, modelCalls loopEvs !! 0%nat = Some (k, m) →
       ∃ history, getConversationHistory W sessionId = Ok history ∧
                  m = history ++ [{| role := "user"; content := TextContent message |}]) ∧
    (∀ i k m k' m',
        modelCalls loopEvs !! i = Some (k, m) →
        modelCalls loopEvs !! S i = Some (k', m') →
        ∃ tools resp,
          getToolsForAgent W (toolIds agentConfig) = Ok tools ∧
          invokeModel W k m = Ok resp ∧ extractToolCalls resp ≠ [] ∧
          m' = nextMessages W tools k m resp) ∧
    (∀ e, outcome = Returned e →
       post = writesOf agentConfig message sessionId depth e ∧
       execId e = newExecutionId W ∧
       executionTimeMs e = elapsedMs W ∧
       ((∃ k m resp,
            last (modelCalls loopEvs) = Some (k, m) ∧
            invokeModel W k m = Ok resp ∧ extractToolCalls resp = [] ∧
            agentResponse e = Some (extractTextResponse resp) ∧
            tokensUsed e = usageIssued W loopEvs ∧
            usageIssued W loopEvs ≤ maxTokenLimit cfg ∧
            (if decide (maxIterations ≤ length (modelCalls loopEvs))%nat
             then execStatus e = FAILED ∧ errorMessage e = Some "Max iterations exceeded"
             else execStatus e = COMPLETED ∧ errorMessage e = None))
        ∨ (length (modelCalls loopEvs) = maxIterations ∧
           agentResponse e = None ∧ tokensUsed e = 0 ∧
           execStatus e = FAILED ∧ errorMessage e = Some "Max iterations exceeded"))) ∧
    (∀ record err, outcome = Aborted record err →
       execStatus record = FAILED ∧ execId record = newExecutionId W ∧
       ∃ e, err = AgentExecutionError ("Agent execution failed: " +:+ exnStr e) ∧
            errorMessage record = Some (exnStr e)) ∧
    (∀ e, outcome ≠ Rejected e).
Proof.
  intros Hdepth. rewrite execute_phases by done.
  set (ts0 := {| trace := issued st;
                 execution := createdExecution W agentConfig message sessionId
                                               parentId depth |}).
  destruct (turnSetup cfg W agentConfig message sessionId ts0) as [ts1 rsetup] eqn:Hsetup.
  destruct (turnSetup_spec _ _ _ _ _ _ _ _ Hsetup) as (pre & Hpre & Hallpre & Hex1).
  simpl in Hpre.
  destruct rsetup as [[[tools context] history]|e].
  2:{ intros [= <- <-]. exists pre, [], []. simpl.
      split_and!; try done.
      - apply turnEvents_app. simpl. by rewrite Hpre, !app_nil_r.
      - lia.
      - intros record err [= <- <-]. simpl. rewrite Hex1. split_and!; eauto. }
  apply turnSetup_ok in Hsetup as (Htools & _ & Hhistory).
  destruct (toolLoop cfg W tools (buildSystemPrompt agentConfig context) maxIterations
              0%nat (history ++ [{| role := "user"; content := TextContent message |}])
              0 ts1) as [ts2 rloop] eqn:Hloop.
  destruct (toolLoop_calls _ _ _ _ _ _ _ _ _ _ _ Hloop)
    as (loopEvs & Hloopev & Hallloop & Hid2 & Hlen & Hnum & Hfirst & Hnext & Hret).
  rewrite Hex1 in Hid2. simpl in Hid2.
  assert (Hfirst' : ∀ k m, modelCalls loopEvs !! 0%nat = Some (k, m) →
            ∃ history0, getConversationHistory W sessionId = Ok history0 ∧
              m = history0 ++ [{| role := "user"; content := TextContent message |}]).
  { intros k m Hk. exists history. split; [done |]. by eapply Hfirst. }
  assert (Hnext' : ∀ i k m k' m',
            modelCalls loopEvs !! i = Some (k, m) →
            modelCalls loopEvs !! S i = Some (k', m') →
            ∃ tools0 resp,
              getToolsForAgent W (toolIds agentConfig) = Ok tools0 ∧
              invokeModel W k m = Ok resp ∧ extractToolCalls resp ≠ [] ∧
              m' = nextMessages W tools0 k m resp).
  { intros i k m k' m' Hi Hsi.
    destruct (Hnext i k m k' m' Hi Hsi) as (resp & ? & ? & ?). by exists tools, resp. }
  assert (Hnum' : ∀ i k m, modelCalls loopEvs !! i = Some (k, m) → k = S i).
  { intros i k m Hi. apply Hnum in Hi. lia. }
  destruct rloop as [n|e].
  2:{ intros [= <- <-]. exists pre, loopEvs, []. simpl.
      split_and!; try done.
      - apply turnEvents_app. simpl. by rewrite Hloopev, Hpre, app_nil_r, <- app_assoc.
      - intros record err [= <- <-]. simpl. split_and!; eauto. }
  destruct (Hret n eq_refl) as [Hn Hcases]. simpl in Hn.
  destruct (turnFinish W agentConfig message sessionId depth n ts2)
    as [ts3 rfin] eqn:Hfin.
  destruct (turnFinish_spec _ _ _ _ _ _ _ _ _ Hfin) as (post & Hpost & Hallpost & _).
  destruct rfin as [returned|e].
  2:{ intros [= <- <-]. exists pre, loopEvs, post. simpl.
      split_and!; try done.
      - apply turnEvents_app. simpl. by rewrite Hpost, Hloopev, Hpre, <- !app_assoc.
      - intros record err [= <- <-]. simpl. split_and!; eauto.
        apply turnFinish_execId in Hfin. congruence. }
  apply turnFinish_writes in Hfin as [Hreturned Hwrites].
  assert (post = writesOf agentConfig message sessionId depth returned) as Hposteq.
  { rewrite Hpost in Hwrites. by apply app_inv_head in Hwrites. }
  intros [= <- <-]. exists pre, loopEvs, post. simpl.
  split_and!; try done.
  - apply turnEvents_app. simpl. by rewrite Hpost, Hloopev, Hpre, <- !app_assoc.
  - intros e [= <-]. split_and!; [done | | |].
    + rewrite Hreturned. by destruct (decide (maxIterations ≤ n)%nat).
    + by rewrite Hreturned.
    + rewrite Hex1 in Hcases. simpl in Hcases.
      destruct Hcases as [(k & m & resp & Hlast & Hm & Hnone & Hans & Hst & Htok & Hle & He)
                         | (Hfull & Hans & Hst & Htok & He)].
      * left. exists k, m, resp. rewrite Z.add_0_l in Htok, Hle.
        split_and!; try done.
        -- rewrite Hreturned. by destruct (decide (maxIterations ≤ n)%nat).
        -- rewrite Hreturned. by destruct (decide (maxIterations ≤ n)%nat).
        -- rewrite Hreturned, <- Hn.
           destruct (decide (maxIterations ≤ n)%nat); simpl; [done |].
           by rewrite Hst, He.
      * right. rewrite Hreturned, Hn, Hfull.
        rewrite decide_True by done. simpl. by split_and!.
Qed.

Lemma loop_calls_no_persist (evs : list Event) :
  Forall isLoopCall evs → Forall (λ ev, ¬ isPersist ev) evs.
Proof.
  intros H. eapply Forall_impl; [exact H |].
  intros ev [Hev | Hev] Hp; destruct ev; simpl in *; done.
Qed.

Lemma setup_calls_no_persist (evs : list Event) :
  Forall isSetupCall evs → Forall (λ ev, ¬ isPersist ev) evs.
Proof.
  intros H. eapply Forall_impl; [exact H |].
  intros ev Hev Hp. destruct ev; simpl in *; done.
Qed.

(** One call of [execute], at any depth, read off the calls of the turn. *)
Lemma execute_summary (cfg : Settings) (W : EngineWorld) (agentConfig : AgentConfig)
    (message sessionId : string) (parentId : option string) (depth : Z)
    (st st' : EngineState) (outcome : TurnOutcome) :
  execute cfg W agentConfig message sessionId parentId depth st = (st', outcome) →
  (length (modelCalls (turnEvents st st')) ≤ maxIterations)%nat ∧
  (∀ i k m, modelCalls (turnEvents st st') !! i = Some (k, m) → k = S i) ∧
  (∀ k m, modelCalls (turnEvents st st') !! 0%nat = Some (k, m) →
     ∃ history, getConversationHistory W sessionId = Ok history ∧
                m = history ++ [{| role := "user"; content := TextContent message |}]) ∧
  (∀ i k m k' m',
      modelCalls (turnEvents st st') !! i = Some (k, m) →
      modelCalls (turnEvents st st') !! S i = Some (k', m') →
      ∃ tools resp,
        getToolsForAgent W (toolIds agentConfig) = Ok tools ∧
        invokeModel W k m = Ok resp ∧ extractToolCalls resp ≠ [] ∧
        m' = nextMessages W tools k m resp) ∧
  (∀ e, outcome = Returned e →
     (∃ before,
         turnEvents st st' = before ++ writesOf agentConfig message sessionId depth e ∧
         Forall (λ ev, ¬ isPersist ev) before) ∧
     execId e = newExecutionId W ∧
     executionTimeMs e = elapsedMs W ∧
     ((∃ k m resp,
          last (modelCalls (turnEvents st st')) = Some (k, m) ∧
          invokeModel W k m = Ok resp ∧ extractToolCalls resp = [] ∧
          agentResponse e = Some (extractTextResponse resp) ∧
          tokensUsed e = usageIssued W (turnEvents st st') ∧
          usageIssued W (turnEvents st st') ≤ maxTokenLimit cfg ∧
          (if decide (maxIterations ≤ length (modelCalls (turnEvents st st')))%nat
           then execStatus e = FAILED ∧ errorMessage e = Some "Max iterations exceeded"
           else execStatus e = COMPLETED ∧ errorMessage e = None))
      ∨ (length (modelCalls (turnEvents st st')) = maxIterations ∧
         agentResponse e = None ∧ tokensUsed e = 0 ∧
         execStatus e = FAILED ∧ errorMessage e = Some "Max iterations exceeded"))) ∧
  (∀ record err, outcome = Aborted record err →
     execStatus record = FAILED ∧ execId record = newExecutionId W ∧
     ∃ e, err = AgentExecutionError ("Agent execution failed: " +:+ exnStr e) ∧
          errorMessage record = Some (exnStr e)) ∧
  (∀ e, outcome = Rejected e →
     maxRecursionDepth cfg ≤ depth ∧
     e = RecursionDepthExceeded depth (maxRecursionDepth cfg) ∧ st' = st) ∧
  (depth < maxRecursionDepth cfg →
   activeExecutions st' = delete (newExecutionId W) (activeExecutions st) ∧
   ∀ e, outcome ≠ Rejected e).
Proof.
  intros Hrun.
  destruct (decide (depth < maxRecursionDepth cfg)) as [Hdepth | Hdepth].
  2:{ unfold execute in Hrun. rewrite (proj2 (Z.leb_le _ _)) in Hrun by lia.
      injection Hrun as <- <-.
      assert (turnEvents st st = []) as ->.
      { apply turnEvents_app. by rewrite app_nil_r. }
      simpl. split_and!; try done.
      - lia.
      - intros e [= <-]. split_and!; [lia | done | done]. }
  destruct (execute_calls _ _ _ _ _ _ _ _ _ _ Hdepth Hrun)
    as (pre & loopEvs & post & Hevs & Hpre & Hloop & Hpost & Hactive & Hlen & Hnum
        & Hfirst & Hnext & Hret & Habort & Hnorej).
  assert (Hcalls : modelCalls (turnEvents st st') = modelCalls loopEvs).
  { rewrite Hevs, !modelCalls_app.
    rewrite (modelCalls_none pre) by by apply setup_calls_no_model.
    rewrite (modelCalls_none post) by by apply persist_calls_no_model.
    by rewrite app_nil_r. }
  assert (Husage : usageIssued W (turnEvents st st') = usageIssued W loopEvs).
  { rewrite Hevs, !usageIssued_app.
    rewrite (usageIssued_no_model W pre) by by apply setup_calls_no_model.
    rewrite (usageIssued_no_model W post) by by apply persist_calls_no_model.
    lia. }
  rewrite Hcalls, Husage.
  split_and!; try done.
  - intros e He. destruct (Hret e He) as (Hwrites & Hid & Htime & Hcases).
    split_and!; try done.
    exists (pre ++ loopEvs). rewrite Hevs, <- Hwrites, <- app_assoc. split; [done |].
    apply Forall_app. split;
      [by apply setup_calls_no_persist | by apply loop_calls_no_persist].
  - intros e He. exfalso. by eapply Hnorej.
Qed.



Lemma fst_calls_seq (calls : list (nat * list Message)) :
  (∀ i k m, calls !! i = Some (k, m) → k = S i) →
  calls.*1 = seq 1 (length calls).
Proof.
  intros Hnum. apply list_eq. intros i. rewrite list_lookup_fmap.
  destruct (calls !! i) as [[k m]|] eqn:Hi; simpl.
  - rewrite (Hnum i k m Hi). symmetry. apply lookup_seq.
    split; [done |]. by apply lookup_lt_Some in Hi.
  - symmetry. apply lookup_seq_ge. by apply lookup_ge_None in Hi.
Qed.

(** X9. In one call of [execute], whatever the collaborators do, the model
    is called at most ten times, and its calls are the iterations 1, 2,
    ..., n in this order, none skipped and none repeated. *)
Theorem model_calls_are_numbered_and_bounded (cfg : Settings) (W : EngineWorld)
    (agentConfig : AgentConfig) (message sessionId : string)
    (parentId : option string) (depth : Z) (st : EngineState) :
  ∃ n,
    (n ≤ 10)%nat ∧
    (modelCalls
       (turnEvents st
          (execute cfg W agentConfig message sessionId parentId depth st).1)).*1
    = seq 1 n.
Proof.
  destruct (execute cfg W agentConfig message sessionId parentId depth st)
    as [st' outcome] eqn:Hrun.
  destruct (execute_summary _ _ _ _ _ _ _ _ _ _ Hrun) as (Hlen & Hnum & _).
  exists (length (modelCalls (turnEvents st st'))). split; [done |].
  by apply fst_calls_seq.
Qed.

(** X10. Within a turn the conversation sent to the model only grows. The
    first model call is made with the stored history followed by the
    user's message. Each further call is made with the messages of the
    call before it, followed by the assistant turn holding the content
    blocks of the model's previous answer and by one tool-result message
    for each tool request of that answer, in request order. *)
Theorem conversation_is_append_only (cfg : Settings) (W : EngineWorld)
    (agentConfig : AgentConfig) (message sessionId : string)
    (parentId : option string) (depth : Z) (st st' : EngineState)
    (outcome : TurnOutcome) :
  execute cfg W agentConfig message sessionId parentId depth st = (st', outcome) →
  (∀ k m, modelCalls (turnEvents st st') !! 0%nat = Some (k, m) →
     ∃ history, getConversationHistory W sessionId = Ok history ∧
                m = history ++ [{| role := "user"; content := TextContent message |}]) ∧
  (∀ i k m k' m',
      modelCalls (turnEvents st st') !! i = Some (k, m) →
      modelCalls (turnEvents st st') !! S i = Some (k', m') →
      ∃ tools resp,
        getToolsForAgent W (toolIds agentConfig) = Ok tools ∧
        invokeModel W k m = Ok resp ∧ extractToolCalls resp ≠ [] ∧
        m' = m ++ [{| role := "assistant"; content := BlocksContent (respContent resp) |}]
               ++ (toolMessage W tools k <$> extractToolCalls resp) ∧
        m `prefix_of` m').
Proof.
  intros Hrun.
  destruct (execute_summary _ _ _ _ _ _ _ _ _ _ Hrun) as (_ & _ & Hfirst & Hnext & _).
  split; [done |].
  intros i k m k' m' Hi Hsi.
  destruct (Hnext i k m k' m' Hi Hsi) as (tools & resp & Htools & Hresp & Hcalls & ->).
  exists tools, resp. split_and!; try done. unfold nextMessages. by eexists.
Qed.

Lemma conversation_is_append_only_witness :
  ∃ tools resp,
    getToolsForAgent toolWorld (toolIds sampleAgent) = Ok tools ∧
    invokeModel toolWorld 1 [{| role := "user"; content := TextContent "hi" |}] = Ok resp ∧
    extractToolCalls resp ≠ [] ∧
    [{| role := "user"; content := TextContent "hi" |};
     {| role := "assistant"; content := BlocksContent (respContent twoRequests) |};
     {| role := "user";
        content := ToolResultContent "tu-1" (jsonErrorDict "tool failed") |};
     {| role := "user";
        content := ToolResultContent "tu-2" (jsonErrorDict "Tool search not found") |};
     {| role := "user"; content := ToolResultContent "tu-3" "42" |}]
    = [{| role := "user"; content := TextContent "hi" |}]
        ++ [{| role := "assistant"; content := BlocksContent (respContent resp) |}]
        ++ (toolMessage toolWorld tools 1 <$> extractToolCalls resp).
Proof.
  pose (run := execute defaultSettings toolWorld sampleAgent "hi" "s" None 0 idleEngine).
  destruct (conversation_is_append_only defaultSettings toolWorld sampleAgent "hi" "s"
              None 0 idleEngine run.1 run.2) as [_ Hnext].
  - apply surjective_pairing.
  - destruct (Hnext 0%nat 1%nat [{| role := "user"; content := TextContent "hi" |}]
                2%nat
                [{| role := "user"; content := TextContent "hi" |};
                 {| role := "assistant";
                    content := BlocksContent (respContent twoRequests) |};
                 {| role := "user";
                    content := ToolResultContent "tu-1" (jsonErrorDict "tool failed") |};
                 {| role := "user";
                    content := ToolResultContent "tu-2"
                                 (jsonErrorDict "Tool search not found") |};
                 {| role := "user"; content := ToolResultContent "tu-3" "42" |}])
      as (tools & resp & Htools & Hresp & Hcalls & Heq & _).
    + vm_compute. reflexivity.
    + vm_compute. reflexivity.
    + exists tools, resp. by split_and!.
Defined.

(** X11. The usage a returned record reports. When the turn ended on an
    answer, [tokensUsed] is the cumulative usage of the turn's model calls,
    and it is within the token ceiling. When the turn used up its ten
    iterations without an answer, [tokensUsed] is still 0, whatever the
    ten model calls consumed. *)
Theorem tokens_used_only_on_answer (cfg : Settings) (W : EngineWorld)
    (agentConfig : AgentConfig) (message sessionId : string)
    (parentId : option string) (depth : Z) (st st' : EngineState)
    (e : AgentExecution) :
  execute cfg W agentConfig message sessionId parentId depth st = (st', Returned e) →
  match agentResponse e with
  | Some _ =>
      tokensUsed e = usageIssued W (turnEvents st st') ∧
      tokensUsed e ≤ maxTokenLimit cfg
  | None =>
      tokensUsed e = 0 ∧ execStatus e = FAILED ∧
      length (modelCalls (turnEvents st st')) = 10%nat
  end.
Proof.
  intros Hrun.
  destruct (execute_summary _ _ _ _ _ _ _ _ _ _ Hrun) as (_ & _ & _ & _ & Hret & _).
  destruct (Hret e eq_refl) as (_ & _ & _ & Hcases).
  destruct Hcases as [(k & m & resp & _ & _ & _ & -> & Htok & Hle & _)
                     | (Hfull & -> & Htok & Hst & _)].
  - split; [done | lia].
  - by split_and!.
Qed.

Lemma tokens_used_only_on_answer_witness :
  ∃ st' e,
    execute defaultSettings (scriptedWorld neverAnswers) sampleAgent "hi" "s" None 0
            idleEngine = (st', Returned e) ∧
    usageIssued (scriptedWorld neverAnswers) (turnEvents idleEngine st') = 1000 ∧
    tokensUsed e = 0.
Proof.
  destruct (execute defaultSettings (scriptedWorld neverAnswers) sampleAgent "hi" "s"
                    None 0 idleEngine) as [st' out] eqn:Hrun.
  assert (Hout : out = (execute defaultSettings (scriptedWorld neverAnswers)
                                sampleAgent "hi" "s" None 0 idleEngine).2)
    by (by rewrite Hrun).
  assert (Hst : st' = (execute defaultSettings (scriptedWorld neverAnswers)
                               sampleAgent "hi" "s" None 0 idleEngine).1)
    by (by rewrite Hrun).
  destruct out as [e | |]; try (vm_compute in Hout; discriminate Hout).
  exists st', e. split; [reflexivity |].
  pose proof (tokens_used_only_on_answer defaultSettings (scriptedWorld neverAnswers)
                sampleAgent "hi" "s" None 0 idleEngine st' e Hrun) as Hused.
  assert (agentResponse e = None) as Hnone.
  { vm_compute in Hout. by injection Hout as ->. }
  rewrite Hnone in Hused. destruct Hused as (Hzero & _).
  split; [| exact Hzero]. rewrite Hst. vm_compute. reflexivity.
Defined.

(** X12. The writes of a turn that returns its record, exactly: after all
    other calls of the turn, the user message is appended to the
    conversation; then, when the record carries a non-empty answer, the
    assistant message with that answer is appended and one episodic record
    is stored, and nothing else is written. The episodic record carries
    the user message, the answer, the names of the tools called in the
    turn, the outcome ["success"] exactly when the record's status is
    COMPLETED, and the top-level importance exactly at depth 0. *)
Theorem returned_turn_writes (cfg : Settings) (W : EngineWorld)
    (agentConfig : AgentConfig) (message sessionId : string)
    (parentId : option string) (depth : Z) (st st' : EngineState)
    (e : AgentExecution) :
  execute cfg W agentConfig message sessionId parentId depth st = (st', Returned e) →
  (∃ before,
      turnEvents st st' = before ++ writesOf agentConfig message sessionId depth e ∧
      Forall (λ ev, ¬ isPersist ev) before) ∧
  (∀ interaction, StoreInteraction interaction ∈ turnEvents st st' →
     agentResponse e = Some (intAgentResponse interaction) ∧
     intUserMessage interaction = message ∧
     intSessionId interaction = sessionId ∧
     intToolsUsed interaction = tcName <$> execToolCalls e ∧
     (intOutcome interaction = "success" ↔ execStatus e = COMPLETED) ∧
     (intTopLevel interaction = true ↔ depth = 0)).
Proof.
  intros Hrun.
  destruct (execute_summary _ _ _ _ _ _ _ _ _ _ Hrun) as (_ & _ & _ & _ & Hret & _).
  destruct (Hret e eq_refl) as ((before & Hevs & Hnone) & _).
  split; [by exists before |].
  intros interaction Hin. rewrite Hevs in Hin.
  apply elem_of_app in Hin as [Hin | Hin].
  { exfalso. rewrite Forall_forall in Hnone. by apply (Hnone _ Hin). }
  unfold writesOf in Hin.
  apply elem_of_cons in Hin as [Hin | Hin]; [discriminate Hin |].
  destruct (agentResponse e) as [[|c text]|] eqn:Hresp;
    try (by apply elem_of_nil in Hin).
  apply elem_of_cons in Hin as [Hin | Hin]; [discriminate Hin |].
  apply list_elem_of_singleton in Hin. injection Hin as ->.
  unfold interactionOf. simpl. split_and!; try done.
  - destruct (execStatus e); split; done.
  - apply bool_decide_eq_true.
Qed.

Lemma returned_turn_writes_witness :
  ∃ st' e,
    execute defaultSettings (scriptedWorld answerOnLastIteration) sampleAgent "hi" "s"
            None 0 idleEngine = (st', Returned e) ∧
    ∃ before,
      turnEvents idleEngine st'
      = before
        ++ [AppendToConversation "s" {| role := "user"; content := TextContent "hi" |};
            AppendToConversation "s"
              {| role := "assistant"; content := TextContent "final answer" |};
            StoreInteraction
              {| intSessionId := "s"; intAgentId := "agent-1"; intUserMessage := "hi";
                 intAgentResponse := "final answer";
                 intToolsUsed := ["lookup"; "lookup"; "lookup"; "lookup"; "lookup";
                                  "lookup"; "lookup"; "lookup"; "lookup"];
                 intOutcome := "failed"; intTopLevel := true |}].
Proof.
  destruct (execute defaultSettings (scriptedWorld answerOnLastIteration) sampleAgent
                    "hi" "s" None 0 idleEngine) as [st' out] eqn:Hrun.
  assert (Hout : out = (execute defaultSettings (scriptedWorld answerOnLastIteration)
                                sampleAgent "hi" "s" None 0 idleEngine).2)
    by (by rewrite Hrun).
  destruct out as [e | |]; try (vm_compute in Hout; discriminate Hout).
  exists st', e. split; [reflexivity |].
  destruct (returned_turn_writes defaultSettings (scriptedWorld answerOnLastIteration)
              sampleAgent "hi" "s" None 0 idleEngine st' e Hrun)
    as [(before & Hevs & _) _].
  exists before. rewrite Hevs. f_equal.
  vm_compute in Hout. injection Hout as ->. vm_compute. reflexivity.
Defined.

(** X13. How a call of [execute] can end, whatever the collaborators do.
    It raises [RecursionDepthExceeded] exactly at or above the depth
    ceiling, leaving the engine as it was. Below the ceiling it either
    returns a record that is settled (COMPLETED with an answer and no
    error message, or FAILED with the message "Max iterations exceeded"
    after ten model calls; never RUNNING), or raises [AgentExecutionError]
    with the message "Agent execution failed: " followed by the text of
    the exception that ended the turn, the record being FAILED with that
    text as its error message. In both cases the record is the one
    registered for the turn, and it is no longer in [_activeExecutions]. *)
Theorem execute_outcome_contract (cfg : Settings) (W : EngineWorld)
    (agentConfig : AgentConfig) (message sessionId : string)
    (parentId : option string) (depth : Z) (st st' : EngineState)
    (outcome : TurnOutcome) :
  execute cfg W agentConfig message sessionId parentId depth st = (st', outcome) →
  match outcome with
  | Rejected x =>
      maxRecursionDepth cfg ≤ depth ∧
      x = RecursionDepthExceeded depth (maxRecursionDepth cfg) ∧ st' = st
  | Returned e =>
      depth < maxRecursionDepth cfg ∧
      execId e = newExecutionId W ∧
      activeExecutions st' = delete (newExecutionId W) (activeExecutions st) ∧
      ((execStatus e = COMPLETED ∧ errorMessage e = None ∧ is_Some (agentResponse e))
       ∨ (execStatus e = FAILED ∧ errorMessage e = Some "Max iterations exceeded" ∧
          length (modelCalls (turnEvents st st')) = 10%nat))
  | Aborted record err =>
      depth < maxRecursionDepth cfg ∧
      execId record = newExecutionId W ∧
      activeExecutions st' = delete (newExecutionId W) (activeExecutions st) ∧
      execStatus record = FAILED ∧
      ∃ e, err = AgentExecutionError ("Agent execution failed: " +:+ exnStr e) ∧
           errorMessage record = Some (exnStr e)
  end.
Proof.
  intros Hrun.
  destruct (execute_summary _ _ _ _ _ _ _ _ _ _ Hrun)
    as (Hlen & _ & _ & _ & Hret & Habort & Hrej & Hbelow).
  destruct outcome as [e | x | record err].
  - destruct (decide (depth < maxRecursionDepth cfg)) as [Hdepth | Hdepth].
    2:{ exfalso. unfold execute in Hrun.
        rewrite (proj2 (Z.leb_le _ _)) in Hrun by lia. discriminate Hrun. }
    destruct (Hbelow Hdepth) as [Hactive _].
    destruct (Hret e eq_refl) as (_ & Hid & _ & Hcases).
    split_and!; try done.
    destruct Hcases as [(k & m & resp & _ & _ & _ & Hans & _ & _ & Hst)
                       | (Hfull & _ & _ & Hst & Hmsg)].
    + destruct (decide (maxIterations ≤ length (modelCalls (turnEvents st st')))%nat)
        as [Hmax | Hmax].
      * right. destruct Hst as [-> ->]. split_and!; try done.
        unfold maxIterations in *. lia.
      * left. destruct Hst as [-> ->]. rewrite Hans. by split_and!.
    + right. by split_and!.
  - by apply Hrej.
  - destruct (decide (depth < maxRecursionDepth cfg)) as [Hdepth | Hdepth].
    2:{ exfalso. unfold execute in Hrun.
        rewrite (proj2 (Z.leb_le _ _)) in Hrun by lia. discriminate Hrun. }
    destruct (Hbelow Hdepth) as [Hactive _].
    destruct (Habort record err eq_refl) as (Hst & Hid & e & -> & Hmsg).
    split_and!; try done. by exists e.
Qed.

Lemma execute_outcome_contract_witness :
  ∃ st' e,
    execute defaultSettings (scriptedWorld answersAtOnce) sampleAgent "hi" "s" None 0
            {| issued := []; activeExecutions := {[ "exec-0" := createdExecution
                  (scriptedWorld answersAtOnce) sampleAgent "earlier" "s" None 0 ]} |}
    = (st', Returned e) ∧
    execStatus e = COMPLETED ∧
    activeExecutions st'
    = delete "exec-1"
        ({[ "exec-0" := createdExecution (scriptedWorld answersAtOnce) sampleAgent
                          "earlier" "s" None 0 ]} : gmap string AgentExecution).
Proof.
  destruct (execute defaultSettings (scriptedWorld answersAtOnce) sampleAgent "hi" "s"
              None 0
              {| issued := []; activeExecutions := {[ "exec-0" := createdExecution
                    (scriptedWorld answersAtOnce) sampleAgent "earlier" "s" None 0 ]} |})
    as [st' out] eqn:Hrun.
  pose proof (execute_outcome_contract _ _ _ _ _ _ _ _ _ _ Hrun) as Hcontract.
  assert (Hout : ∃ e, out = Returned e ∧ execStatus e = COMPLETED).
  { assert (out = (execute defaultSettings (scriptedWorld answersAtOnce) sampleAgent
                           "hi" "s" None 0
                           {| issued := [];
                              activeExecutions := {[ "exec-0" := createdExecution
                                (scriptedWorld answersAtOnce) sampleAgent "earlier" "s"
                                None 0 ]} |}).2) as -> by (by rewrite Hrun).
    eexists. split; vm_compute; reflexivity. }
  destruct Hout as (e & -> & Hst).
  exists st', e. destruct Hcontract as (_ & _ & Hactive & _). by split_and!.
Defined.

(** X14. What of the context bundle reaches the system prompt: the first
    five semantic facts and the procedural names, and nothing else. Two
    bundles that agree on these give the same prompt: the working-memory
    snapshot, the episodic records and the semantic records after the
    fifth are retrieved and counted but never shown to the model. *)
Theorem prompt_uses_five_facts_and_patterns (agentConfig : AgentConfig)
    (context context' : Context) :
  memContent <$> take 5 (semantic context) = memContent <$> take 5 (semantic context') →
  procedural context = procedural context' →
  buildSystemPrompt agentConfig context = buildSystemPrompt agentConfig context'.
Proof.
  intros Hsem Hproc. unfold buildSystemPrompt. rewrite Hproc.
  assert (Hfacts : ∀ l : list MemoryRecord,
            (λ mem, "- " +:+ memContent mem) <$> take 5 l
            = (λ c, "- " +:+ c) <$> (memContent <$> take 5 l)).
  { intros l. by rewrite <- list_fmap_compose. }
  rewrite !Hfacts, Hsem.
  destruct (semantic context) as [|m l] eqn:H1;
    destruct (semantic context') as [|m' l'] eqn:H2; try done.
Qed.

Lemma prompt_uses_five_facts_and_patterns_witness :
  buildSystemPrompt sampleAgent
    {| working := "w"; episodic := [ {| memId := "e1"; memContent := "earlier talk" |} ];
       semantic := (λ c, {| memId := c; memContent := c |})
                   <$> ["a"; "b"; "c"; "d"; "e"; "f"; "g"];
       procedural := ["p"]; totalTokens := 7 |}
  = buildSystemPrompt sampleAgent
      {| working := ""; episodic := [];
         semantic := (λ c, {| memId := c; memContent := c |})
                     <$> ["a"; "b"; "c"; "d"; "e"];
         procedural := ["p"]; totalTokens := 0 |}.
Proof.
  apply (prompt_uses_five_facts_and_patterns sampleAgent); reflexivity.
Defined.

(** ** More on context assembly *)

Lemma countTokens_nonneg (text : string) : 0 ≤ countTokens text.
Proof. unfold countTokens. apply Z.div_pos; lia. Qed.

Lemma tierTokens_app (l1 l2 : list MemoryRecord) :
  tierTokens (l1 ++ l2) = tierTokens l1 + tierTokens l2.
Proof. induction l1 as [|m l1 IH]; simpl; [done | rewrite IH; lia]. Qed.

(** The inclusion loop takes a prefix of the records, and the first record
    it leaves out is one that does not fit. *)
Lemma includeWhileFits_prefix (maxTokens : Z) (memories included : list MemoryRecord)
    (total : Z) :
  ∃ n,
    (n ≤ length memories)%nat ∧
    includeWhileFits maxTokens memories included total
    = (included ++ take n memories, total + tierTokens (take n memories)) ∧
    (∀ m, memories !! n = Some m →
       maxTokens ≤ total + tierTokens (take n memories) + countTokens (memContent m)).
Proof.
  revert included total.
  induction memories as [|memory rest IH]; intros included total; simpl.
  - exists 0%nat. simpl. rewrite app_nil_r, Z.add_0_r. by split_and!.
  - destruct (total + countTokens (memContent memory) <? maxTokens) eqn:Hfits.
    + destruct (IH (included ++ [memory]) (total + countTokens (memContent memory)))
        as (n & Hn & Heq & Hnext).
      exists (S n). simpl. rewrite Heq, <- app_assoc. simpl.
      split_and!; [lia | f_equal; lia |].
      intros m Hm. specialize (Hnext m Hm). lia.
    + exists 0%nat. simpl. rewrite app_nil_r, Z.add_0_r.
      split_and!; [lia | done |].
      intros m [= <-]. apply Z.ltb_ge in Hfits. lia.
Qed.

(** One returning call of [retrieveContext], tier by tier. *)
Lemma retrieveContext_tiers (cfg : Settings) (W : MemoryWorld)
    (sessionId query : string) (maxTokens : Z) (tr tr' : list MemoryEvent)
    (ctx : Context) :
  retrieveContext cfg W sessionId query maxTokens tr = (tr', Ok ctx) →
  workingGetAll W sessionId = Ok (working ctx) ∧
  (∃ patterns, proceduralSearch W 5 = Ok patterns ∧
               procedural ctx = procName <$> take 3 patterns) ∧
  (if countTokens (working ctx) <? maxTokens
   then ∃ recent n,
          retrieveBySession W sessionId 10 = Ok recent ∧
          (n ≤ length recent)%nat ∧ episodic ctx = take n recent ∧
          (∀ m, recent !! n = Some m →
             maxTokens ≤ consumedBeforeSemantic ctx + countTokens (memContent m))
   else episodic ctx = []) ∧
  (∃ threshold,
      intMulFloat maxTokens seventyPercent = Ok threshold ∧
      if intLtFloat (consumedBeforeSemantic ctx) threshold
      then ∃ found n,
             semanticSearch W query (topKSemanticRetrieval cfg) = Ok found ∧
             (n ≤ length (rankMemories W found query))%nat ∧
             semantic ctx = take n (rankMemories W found query) ∧
             (∀ m, rankMemories W found query !! n = Some m →
                maxTokens ≤ totalTokens ctx + countTokens (memContent m))
      else semantic ctx = []).
Proof.
  unfold retrieveContext, mbind, M_bind, mret, M_ret, call, liftRes.
  destruct (workingGetAll W sessionId) as [workingCtx|]; [| done].
  rewrite Z.add_0_l.
  destruct (countTokens workingCtx <? maxTokens) eqn:Hw.
  - destruct (retrieveBySession W sessionId 10) as [recent|]; [| done].
    destruct (includeWhileFits_prefix maxTokens recent [] (countTokens workingCtx))
      as (n1 & Hn1 & Heq1 & Hnext1).
    rewrite Heq1. simpl.
    destruct (intMulFloat maxTokens seventyPercent) as [threshold|]; [| done].
    destruct (intLtFloat (countTokens workingCtx + tierTokens (take n1 recent)) threshold)
      eqn:Hlt.
    + destruct (semanticSearch W query (topKSemanticRetrieval cfg)) as [found|]; [| done].
      destruct (includeWhileFits_prefix maxTokens (rankMemories W found query) []
                  (countTokens workingCtx + tierTokens (take n1 recent)))
        as (n2 & Hn2 & Heq2 & Hnext2).
      rewrite Heq2. simpl.
      destruct (proceduralSearch W 5) as [patterns|]; [| done].
      intros [= <- <-]. unfold consumedBeforeSemantic. simpl. rewrite Hw.
      split_and!; [done | by exists patterns | by exists recent, n1 |].
      exists threshold. split; [done |]. rewrite Hlt. by exists found, n2.
    + destruct (proceduralSearch W 5) as [patterns|]; [| done].
      intros [= <- <-]. unfold consumedBeforeSemantic. simpl. rewrite Hw.
      split_and!; [done | by exists patterns | by exists recent, n1 |].
      exists threshold. by rewrite Hlt.
  - simpl.
    destruct (intMulFloat maxTokens seventyPercent) as [threshold|]; [| done].
    destruct (intLtFloat (countTokens workingCtx) threshold) eqn:Hlt.
    + destruct (semanticSearch W query (topKSemanticRetrieval cfg)) as [found|]; [| done].
      destruct (includeWhileFits_prefix maxTokens (rankMemories W found query) []
                  (countTokens workingCtx)) as (n2 & Hn2 & Heq2 & Hnext2).
      rewrite Heq2. simpl.
      destruct (proceduralSearch W 5) as [patterns|]; [| done].
      intros [= <- <-]. unfold consumedBeforeSemantic. simpl.
      rewrite Z.add_0_r, Hw.
      split_and!; [done | by exists patterns | done |].
      exists threshold. split; [done |]. rewrite Hlt. by exists found, n2.
    + destruct (proceduralSearch W 5) as [patterns|]; [| done].
      intros [= <- <-]. unfold consumedBeforeSemantic. simpl.
      rewrite Z.add_0_r, Hw.
      split_and!; [done | by exists patterns | done |].
      exists threshold. by rewrite Hlt.
Qed.

(** X15. Each tier of a returned bundle is a prefix of what its store
    returned (for the semantic tier, of the ranked list): inclusion stops
    at the first record that does not fit and never resumes, so a smaller
    record behind it is not taken. The first episodic record left out does
    not fit within the budget after the working and episodic tiers; when
    the semantic store was searched, the first ranked record left out does
    not fit after the whole bundle. *)
Theorem tiers_are_greedy_prefixes (cfg : Settings) (W : MemoryWorld)
    (sessionId query : string) (maxTokens : Z) (tr' : list MemoryEvent)
    (ctx : Context) :
  retrieveContext cfg W sessionId query maxTokens [] = (tr', Ok ctx) →
  (∀ recent, retrieveBySession W sessionId 10 = Ok recent →
     episodic ctx `prefix_of` recent ∧
     ∀ m, recent !! length (episodic ctx) = Some m →
       maxTokens ≤ consumedBeforeSemantic ctx + countTokens (memContent m)) ∧
  (∀ found, semanticSearch W query (topKSemanticRetrieval cfg) = Ok found →
     semantic ctx `prefix_of` rankMemories W found query ∧
     (SemanticSearch query (topKSemanticRetrieval cfg) ∈ tr' →
      ∀ m, rankMemories W found query !! length (semantic ctx) = Some m →
        maxTokens ≤ totalTokens ctx + countTokens (memContent m))).
Proof.
  intros Hrun.
  pose proof (retrieveContext_tiers _ _ _ _ _ _ _ _ Hrun)
    as (_ & _ & Hepi & threshold & Hthr & Hsem).
  assert (Hfetched : SemanticSearch query (topKSemanticRetrieval cfg) ∈ tr' →
                     intLtFloat (consumedBeforeSemantic ctx) threshold = true).
  { intros Hin.
    apply retrieveContext_returns in Hrun
      as (threshold' & fetched & Hthr' & _ & _ & _ & Hfetch & ->).
    assert (threshold' = threshold) as -> by congruence.
    destruct (intLtFloat (consumedBeforeSemantic ctx) threshold); [done |].
    destruct Hfetch as [-> _]. exfalso. revert Hin. rewrite !elem_of_app.
    destruct (countTokens (working ctx) <? maxTokens);
      rewrite ?elem_of_cons, ?elem_of_nil; naive_solver. }
  split.
  - intros recent Hrecent.
    destruct (countTokens (working ctx) <? maxTokens) eqn:Hw.
    + destruct Hepi as (recent' & n & Hrecent' & Hn & -> & Hnext).
      rewrite Hrecent in Hrecent'. injection Hrecent' as <-.
      split; [apply prefix_take |].
      rewrite length_take_le by done. exact Hnext.
    + rewrite Hepi. split; [apply prefix_nil |].
      intros m _. apply Z.ltb_ge in Hw. unfold consumedBeforeSemantic.
      rewrite Hepi. simpl. pose proof (countTokens_nonneg (memContent m)). lia.
  - intros found Hfound.
    destruct (intLtFloat (consumedBeforeSemantic ctx) threshold) eqn:Hlt.
    + destruct Hsem as (found' & n & Hfound' & Hn & -> & Hnext).
      rewrite Hfound in Hfound'. injection Hfound' as <-.
      split; [apply prefix_take |].
      intros _. rewrite length_take_le by done. exact Hnext.
    + rewrite Hsem. split; [apply prefix_nil |].
      intros Hin. apply Hfetched in Hin. congruence.
Qed.

Lemma tiers_are_greedy_prefixes_witness :
  ∃ tr' ctx,
    retrieveContext defaultSettings crowdedMemoryWorld "s" "q" 10 [] = (tr', Ok ctx) ∧
    episodic ctx = [ {| memId := "e1"; memContent := "abcdefgh" |} ] ∧
    episodic ctx `prefix_of` [ {| memId := "e1"; memContent := "abcdefgh" |};
                               {| memId := "e2"; memContent := rendering 10 |};
                               {| memId := "e3"; memContent := "abcd" |} ].
Proof.
  eexists _, _. split; [vm_compute; reflexivity |]. split; [reflexivity |].
  eapply (tiers_are_greedy_prefixes defaultSettings crowdedMemoryWorld "s" "q" 10).
  - vm_compute. reflexivity.
  - reflexivity.
Defined.

(** X16. The procedural tier of a returned bundle: the store is asked for
    five patterns, as the last call of the assembly and whatever the
    budget; the bundle keeps the names of the first three, and their cost
    is not counted in [totalTokens], which is the cost of the other three
    tiers. *)
Theorem procedural_names_are_first_three (cfg : Settings) (W : MemoryWorld)
    (sessionId query : string) (maxTokens : Z) (tr tr' : list MemoryEvent)
    (ctx : Context) :
  retrieveContext cfg W sessionId query maxTokens tr = (tr', Ok ctx) →
  ∃ patterns,
    proceduralSearch W 5 = Ok patterns ∧
    procedural ctx = procName <$> take 3 patterns ∧
    (length (procedural ctx) ≤ 3)%nat ∧
    last tr' = Some (ProceduralSearch 5) ∧
    totalTokens ctx
    = countTokens (working ctx) + tierTokens (episodic ctx) + tierTokens (semantic ctx).
Proof.
  intros Hrun.
  pose proof (retrieveContext_tiers _ _ _ _ _ _ _ _ Hrun)
    as (_ & (patterns & Hsearch & Hproc) & _).
  apply retrieveContext_returns in Hrun
    as (threshold & fetched & _ & _ & Htotal & _ & _ & ->).
  exists patterns. split_and!; try done.
  - rewrite Hproc, length_fmap, length_take. lia.
  - rewrite !app_assoc. apply last_snoc.
Qed.

Lemma procedural_names_are_first_three_witness :
  ∃ tr' ctx,
    retrieveContext defaultSettings crowdedMemoryWorld "s" "q" 0 [] = (tr', Ok ctx) ∧
    procedural ctx = ["p1"; "p2"; "p3"] ∧
    last tr' = Some (ProceduralSearch 5).
Proof.
  eexists _, _. split; [vm_compute; reflexivity |].
  destruct (procedural_names_are_first_three defaultSettings crowdedMemoryWorld "s" "q"
              0 []
              [WorkingGetAll "s"; ProceduralSearch 5]
              {| working := ""; episodic := []; semantic := [];
                 procedural := ["p1"; "p2"; "p3"]; totalTokens := 0 |})
    as (patterns & _ & _ & _ & Hlast & _).
  - vm_compute. reflexivity.
  - split; [reflexivity | exact Hlast].
Defined.

(** X17. When the working-memory snapshot alone costs the budget or more
    (for a budget up to 20000, or the default one), no other tier is
    filled: the episodic and the semantic store are not read, the bundle
    holds the snapshot and the procedural names only, and [totalTokens] is
    the snapshot's cost. *)
Theorem over_budget_snapshot_reads_nothing_else (cfg : Settings) (W : MemoryWorld)
    (sessionId query : string) (maxTokens : Z) (tr' : list MemoryEvent)
    (ctx : Context) :
  checkedBudget maxTokens →
  retrieveContext cfg W sessionId query maxTokens [] = (tr', Ok ctx) →
  maxTokens ≤ countTokens (working ctx) →
  tr' = [WorkingGetAll sessionId; ProceduralSearch 5] ∧
  episodic ctx = [] ∧ semantic ctx = [] ∧
  totalTokens ctx = countTokens (working ctx).
Proof.
  intros Hbudget Hrun Hover.
  pose proof (retrieveContext_tiers _ _ _ _ _ _ _ _ Hrun) as (_ & _ & Hepi & _).
  apply retrieveContext_returns in Hrun
    as (threshold & fetched & Hthr & _ & Htotal & _ & Hfetch & ->).
  rewrite (proj2 (Z.ltb_ge _ _)) in Hepi |- * by done.
  assert (consumedBeforeSemantic ctx = countTokens (working ctx)) as Hconsumed.
  { unfold consumedBeforeSemantic. rewrite Hepi. simpl. lia. }
  destruct (seventyPercent_exact maxTokens (consumedBeforeSemantic ctx) Hbudget)
    as (threshold' & Hthr' & Hexact).
  assert (threshold' = threshold) as -> by congruence.
  assert (0 ≤ maxTokens) as Hnonneg
    by (destruct Hbudget as [? | ->]; [lia | by vm_compute]).
  destruct (intLtFloat (consumedBeforeSemantic ctx) threshold) eqn:Hlt.
  { exfalso. assert (10 * consumedBeforeSemantic ctx < 7 * maxTokens)
      by (by apply Hexact). lia. }
  destruct Hfetch as [-> Hsem]. rewrite Hsem in Htotal. simpl in Htotal.
  split_and!; try done. lia.
Qed.

Lemma over_budget_snapshot_reads_nothing_else_witness :
  ∃ tr' ctx,
    retrieveContext defaultSettings (sampleMemoryWorld (rendering 10)) "s" "q" 4 []
    = (tr', Ok ctx) ∧
    tr' = [WorkingGetAll "s"; ProceduralSearch 5] ∧
    totalTokens ctx = 10.
Proof.
  eexists _, _. split; [vm_compute; reflexivity |].
  destruct (over_budget_snapshot_reads_nothing_else defaultSettings
              (sampleMemoryWorld (rendering 10)) "s" "q" 4
              [WorkingGetAll "s"; ProceduralSearch 5]
              {| working := rendering 10; episodic := []; semantic := [];
                 procedural := []; totalTokens := 10 |})
    as (Htr & _ & _ & Htotal).
  - left. lia.
  - vm_compute. reflexivity.
  - vm_compute. discriminate.
  - split; [exact Htr | reflexivity].
Defined.

(** ** Decomposition and synthesis *)

(** The loop over the entries: it returns when every entry builds, with
    one task per entry in order; it raises what the first entry that does
    not build raises. *)
Lemma buildTasks_spec (W : OrchestrationWorld) (entries : list Json) :
  ∀ (index : nat) (tasks : list TaskDecomposition),
    (∃ new,
        buildTasks W index entries tasks = Done (tasks ++ new) ∧
        length new = length entries ∧
        ∀ i t, new !! i = Some t →
          ∃ entry, entries !! i = Some entry ∧
                   buildTask W (index + i) entry = Done t) ∨
    (∃ i entry e,
        buildTasks W index entries tasks = Thrown e ∧
        entries !! i = Some entry ∧
        buildTask W (index + i) entry = Thrown e ∧
        ∀ j earlier, (j < i)%nat → entries !! j = Some earlier →
          ∃ t, buildTask W (index + j) earlier = Done t).
Proof.
  induction entries as [|taskData rest IH]; intros index tasks.
  - left. exists []. simpl. rewrite app_nil_r. split_and!; try done.
  - simpl. destruct (buildTask W index taskData) as [task|e] eqn:Hbuild.
    + destruct (IH (S index) (tasks ++ [task]))
        as [(new & Hrun & Hlen & Hall) | (i & entry & e & Hrun & Hi & He & Hearlier)].
      * left. exists (task :: new). rewrite Hrun, <- app_assoc. simpl.
        split_and!; [done | lia |].
        intros [|i] t Ht; simpl in Ht.
        -- injection Ht as <-. exists taskData. by rewrite Nat.add_0_r.
        -- destruct (Hall i t Ht) as (entry & Hentry & Hb).
           exists entry. split; [done |]. by rewrite Nat.add_succ_r.
      * right. exists (S i), entry, e. rewrite Hrun. simpl.
        split_and!; try done.
        -- by rewrite Nat.add_succ_r.
        -- intros [|j] earlier Hj Hlook; simpl in Hlook.
           ++ injection Hlook as <-. exists task. by rewrite Nat.add_0_r.
           ++ destruct (Hearlier j earlier ltac:(lia) Hlook) as [t Ht].
              exists t. by rewrite Nat.add_succ_r.
    + right. exists 0%nat, taskData, e. rewrite Nat.add_0_r.
      split_and!; try done. intros j earlier Hj. lia.
Qed.

Lemma buildTask_fields (W : OrchestrationWorld) (index : nat) (taskData : Json)
    (t : TaskDecomposition) :
  buildTask W index taskData = Done t →
  taskId t = newTaskId W index ∧ status t = IDLE ∧ result t = None ∧
  ∃ fields typeName,
    taskData = JObject fields ∧
    assocGet "agentType" fields = Some typeName ∧
    agentTypeOfValue typeName = Some (assignedAgentType t).
Proof.
  unfold buildTask, subscript.
  destruct taskData as [| | | | |items|fields]; try done.
  destruct (assocGet "description" fields) as [describedAs|]; [| done].
  destruct (assocGet "agentType" fields) as [typeName|] eqn:Htype; [| done].
  destruct (agentTypeOfValue typeName) as [assigned|] eqn:Hassigned; [| done].
  destruct (validateTask W _ _ _ _) as [[[[text deps] prio] tokens]|]; [| done].
  intros [= <-]. simpl. split_and!; try done. by exists fields, typeName.
Qed.

(** X18. A decomposition is all or nothing. When [_decomposeTask] returns
    a list that is not empty, the list has one task for every entry of the
    model's "tasks" value, in order: never a part of them. The task made
    from entry [i] carries the [i]-th id drawn, the status IDLE and no
    result, and its agent type is the member whose value the entry's
    "agentType" spells. *)
Theorem decomposition_is_all_or_nothing (W : OrchestrationWorld)
    (userRequest : string) (tasks : list TaskDecomposition) :
  decomposeTask W userRequest = Done tasks →
  tasks ≠ [] →
  ∃ response fields tasksList entries,
    decompositionModel W userRequest = Ok response ∧
    jsonLoads W (extractTextResponse response) = Ok (JObject fields) ∧
    assocGet "tasks" fields = Some tasksList ∧
    iterate tasksList = Some entries ∧
    length tasks = length entries ∧
    ∀ i t, tasks !! i = Some t →
      taskId t = newTaskId W i ∧ status t = IDLE ∧ result t = None ∧
      ∃ entryFields typeName,
        entries !! i = Some (JObject entryFields) ∧
        assocGet "agentType" entryFields = Some typeName ∧
        agentTypeOfValue typeName = Some (assignedAgentType t).
Proof.
  unfold decomposeTask, parseDecomposition.
  destruct (decompositionModel W userRequest) as [response|]; [| done].
  destruct (jsonLoads W (extractTextResponse response)) as [data|e] eqn:Hloads.
  2:{ destruct e; simpl; try done; by intros [= <-]. }
  destruct data as [| | | | |items|fields]; try done.
  destruct (assocGet "tasks" fields) as [tasksList|] eqn:Hget.
  2:{ simpl. by intros [= <-]. }
  simpl. destruct (truthy tasksList); [| simpl; by intros [= <-]].
  destruct (iterate tasksList) as [entries|] eqn:Hiter; [| done].
  destruct (buildTasks_spec W entries 0 [])
    as [(new & Hrun & Hlen & Hall) | (i & entry & e & Hrun & _)]; rewrite Hrun.
  - simpl. intros [= <-] Hne.
    exists response, fields, tasksList, entries.
    split; [done |]. split; [done |]. split; [done |]. split; [done |].
    split; [done |].
    intros i t Ht. destruct (Hall i t Ht) as (entry & Hentry & Hbuild).
    simpl in Hbuild.
    apply buildTask_fields in Hbuild
      as (Hid & Hst & Hres & entryFields & typeName & -> & Htype & Hassigned).
    split_and!; try done. by exists entryFields, typeName.
  - destruct e as [[]| |]; simpl; try done; by intros [= <-].
Qed.

Lemma decomposition_is_all_or_nothing_witness :
  ∃ tasks,
    decomposeTask (sampleOrchestrationWorld (Ok twoEntries)) "request" = Done tasks ∧
    taskId <$> tasks = ["task-0"; "task-1"] ∧
    dependencies <$> tasks = [[]; ["taskId1"]].
Proof.
  destruct (decomposeTask (sampleOrchestrationWorld (Ok twoEntries)) "request")
    as [tasks|e] eqn:Hrun; [| vm_compute in Hrun; discriminate Hrun].
  exists tasks. split; [reflexivity |].
  destruct (decomposition_is_all_or_nothing
              (sampleOrchestrationWorld (Ok twoEntries)) "request" tasks Hrun)
    as (response & fields & tasksList & entries & _ & _ & _ & _ & Hlen & _).
  - vm_compute in Hrun. injection Hrun as <-. discriminate.
  - vm_compute in Hrun. injection Hrun as <-. split; vm_compute; reflexivity.
Defined.

Lemma buildTask_errors (W : OrchestrationWorld) (index : nat) (taskData : Json)
    (e : PyExn) :
  buildTask W index taskData = Thrown e →
  match taskData with
  | JObject _ => exceptDecodeErrors (Thrown e) = Done []
  | _ => e = TypeError
  end.
Proof.
  unfold buildTask, subscript.
  destruct taskData as [| | | | |items|fields]; try (by intros [= <-]).
  destruct (assocGet "description" fields) as [describedAs|]; [| by intros [= <-]].
  destruct (assocGet "agentType" fields) as [typeName|]; [| by intros [= <-]].
  destruct (agentTypeOfValue typeName) as [assigned|]; [| by intros [= <-]].
  destruct (validateTask W _ _ _ _) as [[[[text deps] prio] tokens]|];
    [done | by intros [= <-]].
Qed.

(** X19. What [_decomposeTask] does with an answer it cannot use. Text
    that is not JSON gives the empty list. So does a list of entries whose
    first unusable entry is an object (a key is missing, the agent type is
    not the value of a member, or the schema rejects a field), whatever
    the entries before it were. But JSON that is not an object raises
    [AttributeError], and a first unusable entry that is not an object
    raises [TypeError]: these two are not caught. *)
Theorem decomposition_failure_modes (W : OrchestrationWorld) (userRequest : string)
    (response : Response) :
  decompositionModel W userRequest = Ok response →
  (∀ message,
      jsonLoads W (extractTextResponse response) = Raise (ValueError message) →
      decomposeTask W userRequest = Done []) ∧
  (∀ data,
      jsonLoads W (extractTextResponse response) = Ok data →
      (∀ fields, data ≠ JObject fields) →
      decomposeTask W userRequest = Thrown AttributeError) ∧
  (∀ fields tasksList entries i entry e,
      jsonLoads W (extractTextResponse response) = Ok (JObject fields) →
      assocGet "tasks" fields = Some tasksList →
      truthy tasksList = true →
      iterate tasksList = Some entries →
      entries !! i = Some entry →
      buildTask W i entry = Thrown e →
      (∀ j earlier, (j < i)%nat → entries !! j = Some earlier →
         ∃ t, buildTask W j earlier = Done t) →
      decomposeTask W userRequest
      = match entry with
        | JObject _ => Done []
        | _ => Thrown TypeError
        end).
Proof.
  intros Hmodel. unfold decomposeTask, parseDecomposition. rewrite Hmodel.
  split_and!.
  - by intros message ->.
  - intros data -> Hshape. destruct data; try done. by destruct (Hshape fields).
  - intros fields tasksList entries i entry e -> Hget Htruthy Hiter Hi Hbuild Hearlier.
    rewrite Hget. simpl. rewrite Htruthy, Hiter.
    destruct (buildTasks_spec W entries 0 [])
      as [(new & Hrun & Hlen & Hall) | (i' & entry' & e' & Hrun & Hi' & He' & Hearlier')].
    + exfalso.
      destruct (new !! i) as [t|] eqn:Hnew.
      * destruct (Hall i t Hnew) as (entry0 & Hentry0 & Hdone).
        simpl in Hdone. congruence.
      * apply lookup_ge_None in Hnew. apply lookup_lt_Some in Hi. lia.
    + simpl in He', Hearlier'.
      assert (i' = i) as ->.
      { destruct (Nat.lt_trichotomy i' i) as [Hlt | [Heq | Hgt]]; [| done |].
        - destruct (Hearlier i' entry' Hlt Hi') as [t Ht]. congruence.
        - destruct (Hearlier' i entry Hgt Hi) as [t Ht]. congruence. }
      assert (entry' = entry) as -> by congruence.
      assert (e' = e) as -> by congruence.
      rewrite Hrun. apply buildTask_errors in Hbuild.
      destruct entry; try (by rewrite Hbuild).
Qed.

Lemma decomposition_failure_modes_witness :
  decomposeTask (sampleOrchestrationWorld (Ok upperCaseEntry)) "request" = Done [] ∧
  decomposeTask (sampleOrchestrationWorld (Ok (JArray []))) "request"
  = Thrown AttributeError.
Proof.
  split.
  - destruct (decomposition_failure_modes (sampleOrchestrationWorld (Ok upperCaseEntry))
                "request" (textResponse "{}" 10) eq_refl) as (_ & _ & Hentry).
    apply (Hentry [("tasks", JArray [entryOf "query the sales" "sql_agent" [];
                                     entryOf "chart them" "BI_AGENT" []])]
                  (JArray [entryOf "query the sales" "sql_agent" [];
                           entryOf "chart them" "BI_AGENT" []])
                  [entryOf "query the sales" "sql_agent" [];
                   entryOf "chart them" "BI_AGENT" []]
                  1%nat (entryOf "chart them" "BI_AGENT" [])
                  (EngineRaised (ValueError "not a valid AgentType")));
      try reflexivity.
    intros [|j] earlier Hj Hlook; [| lia].
    injection Hlook as <-. eexists. vm_compute. reflexivity.
  - destruct (decomposition_failure_modes (sampleOrchestrationWorld (Ok (JArray [])))
                "request" (textResponse "{}" 10) eq_refl) as (_ & Hshape & _).
    apply (Hshape (JArray [])); [reflexivity | discriminate].
Defined.


Lemma runSequential_outcome (exec : TaskDecomposition → res ResultEntry)
    (tasks : list TaskDecomposition) (st : ExecutorState) :
  (runSequential exec tasks st).2 ≠ NeverReturns.
Proof.
  revert st. induction tasks as [|t tasks IH]; intros st; simpl; [done |].
  destruct (exec t); [apply IH | done].
Qed.


(** At a depth ceiling of 1 or below no subtask can run: awaiting
    [_executeTask] raises. *)
Lemma executeTask_shallow (cfg : Settings) (W : OrchestratorWorld)
    (sessionId : string) (task : TaskDecomposition) :
  maxRecursionDepth cfg ≤ 1 →
  ∃ e, executeTask cfg W sessionId task = Raise e.
Proof.
  intros Hdepth. unfold executeTask.
  destruct (getByType W (assignedAgentType task)) as [found|e]; [| by exists e].
  destruct (match found with
            | Some agent => Ok agent
            | None => createDefaultAgent W (assignedAgentType task)
            end) as [agent|e]; [| by exists e].
  unfold execute. rewrite (proj2 (Z.leb_le _ _)) by done. simpl. by eexists.
Qed.

(** X20. With [maxRecursionDepth] at 1 or below, a request that is
    decomposed into subtasks is never answered: the subtasks and the
    synthesis turn run at depth 1, where the engine refuses them. The call
    ends with an exception or, under a semaphore without permits, never. *)
Theorem orchestrate_needs_depth_above_one (cfg : Settings)
    (order : gset string → list string) (W : OrchestrationWorld)
    (userRequest sessionId : string) (tasks : list TaskDecomposition) :
  (∀ s, order s ≡ₚ elements s) →
  maxRecursionDepth cfg ≤ 1 →
  decomposeTask W userRequest = Done tasks →
  tasks ≠ [] →
  orchestrate cfg order W userRequest sessionId = Some Hangs ∨
  ∃ e, orchestrate cfg order W userRequest sessionId = Some (Failed e).
Proof.
  intros Horder Hdepth Hdecompose Hne. unfold orchestrate.
  destruct (getOrCreateOrchestrator (registryWorld W)) as [agent|e]; [| right; by eexists].
  rewrite Hdecompose. destruct tasks as [|t tasks]; [done |].
  destruct (plan_summary order (t :: tasks) Horder) as (plan & -> & _).
  destruct (executeParallelTasks cfg (registryWorld W) sessionId plan)
    as [st [| e |]] eqn:Hrun; [| right; by eexists | by left].
  right. unfold synthesizeResults.
  destruct (dumpResults W (results st)) as [dumped|]; [| by eexists].
  unfold execute. rewrite (proj2 (Z.leb_le _ _)) by done. simpl. by eexists.
Qed.

Lemma orchestrate_needs_depth_above_one_witness :
  ∃ e,
    orchestrate {| maxRecursionDepth := 1; maxParallelAgents := 10;
                   maxTokenLimit := 100000; maxContextTokens := 200000;
                   topKSemanticRetrieval := 10 |}
                elements (sampleOrchestrationWorld (Ok twoEntries)) "request" "s"
    = Some (Failed e).
Proof.
  destruct (orchestrate_needs_depth_above_one
              {| maxRecursionDepth := 1; maxParallelAgents := 10;
                 maxTokenLimit := 100000; maxContextTokens := 200000;
                 topKSemanticRetrieval := 10 |}
              elements (sampleOrchestrationWorld (Ok twoEntries)) "request" "s"
              [ {| taskId := "task-0"; description := "query the sales";
                   assignedAgentType := SQL_AGENT; dependencies := [];
                   priority := 1; estimatedTokens := 1000; status := IDLE;
                   result := None |};
                {| taskId := "task-1"; description := "chart them";
                   assignedAgentType := BI_AGENT; dependencies := ["taskId1"];
                   priority := 1; estimatedTokens := 1000; status := IDLE;
                   result := None |} ])
    as [Hhangs | Hfailed].
  - intros s. reflexivity.
  - simpl. lia.
  - vm_compute. reflexivity.
  - discriminate.
  - vm_compute in Hhangs. discriminate Hhangs.
  - exact Hfailed.
Defined.



(** ** Loading an agent's tools *)

Lemma splitOn_nonempty (sep : Ascii.ascii) (s : string) : splitOn sep s ≠ [].
Proof.
  destruct s as [|c rest]; simpl; [done |].
  destruct (decide (c = sep)); [done |]. by destruct (splitOn sep rest).
Qed.

Lemma join_cons_cons (sep part : string) (parts : list string) :
  parts ≠ [] → join sep (part :: parts) = part +:+ sep +:+ join sep parts.
Proof. by destruct parts. Qed.

(** Splitting and joining again gives the string back. *)
Lemma splitOn_join (sep : Ascii.ascii) (s : string) :
  join (String sep EmptyString) (splitOn sep s) = s.
Proof.
  induction s as [|c rest IH]; [done |].
  simpl. destruct (decide (c = sep)) as [-> | Hne].
  - rewrite join_cons_cons by apply splitOn_nonempty. simpl. by rewrite IH.
  - pose proof (splitOn_nonempty sep rest) as Hparts.
    destruct (splitOn sep rest) as [|part parts]; [done |].
    destruct parts as [|part' parts].
    + simpl in *. by rewrite IH.
    + rewrite join_cons_cons by done. rewrite join_cons_cons in IH by done.
      rewrite <- IH. reflexivity.
Qed.

Lemma splitOn_no_sep (sep : Ascii.ascii) (s : string) :
  sep ∉ String.list_ascii_of_string s → splitOn sep s = [s].
Proof.
  induction s as [|c rest IH]; [done |].
  simpl. intros Hnot. apply not_elem_of_cons in Hnot as [Hne Hnot].
  destruct (decide (c = sep)) as [-> | _]; [done |]. by rewrite IH.
Qed.

Lemma splitOn_app (sep : Ascii.ascii) (name rest : string) :
  sep ∉ String.list_ascii_of_string name →
  splitOn sep (name +:+ String sep rest) = name :: splitOn sep rest.
Proof.
  induction name as [|c name IH]; simpl.
  - intros _. by rewrite decide_True.
  - intros Hnot. apply not_elem_of_cons in Hnot as [Hne Hnot].
    destruct (decide (c = sep)) as [-> | _]; [done |]. by rewrite IH.
Qed.

Lemma splitOn_head_no_sep (sep : Ascii.ascii) (s : string) :
  sep ∉ String.list_ascii_of_string
          match splitOn sep s with
          | part :: _ => part
          | [] => ""
          end.
Proof.
  induction s as [|c s IH]; simpl.
  - apply not_elem_of_nil.
  - destruct (decide (c = sep)) as [-> | Hne]; [apply not_elem_of_nil |].
    pose proof (splitOn_nonempty sep s) as Hparts.
    destruct (splitOn sep s) as [|part parts]; [done |].
    simpl. apply not_elem_of_cons. split; [by intros -> | exact IH].
Qed.

(** X22. How a tool id is read. An id without a colon names version
    1.0.0 of the tool; in [name:version] (no colon in [name], none in
    [version]) the two are found again; whatever follows a second colon is
    ignored. A tool whose name holds a colon cannot be named by an id:
    the name read is always free of colons. *)
Theorem tool_id_parsing (toolName version rest : string) :
  colon ∉ String.list_ascii_of_string toolName →
  colon ∉ String.list_ascii_of_string version →
  (toolIdName toolName = toolName ∧ toolIdVersion toolName = "1.0.0") ∧
  (toolIdName (toolName +:+ ":" +:+ version) = toolName ∧
   toolIdVersion (toolName +:+ ":" +:+ version) = version) ∧
  (toolIdName (toolName +:+ ":" +:+ version +:+ ":" +:+ rest) = toolName ∧
   toolIdVersion (toolName +:+ ":" +:+ version +:+ ":" +:+ rest) = version) ∧
  (∀ toolId, colon ∉ String.list_ascii_of_string (toolIdName toolId)).
Proof.
  intros Hname Hversion. unfold toolIdName, toolIdVersion.
  split_and!.
  - by rewrite splitOn_no_sep.
  - by rewrite splitOn_no_sep.
  - change (toolName +:+ ":" +:+ version) with (toolName +:+ String colon version).
    by rewrite splitOn_app.
  - change (toolName +:+ ":" +:+ version) with (toolName +:+ String colon version).
    rewrite splitOn_app by done. by rewrite splitOn_no_sep.
  - change (toolName +:+ ":" +:+ version +:+ ":" +:+ rest)
      with (toolName +:+ String colon (version +:+ String colon rest)).
    by rewrite splitOn_app.
  - change (toolName +:+ ":" +:+ version +:+ ":" +:+ rest)
      with (toolName +:+ String colon (version +:+ String colon rest)).
    rewrite splitOn_app by done. by rewrite splitOn_app.
  - intros toolId. apply splitOn_head_no_sep.
Qed.

Lemma tool_id_parsing_witness :
  toolIdName "lookup:2.1.0" = "lookup" ∧ toolIdVersion "lookup:2.1.0" = "2.1.0".
Proof.
  destruct (tool_id_parsing "lookup" "2.1.0" "") as (_ & Hpair & _).
  - vm_compute. intros Hin. repeat (apply elem_of_cons in Hin as [Hin | Hin];
      [discriminate Hin |]). by apply elem_of_nil in Hin.
  - vm_compute. intros Hin. repeat (apply elem_of_cons in Hin as [Hin | Hin];
      [discriminate Hin |]). by apply elem_of_nil in Hin.
  - exact Hpair.
Defined.

Lemma loadTools_spec (W : RegistryWorld) (toolIds : list string) :
  ∀ tools,
    (loadTools W toolIds tools = Ok (tools ++ omap (loaded W) toolIds) ∧
     ∀ toolId e, toolId ∈ toolIds → ¬ lookupFails W toolId e) ∨
    (∃ before toolId after e,
        toolIds = before ++ toolId :: after ∧
        loadTools W toolIds tools = Raise e ∧
        lookupFails W toolId e ∧
        ∀ earlier e', earlier ∈ before → ¬ lookupFails W earlier e').
Proof.
  induction toolIds as [|toolId rest IH]; intros tools.
  - left. simpl. rewrite app_nil_r. split; [done |].
    intros toolId e Hin. by apply elem_of_nil in Hin.
  - simpl. unfold loaded at 1, lookupFails.
    destruct (resolveVersion W toolId) as [version|e] eqn:Hresolve.
    2:{ right. exists [], toolId, rest, e. split_and!; try done; [by left |].
        intros earlier e' Hin. by apply elem_of_nil in Hin. }
    assert (Hhere : ∀ e, get W (toolIdName toolId) version ≠ LookupRaises e →
              ¬ (resolveVersion W toolId = Raise e ∨
                 ∃ version0, resolveVersion W toolId = Ok version0 ∧
                   get W (toolIdName toolId) version0 = LookupRaises e)).
    { intros e Hget [Hraise | (version0 & Hv & Hfail)]; [congruence |].
      rewrite Hresolve in Hv. injection Hv as <-. done. }
    destruct (get W (toolIdName toolId) version) as [tool| |e] eqn:Hget.
    + destruct (IH (tools ++ [tool]))
        as [[Hrun Hnone] | (before & failing & after & e & -> & Hrun & Hfail & Hearlier)].
      * left. rewrite Hrun, <- app_assoc. split; [done |].
        intros id e Hin. apply elem_of_cons in Hin as [-> | Hin]; [| by apply Hnone].
        fold (lookupFails W toolId e). unfold lookupFails. by apply Hhere.
      * right. exists (toolId :: before), failing, after, e. split_and!; try done.
        intros earlier e' Hin. apply elem_of_cons in Hin as [-> | Hin];
          [| by apply Hearlier].
        unfold lookupFails. by apply Hhere.
    + destruct (IH tools)
        as [[Hrun Hnone] | (before & failing & after & e & -> & Hrun & Hfail & Hearlier)].
      * left. rewrite Hrun. split; [done |].
        intros id e Hin. apply elem_of_cons in Hin as [-> | Hin]; [| by apply Hnone].
        unfold lookupFails. by apply Hhere.
      * right. exists (toolId :: before), failing, after, e. split_and!; try done.
        intros earlier e' Hin. apply elem_of_cons in Hin as [-> | Hin];
          [| by apply Hearlier].
        unfold lookupFails. by apply Hhere.
    + right. exists [], toolId, rest, e. split_and!; try done.
      * right. by exists version.
      * intros earlier e' Hin. by apply elem_of_nil in Hin.
Qed.

(** X23. Loading an agent's tools never fails because a tool is missing.
    When no lookup raises anything but [ToolNotFound], the call returns
    the tools that were found, in the order of the ids, and an id whose
    tool is missing (also ["latest"] of a tool without versions)
    contributes nothing. Any other exception of a lookup ends the call
    and reaches the caller as it is. *)
Theorem missing_tools_are_dropped (W : RegistryWorld) (toolIds : list string) :
  ((∀ toolId e, toolId ∈ toolIds → ¬ lookupFails W toolId e) →
   registryGetToolsForAgent W toolIds = Ok (omap (loaded W) toolIds) ∧
   (length (omap (loaded W) toolIds) ≤ length toolIds)%nat) ∧
  (∀ toolId e, toolId ∈ toolIds → lookupFails W toolId e →
     ∃ e', registryGetToolsForAgent W toolIds = Raise e') ∧
  (∀ toolId, toolIdVersion toolId = "latest" →
     latestVersion W (toolIdName toolId) = Ok None → loaded W toolId = None).
Proof.
  unfold registryGetToolsForAgent. split_and!.
  - intros Hnone.
    destruct (loadTools_spec W toolIds [])
      as [[Hrun _] | (before & failing & after & e & -> & _ & Hfail & _)].
    + split; [done |]. clear. induction toolIds as [|toolId rest IH]; [done |].
      cbn [omap list_omap]. destruct (loaded W toolId); simpl in *; lia.
    + exfalso. apply (Hnone failing e); [| done].
      apply elem_of_app. right. by left.
  - intros toolId e Hin Hfail.
    destruct (loadTools_spec W toolIds [])
      as [[_ Hnone] | (before & failing & after & e' & _ & Hrun & _)].
    + by destruct (Hnone toolId e Hin).
    + by exists e'.
  - intros toolId Hlatest Hnoversion. unfold loaded, resolveVersion.
    rewrite Hlatest. rewrite decide_True by done.
    destruct (latestVersion W (toolIdName toolId)) as [[v|]|e] eqn:Hl; try done.
    unfold get. rewrite decide_True by done. by rewrite Hl.
Qed.

Lemma missing_tools_are_dropped_witness :
  registryGetToolsForAgent sampleRegistry
    ["lookup"; "search:1.0.0"; "lookup:latest"; "ghost:latest"]
  = Ok [ {| toolName := "lookup"; toolDescription := "1.0.0"; inputSchema := "{}" |};
         {| toolName := "lookup"; toolDescription := "2.1.0"; inputSchema := "{}" |} ].
Proof.
  destruct (missing_tools_are_dropped sampleRegistry
              ["lookup"; "search:1.0.0"; "lookup:latest"; "ghost:latest"])
    as (Hok & _).
  destruct Hok as [Hrun _].
  - intros toolId e Hin [Hfail | (version & _ & Hfail)];
      repeat (apply elem_of_cons in Hin as [-> | Hin];
              [vm_compute in Hfail; discriminate Hfail |]);
      try (by apply elem_of_nil in Hin).
    all: revert Hfail; unfold get, sampleRegistry; simpl;
      repeat case_decide; try done.
  - rewrite Hrun. vm_compute. reflexivity.
Defined.

(** ** Tool versions *)

Lemma string_of_uint_digits (d : Decimal.uint) :
  allDigits (NilEmpty.string_of_uint d).
Proof.
  unfold allDigits. induction d; simpl; constructor; (done || exact IHd).
Qed.

Lemma intStr_digits (n : Z) :
  0 ≤ n → allDigits (intStr n) ∧ intStr n ≠ "".
Proof.
  intros Hn. unfold intStr. destruct n as [|p|p]; [| | lia].
  - split; [| done]. repeat constructor.
  - simpl. unfold NilZero.string_of_uint.
    pose proof (DecimalPos.Unsigned.to_uint_nonnil p) as Hnil.
    destruct (Pos.to_uint p) eqn:Hu; try done;
      (split; [rewrite <- Hu; destruct (Pos.to_uint p) eqn:Hv; try done;
               rewrite <- Hv; apply string_of_uint_digits
              | done]).
Qed.

Lemma spanDigits_app (a rest : string) :
  allDigits a →
  match rest with
  | EmptyString => True
  | String c _ => isDigit c = false
  end →
  spanDigits (a +:+ rest) = (a, rest).
Proof.
  unfold allDigits. induction a as [|c a IH]; simpl; intros Hall Hrest.
  - destruct rest as [|c rest]; [done |]. simpl. by rewrite Hrest.
  - apply Forall_cons in Hall as [Hc Hall]. rewrite Hc.
    by rewrite IH.
Qed.

Lemma allDigits_no_dot (a : string) :
  allDigits a → dot ∉ String.list_ascii_of_string a.
Proof.
  unfold allDigits. intros Hall Hin. rewrite Forall_forall in Hall.
  apply Hall in Hin. done.
Qed.

Lemma allDigits_stripNewline (a : string) :
  allDigits a → stripNewline a = a.
Proof.
  unfold allDigits. induction a as [|c a IH]; simpl; [done |].
  intros Hall. apply Forall_cons in Hall as [Hc Hall].
  destruct (decide (String c a = newline)) as [Heq | _].
  - injection Heq as -> _. done.
  - by rewrite IH.
Qed.

(** A version written out from three runs of digits matches the pattern,
    and splits into the three runs. *)
Lemma matchVersion_format (a b c : string) :
  allDigits a → a ≠ "" → allDigits b → b ≠ "" → allDigits c → c ≠ "" →
  matchVersion (a +:+ "." +:+ b +:+ "." +:+ c) = Some (a, b, c) ∧
  splitOn dot (a +:+ "." +:+ b +:+ "." +:+ c) = [a; b; c].
Proof.
  intros Ha Hna Hb Hnb Hc Hnc. split.
  - unfold matchVersion.
    change (a +:+ "." +:+ b +:+ "." +:+ c)
      with (a +:+ String dot (b +:+ String dot c)).
    rewrite (spanDigits_app a) by done.
    destruct a as [|c1 a]; [done |].
    rewrite decide_True by done.
    rewrite (spanDigits_app b) by done.
    destruct b as [|c2 b]; [done |].
    rewrite decide_True by done.
    assert (spanDigits c = (c, "")) as ->.
    { assert (c +:+ "" = c) as Hempty.
      { clear. induction c as [|x c IH]; [done |].
        change (String x c +:+ "") with (String x (c +:+ "")). by rewrite IH. }
      rewrite <- Hempty at 1. by apply spanDigits_app. }
    destruct c as [|c3 c]; [done |].
    rewrite decide_True by (by left). done.
  - change (a +:+ "." +:+ b +:+ "." +:+ c)
      with (a +:+ String dot (b +:+ String dot c)).
    rewrite splitOn_app by by apply allDigits_no_dot.
    rewrite splitOn_app by by apply allDigits_no_dot.
    rewrite splitOn_no_sep by by apply allDigits_no_dot. done.
Qed.

Lemma of_uint_nonneg (d : Decimal.uint) : 0 ≤ Z.of_uint d.
Proof. unfold Z.of_uint. apply N2Z.is_nonneg. Qed.

(** Reading back a number that was written out. *)
Lemma intOfDigits_intStr (n : Z) :
  0 ≤ n → (digitCount n ≤ maxStrDigits)%nat → intOfDigits (intStr n) = Ok n.
Proof.
  intros Hn Hlen. unfold intOfDigits.
  destruct (intStr_digits n Hn) as [Hdigits Hne].
  rewrite (allDigits_stripNewline _ Hdigits).
  unfold digitCount in Hlen. rewrite decide_False by lia.
  unfold intStr in *.
  pose proof (DecimalZ.of_to n) as Hback.
  destruct n as [|p|p]; [done | | lia].
  simpl in *. rewrite NilZero.usu by apply DecimalPos.Unsigned.to_uint_nonnil.
  f_equal. exact Hback.
Qed.

Lemma intOfDigits_nonneg (s : string) (n : Z) : intOfDigits s = Ok n → 0 ≤ n.
Proof.
  unfold intOfDigits. destruct (decide _); [done |].
  destruct (NilZero.uint_of_string _) as [d|]; [| done].
  intros [= <-]. apply of_uint_nonneg.
Qed.

Lemma parseVersionTuple_nonneg (version : string) (a b c : Z) :
  parseVersionTuple version = Ok (a, b, c) → 0 ≤ a ∧ 0 ≤ b ∧ 0 ≤ c.
Proof.
  unfold parseVersionTuple. destruct (validateVersion version).
  2:{ intros [= <- <- <-]. lia. }
  destruct (splitOn dot version) as [|x [|y [|z [|w l]]]]; try done.
  destruct (intOfDigits x) as [a'|] eqn:Hx; [| done].
  destruct (intOfDigits y) as [b'|] eqn:Hy; [| done].
  destruct (intOfDigits z) as [c'|] eqn:Hz; [| done].
  intros [= <- <- <-].
  apply intOfDigits_nonneg in Hx, Hy, Hz. lia.
Qed.

(** Writing a version out and reading it back. *)
Lemma format_then_parse (numbers : Z * Z * Z) :
  printable numbers →
  ∃ version,
    formatVersion numbers = Ok version ∧
    validateVersion version = true ∧
    parseVersionTuple version = Ok numbers.
Proof.
  destruct numbers as [[a b] c]. intros [(Ha & Hb & Hc) (Hla & Hlb & Hlc)].
  unfold formatVersion, strOfInt. unfold digitCount in *.
  rewrite !decide_False by lia.
  eexists. split; [done |].
  destruct (intStr_digits a Ha) as [Hda Hna].
  destruct (intStr_digits b Hb) as [Hdb Hnb].
  destruct (intStr_digits c Hc) as [Hdc Hnc].
  destruct (matchVersion_format _ _ _ Hda Hna Hdb Hnb Hdc Hnc) as [Hmatch Hsplit].
  unfold parseVersionTuple, validateVersion. rewrite Hmatch, Hsplit.
  split; [done |].
  by rewrite !intOfDigits_intStr.
Qed.

Lemma keyLt_bump (releaseType : ToolReleaseType) (current : Z * Z * Z) :
  keyLt current (bump releaseType current) = true.
Proof.
  destruct current as [[a b] c]. destruct releaseType; simpl.
  - rewrite (proj2 (Z.ltb_lt a (a + 1))) by lia. done.
  - rewrite Z.eqb_refl, (proj2 (Z.ltb_lt b (b + 1))) by lia.
    by rewrite orb_true_r.
  - rewrite !Z.eqb_refl, (proj2 (Z.ltb_lt c (c + 1))) by lia.
    by rewrite !orb_true_r.
Qed.

(** X24. The version that follows a version. A string that does not match
    [digits.digits.digits] is refused with [InvalidToolDefinition]. For a
    string that matches (also with leading zeros, or a newline at its
    end), whose numbers after the bump can be written out, the result
    matches the pattern again, reads back as the bumped numbers (major:
    major+1.0.0; minor: major.minor+1.0; patch: major.minor.patch+1), and
    these sort strictly above the current ones. *)
Theorem next_version_is_valid_and_greater (version : string)
    (releaseType : ToolReleaseType) :
  (validateVersion version = false →
   calculateNextVersion version releaseType
   = Refused (InvalidToolDefinition
                ("Invalid tool version '" +:+ version
                 +:+ "'. Expected semantic versioning (major.minor.patch).")
                None)) ∧
  (∀ current,
      validateVersion version = true →
      parseVersionTuple version = Ok current →
      printable (bump releaseType current) →
      ∃ next,
        calculateNextVersion version releaseType = Fine next ∧
        validateVersion next = true ∧
        parseVersionTuple next = Ok (bump releaseType current) ∧
        keyLt current (bump releaseType current) = true).
Proof.
  unfold calculateNextVersion, ensureValidVersion. split.
  - by intros ->.
  - intros current -> -> Hprintable.
    destruct (format_then_parse _ Hprintable) as (next & -> & Hvalid & Hparse).
    exists next. split_and!; try done. apply keyLt_bump.
Qed.

Lemma next_version_is_valid_and_greater_witness :
  ∃ next,
    calculateNextVersion "01.9.3" MINOR = Fine next ∧
    validateVersion next = true ∧
    parseVersionTuple next = Ok (bump MINOR (1, 9, 3)) ∧
    keyLt (1, 9, 3) (bump MINOR (1, 9, 3)) = true.
Proof.
  apply (proj2 (next_version_is_valid_and_greater "01.9.3" MINOR) (1, 9, 3)).
  - vm_compute; reflexivity.
  - vm_compute; reflexivity.
  - vm_compute. split_and!; (discriminate || lia).
Defined.

(** ** The version history *)

Lemma keyLt_true (a b : Z * Z * Z) :
  keyLt a b = true ↔
  a.1.1 < b.1.1 ∨ (a.1.1 = b.1.1 ∧ (a.1.2 < b.1.2 ∨ (a.1.2 = b.1.2 ∧ a.2 < b.2))).
Proof.
  destruct a as [[a1 a2] a3], b as [[b1 b2] b3]. simpl.
  rewrite !orb_true_iff, !andb_true_iff, !orb_true_iff, !andb_true_iff.
  rewrite !Z.ltb_lt, !Z.eqb_eq. tauto.
Qed.

Lemma keyLt_false (a b : Z * Z * Z) :
  keyLt a b = false ↔
  b.1.1 < a.1.1 ∨ (b.1.1 = a.1.1 ∧ (b.1.2 < a.1.2 ∨ (b.1.2 = a.1.2 ∧ b.2 ≤ a.2))).
Proof.
  rewrite <- not_true_iff_false, keyLt_true. lia.
Qed.

Lemma keyLt_asym (a b : Z * Z * Z) : keyLt a b = true → keyLt b a = false.
Proof. rewrite keyLt_true, keyLt_false. lia. Qed.

Lemma keyLt_false_trans (a b c : Z * Z * Z) :
  keyLt a b = false → keyLt b c = false → keyLt a c = false.
Proof. rewrite !keyLt_false. lia. Qed.

Lemma keyLt_le_lt (a b c : Z * Z * Z) :
  keyLt b a = false → keyLt b c = true → keyLt a c = true.
Proof. rewrite keyLt_false, !keyLt_true. lia. Qed.

Lemma insertDescending_perm (entry : (Z * Z * Z) * VersionRecord)
    (sorted : list ((Z * Z * Z) * VersionRecord)) :
  insertDescending entry sorted ≡ₚ entry :: sorted.
Proof.
  induction sorted as [|other rest IH]; simpl; [done |].
  destruct (keyLt entry.1 other.1); [| done].
  rewrite IH. apply Permutation_swap.
Qed.

Lemma sortDescending_perm (entries : list ((Z * Z * Z) * VersionRecord)) :
  sortDescending entries ≡ₚ entries.
Proof.
  induction entries as [|entry rest IH]; simpl; [done |].
  by rewrite insertDescending_perm, IH.
Qed.

Lemma insertDescending_sorted (entry : (Z * Z * Z) * VersionRecord)
    (sorted : list ((Z * Z * Z) * VersionRecord)) :
  StronglySorted (λ a b, keyLt a.1 b.1 = false) sorted →
  StronglySorted (λ a b, keyLt a.1 b.1 = false) (insertDescending entry sorted).
Proof.
  induction 1 as [|other rest Hsorted IH Hall]; simpl.
  - repeat constructor.
  - destruct (keyLt entry.1 other.1) eqn:Hlt.
    + constructor; [exact IH |].
      rewrite insertDescending_perm. constructor; [| exact Hall].
      by apply keyLt_asym.
    + constructor; [by constructor |].
      constructor; [exact Hlt |].
      eapply Forall_impl; [exact Hall |]. simpl. intros later Hlater.
      by eapply keyLt_false_trans.
Qed.

Lemma sortDescending_sorted (entries : list ((Z * Z * Z) * VersionRecord)) :
  StronglySorted (λ a b, keyLt a.1 b.1 = false) (sortDescending entries).
Proof.
  induction entries as [|entry rest IH]; simpl; [constructor |].
  by apply insertDescending_sorted.
Qed.

Lemma versionKeys_spec (items : list VersionRecord)
    (keyed : list ((Z * Z * Z) * VersionRecord)) :
  versionKeys items = Fine keyed →
  snd <$> keyed = items ∧ Forall (λ entry, versionKey entry.2 = Fine entry.1) keyed.
Proof.
  revert keyed. induction items as [|item rest IH]; simpl; intros keyed.
  - intros [= <-]. by split.
  - destruct (versionKey item) as [key|] eqn:Hkey; [| done].
    destruct (versionKeys rest) as [keyedRest|]; [| done].
    intros [= <-]. destruct (IH keyedRest eq_refl) as [Hsnd Hall].
    split; [by rewrite fmap_cons, Hsnd | by constructor].
Qed.

Lemma versionKeys_total (items : list VersionRecord) :
  Forall (λ record, ∃ key, versionKey record = Fine key) items →
  ∃ keyed, versionKeys items = Fine keyed.
Proof.
  induction 1 as [|item rest [key Hkey] _ [keyed IH]]; simpl; [by eexists |].
  rewrite Hkey, IH. by eexists.
Qed.

(** What [_sortVersions] returns: the same records, none sorting below
    one that precedes it. *)
Lemma sortVersions_spec (items sorted : list VersionRecord) :
  sortVersions items = Fine sorted →
  sorted ≡ₚ items ∧ StronglySorted notBelow sorted.
Proof.
  unfold sortVersions. destruct (versionKeys items) as [keyed|] eqn:Hkeys; [| done].
  intros [= <-]. destruct (versionKeys_spec _ _ Hkeys) as [Hsnd Hall].
  split.
  - by rewrite sortDescending_perm, Hsnd.
  - rewrite <- (sortDescending_perm keyed) in Hall.
    pose proof (sortDescending_sorted keyed) as Hsorted.
    induction Hsorted as [|entry rest Hsorted IH Hfirst]; simpl; [constructor |].
    apply Forall_cons in Hall as [Hentry Hall].
    constructor; [by apply IH |].
    rewrite Forall_fmap. rewrite Forall_forall in Hfirst, Hall |- *.
    intros later Hin ka kb Ha Hb. simpl in *.
    rewrite Hentry in Ha. rewrite (Hall _ Hin) in Hb.
    injection Ha as <-. injection Hb as <-. by apply Hfirst.
Qed.

Lemma sortVersions_total (items : list VersionRecord) :
  Forall (λ record, ∃ key, versionKey record = Fine key) items →
  ∃ sorted, sortVersions items = Fine sorted.
Proof.
  intros Hall. unfold sortVersions.
  destruct (versionKeys_total _ Hall) as [keyed ->]. by eexists.
Qed.

Lemma uniqueGet_None (version : string) (unique : list (string * VersionRecord)) :
  uniqueGet version unique = None ↔ version ∉ (fst <$> unique).
Proof.
  induction unique as [|[key record] rest IH]; simpl.
  - split; [intros _; apply not_elem_of_nil | done].
  - rewrite not_elem_of_cons. destruct (decide (key = version)) as [-> | Hne].
    + split; [done | intros [Hne _]; done].
    + rewrite IH. split; [by split | by intros [_ ?]].
Qed.

Lemma uniqueSet_keys (version : string) (record : VersionRecord)
    (unique : list (string * VersionRecord)) :
  (version ∈ (fst <$> unique)
   ∧ (fst <$> uniqueSet version record unique) = (fst <$> unique)) ∨
  ((version ∉ (fst <$> unique))
   ∧ (fst <$> uniqueSet version record unique) = (fst <$> unique) ++ [version]).
Proof.
  induction unique as [|[key old] rest IH].
  - right. split; [apply not_elem_of_nil | done].
  - cbn [uniqueSet]. destruct (decide (key = version)) as [-> | Hne];
      rewrite !fmap_cons; cbn [fst].
    + left. split; [apply list_elem_of_here | done].
    + destruct IH as [[Hin ->] | [Hnin ->]].
      * left. split; [by apply list_elem_of_further | done].
      * right. split; [| done]. rewrite not_elem_of_cons. by split.
Qed.

Lemma uniqueSet_elem (version : string) (record : VersionRecord)
    (unique : list (string * VersionRecord)) (key : string) (held : VersionRecord) :
  NoDup (fst <$> unique) →
  (key, held) ∈ uniqueSet version record unique ↔
  (key = version ∧ held = record) ∨ ((key, held) ∈ unique ∧ key ≠ version).
Proof.
  induction unique as [|[other old] rest IH]; simpl; intros Hnodup.
  - rewrite list_elem_of_singleton. split.
    + intros [= -> ->]. by left.
    + intros [[-> ->] | [Hin _]]; [done | by apply elem_of_nil in Hin].
  - apply NoDup_cons in Hnodup as [Hfresh Hnodup].
    destruct (decide (other = version)) as [-> | Hne].
    + rewrite !elem_of_cons. split.
      * intros [[= -> ->] | Hin]; [by left |].
        right. split; [by right |]. intros ->. apply Hfresh.
        by apply (list_elem_of_fmap_2 fst) in Hin.
      * intros [[-> ->] | [[[= -> ->] | Hin] Hkey]]; [by left | done | by right].
    + rewrite !elem_of_cons, (IH Hnodup). split.
      * intros [[= -> ->] | [[-> ->] | [Hin Hkey]]].
        -- right. split; [by left | done].
        -- by left.
        -- right. split; [by right | done].
      * intros [[-> ->] | [[[= -> ->] | Hin] Hkey]].
        -- right. by left.
        -- by left.
        -- right. right. by split.
Qed.

(** What the dict [unique] holds after the loop has gone through the
    records [seen]. *)
Lemma keepUnique_inv (seen : list VersionRecord) :
  let unique := foldl keepUnique [] seen in
  NoDup (fst <$> unique) ∧
  (∀ version record, (version, record) ∈ unique →
     version ≠ "" ∧ recordVersion record = Some version ∧ record ∈ seen) ∧
  (∀ record version, record ∈ seen → recordVersion record = Some version →
     version ≠ "" → version ∈ (fst <$> unique)) ∧
  (∀ version record other, (version, record) ∈ unique → other ∈ seen →
     recordVersion other = Some version → recordSource other = "tenant" →
     recordSource record = "tenant").
Proof.
  induction seen as [|record seen IH] using rev_ind; simpl.
  - split_and!.
    + constructor.
    + intros ?? Hin. by apply elem_of_nil in Hin.
    + intros ?? Hin. by apply elem_of_nil in Hin.
    + intros ??? Hin. by apply elem_of_nil in Hin.
  - rewrite foldl_app. simpl in *.
    destruct IH as (Hnodup & Hheld & Hkeys & Htenant).
    set (unique := foldl keepUnique [] seen) in *.
    assert (Hskip :
      (∀ version, recordVersion record = Some version → version ≠ "" →
         version ∈ (fst <$> unique) ∧ recordSource record ≠ "tenant") →
      NoDup (fst <$> unique) ∧
      (∀ version held, (version, held) ∈ unique →
         version ≠ "" ∧ recordVersion held = Some version ∧ held ∈ seen ++ [record]) ∧
      (∀ other version, other ∈ seen ++ [record] → recordVersion other = Some version →
         version ≠ "" → version ∈ (fst <$> unique)) ∧
      (∀ version held other, (version, held) ∈ unique → other ∈ seen ++ [record] →
         recordVersion other = Some version → recordSource other = "tenant" →
         recordSource held = "tenant")).
    { intros Hnone. split_and!; [done | | |].
      - intros version held Hin. destruct (Hheld _ _ Hin) as (? & ? & ?).
        split_and!; [done | done |]. apply elem_of_app. by left.
      - intros other version Hin Hversion Hne.
        apply elem_of_app in Hin as [Hin | Hin]; [by eapply Hkeys |].
        apply list_elem_of_singleton in Hin as ->. by apply Hnone.
      - intros version held other Hin Hother Hversion Hsource.
        apply elem_of_app in Hother as [Hother | Hother]; [by eapply Htenant |].
        apply list_elem_of_singleton in Hother as ->.
        destruct (Hheld _ _ Hin) as (Hne & _ & _).
        by destruct (Hnone _ Hversion Hne). }
    assert (Hstore :
      ∀ version, recordVersion record = Some version → version ≠ "" →
      (version ∉ (fst <$> unique) ∨ recordSource record = "tenant") →
      let stored := uniqueSet version record unique in
      NoDup (fst <$> stored) ∧
      (∀ key held, (key, held) ∈ stored →
         key ≠ "" ∧ recordVersion held = Some key ∧ held ∈ seen ++ [record]) ∧
      (∀ other key, other ∈ seen ++ [record] → recordVersion other = Some key →
         key ≠ "" → key ∈ (fst <$> stored)) ∧
      (∀ key held other, (key, held) ∈ stored → other ∈ seen ++ [record] →
         recordVersion other = Some key → recordSource other = "tenant" →
         recordSource held = "tenant")).
    { intros version Hversion Hne Hwhy stored.
      assert (Hkeysof : ∀ key, key ∈ (fst <$> stored) ↔ key = version ∨ key ∈ (fst <$> unique)).
      { intros key. subst stored.
        destruct (uniqueSet_keys version record unique) as [[Hin ->] | [Hnin ->]].
        - split; [by right | intros [-> | ?]; done].
        - rewrite elem_of_app, list_elem_of_singleton. tauto. }
      split_and!.
      - subst stored.
        destruct (uniqueSet_keys version record unique) as [[Hin ->] | [Hnin ->]];
          [done |].
        apply NoDup_app. split_and!; [done | | apply NoDup_singleton].
        intros key Hin ->%list_elem_of_singleton. done.
      - intros key held Hin. apply uniqueSet_elem in Hin; [| done].
        destruct Hin as [[-> ->] | [Hin _]].
        + split_and!; [done | done |]. apply elem_of_app. right.
          by apply list_elem_of_singleton.
        + destruct (Hheld _ _ Hin) as (? & ? & ?).
          split_and!; [done | done |]. apply elem_of_app. by left.
      - intros other key Hin Hother Hkey. apply Hkeysof.
        apply elem_of_app in Hin as [Hin | Hin]; [right; by eapply Hkeys |].
        apply list_elem_of_singleton in Hin as ->. left. congruence.
      - intros key held other Hin Hother Hkey Hsource.
        apply uniqueSet_elem in Hin; [| done].
        destruct Hin as [[-> ->] | [Hin Hdiff]].
        + apply elem_of_app in Hother as [Hother | Hother].
          * destruct Hwhy as [Hnin | Htenantrecord]; [| done].
            exfalso. apply Hnin. by eapply Hkeys.
          * by apply list_elem_of_singleton in Hother as ->.
        + apply elem_of_app in Hother as [Hother | Hother]; [by eapply Htenant |].
          apply list_elem_of_singleton in Hother as ->. congruence. }
    assert (Hcase :
      (keepUnique unique record = unique ∧
       (∀ version, recordVersion record = Some version → version ≠ "" →
          version ∈ (fst <$> unique) ∧ recordSource record ≠ "tenant")) ∨
      (∃ version,
          keepUnique unique record = uniqueSet version record unique ∧
          recordVersion record = Some version ∧ version ≠ "" ∧
          ((version ∉ (fst <$> unique)) ∨ recordSource record = "tenant"))).
    { clear Hskip Hstore. unfold keepUnique.
      destruct (recordVersion record) as [version|] eqn:Hversion; [| by left].
      destruct (decide (version = "")) as [-> | Hne].
      { left. split; [done |]. by intros ? [= <-] ?. }
      destruct (uniqueGet version unique) as [old|] eqn:Hget.
      - destruct (decide (recordSource record = "tenant")) as [Hsource | Hsource].
        + right. exists version. split_and!; [done | done | done | by right].
        + left. split; [done |]. intros ? [= <-] _. split; [| done].
          destruct (decide (version ∈ (fst <$> unique))) as [Hin | Hnin]; [done |].
          apply uniqueGet_None in Hnin. congruence.
      - right. exists version. split_and!; [done | done | done |].
        left. by apply uniqueGet_None. }
    destruct Hcase as [[-> Hnone] | (version & -> & Hversion & Hne & Hwhy)].
    + by apply Hskip.
    + by apply Hstore.
Qed.

Lemma append_empty (s : string) : s +:+ "" = s.
Proof.
  induction s as [|x s IH]; [done |].
  change (String x s +:+ "") with (String x (s +:+ "")). by rewrite IH.
Qed.

Lemma length_append (a b : string) :
  String.length (a +:+ b) = (String.length a + String.length b)%nat.
Proof.
  induction a as [|x a IH]; [done |].
  change (String x a +:+ b) with (String x (a +:+ b)). simpl. by rewrite IH.
Qed.

Lemma list_ascii_of_append (a b : string) :
  String.list_ascii_of_string (a +:+ b)
  = String.list_ascii_of_string a ++ String.list_ascii_of_string b.
Proof.
  induction a as [|x a IH]; [done |].
  change (String x a +:+ b) with (String x (a +:+ b)). simpl. by rewrite IH.
Qed.

Lemma spanDigits_spec (s : string) :
  s = (spanDigits s).1 +:+ (spanDigits s).2 ∧
  allDigits (spanDigits s).1 ∧
  match (spanDigits s).2 with
  | EmptyString => True
  | String c _ => isDigit c = false
  end.
Proof.
  unfold allDigits. induction s as [|c s (Heq & Hall & Hrest)]; simpl.
  - split_and!; [done | constructor | done].
  - destruct (isDigit c) eqn:Hc; simpl.
    + split_and!; [| by constructor | done].
      change (String c (spanDigits s).1 +:+ (spanDigits s).2)
        with (String c ((spanDigits s).1 +:+ (spanDigits s).2)).
      by rewrite <- Heq.
    + split_and!; [done | constructor | done].
Qed.

(** A string that matches the pattern is three runs of digits with dots
    between them, and at most a newline after them. *)
Lemma matchVersion_inv (version a b c : string) :
  matchVersion version = Some (a, b, c) →
  ∃ tail,
    version = a +:+ String dot (b +:+ String dot (c +:+ tail)) ∧
    (tail = "" ∨ tail = newline) ∧
    (allDigits a ∧ a ≠ "") ∧ (allDigits b ∧ b ≠ "") ∧ (allDigits c ∧ c ≠ "").
Proof.
  unfold matchVersion.
  destruct (spanDigits_spec version) as (Hv & Ha & _).
  destruct (spanDigits version) as [[|c1 major] [|sep1 rest1]]; try done.
  destruct (decide (sep1 = dot)) as [-> |]; [| done].
  destruct (spanDigits_spec rest1) as (Hr1 & Hb & _).
  destruct (spanDigits rest1) as [[|c2 minor] [|sep2 rest2]]; try done.
  destruct (decide (sep2 = dot)) as [-> |]; [| done].
  destruct (spanDigits_spec rest2) as (Hr2 & Hc & _).
  destruct (spanDigits rest2) as [[|c3 patch] tail]; try done.
  destruct (decide (tail = "" ∨ tail = newline)) as [Htail |]; [| done].
  intros [= <- <- <-]. exists tail. simpl in *.
  split_and!; try done. by rewrite <- Hr2, <- Hr1.
Qed.

Lemma digit_read (c : Ascii.ascii) (d : Decimal.uint) :
  isDigit c = true → ∃ d', DecimalString.uint_of_char c (Some d) = Some d'.
Proof.
  destruct c as [[] [] [] [] [] [] [] []]; try discriminate; intros _;
    by eexists.
Qed.

Lemma digits_read (s : string) :
  allDigits s → s ≠ "" → ∃ d, NilZero.uint_of_string s = Some d.
Proof.
  intros Hall Hne.
  assert (∃ d, NilEmpty.uint_of_string s = Some d) as [d Hd].
  { clear Hne. unfold allDigits in Hall.
    induction s as [|c s IH]; simpl; [by eexists |].
    simpl in Hall. apply Forall_cons in Hall as [Hc Hall].
    destruct (IH Hall) as [d ->]. by apply digit_read. }
  exists d. by destruct s.
Qed.

Lemma stripNewline_tail (s tail : string) :
  allDigits s → tail = "" ∨ tail = newline → stripNewline (s +:+ tail) = s.
Proof.
  unfold allDigits. intros Hall Htail. induction s as [|c s IH].
  - by destruct Htail as [-> | ->].
  - simpl in Hall. apply Forall_cons in Hall as [Hc Hall].
    change (String c s +:+ tail) with (String c (s +:+ tail)). simpl.
    destruct (decide (String c (s +:+ tail) = newline)) as [Heq | _].
    + injection Heq as -> _. done.
    + by rewrite IH.
Qed.

Lemma intOfDigits_total (s tail : string) :
  allDigits s → s ≠ "" → tail = "" ∨ tail = newline →
  (String.length s ≤ maxStrDigits)%nat →
  ∃ n, intOfDigits (s +:+ tail) = Ok n.
Proof.
  intros Hall Hne Htail Hlen. unfold intOfDigits.
  rewrite stripNewline_tail by done.
  rewrite decide_False by lia.
  destruct (digits_read s Hall Hne) as [d ->]. by eexists.
Qed.

(** The numbers of a version can be read unless it is longer than the
    conversion limit. *)
Lemma parseVersionTuple_total (version : string) :
  (String.length version ≤ maxStrDigits)%nat →
  ∃ key, parseVersionTuple version = Ok key.
Proof.
  intros Hlen. unfold parseVersionTuple, validateVersion.
  destruct (matchVersion version) as [[[a b] c]|] eqn:Hmatch; [| by eexists].
  apply matchVersion_inv in Hmatch
    as (tail & -> & Htail & [Ha Hna] & [Hb Hnb] & [Hc Hnc]).
  rewrite !length_append in Hlen. simpl in Hlen. rewrite !length_append in Hlen.
  simpl in Hlen. rewrite length_append in Hlen.
  rewrite splitOn_app by by apply allDigits_no_dot.
  rewrite splitOn_app by by apply allDigits_no_dot.
  rewrite splitOn_no_sep.
  2:{ rewrite list_ascii_of_append. intros Hin.
      apply elem_of_app in Hin as [Hin | Hin]; [by apply allDigits_no_dot in Hin |].
      destruct Htail as [-> | ->]; simpl in Hin.
      - by apply elem_of_nil in Hin.
      - by apply list_elem_of_singleton in Hin. }
  destruct (intOfDigits_total a "" Ha Hna) as [x Hx]; [by left | lia |].
  rewrite append_empty in Hx. rewrite Hx.
  destruct (intOfDigits_total b "" Hb Hnb) as [y Hy]; [by left | lia |].
  rewrite append_empty in Hy. rewrite Hy.
  destruct (intOfDigits_total c tail Hc Hnc) as [z ->]; [done | lia |].
  by eexists.
Qed.

(** What the loop of [getVersionHistory] keeps of the records it is given. *)
Lemma uniqueRecords_spec (versions : list VersionRecord) :
  NoDup (recordVersion <$> uniqueRecords versions) ∧
  (∀ kept, kept ∈ uniqueRecords versions →
     kept ∈ versions ∧ ∃ version, recordVersion kept = Some version ∧ version ≠ "") ∧
  (∀ record version, record ∈ versions → recordVersion record = Some version →
     version ≠ "" →
     ∃ kept, kept ∈ uniqueRecords versions ∧ recordVersion kept = Some version) ∧
  (∀ kept other, kept ∈ uniqueRecords versions → other ∈ versions →
     recordVersion other = recordVersion kept → recordSource other = "tenant" →
     recordSource kept = "tenant").
Proof.
  unfold uniqueRecords.
  destruct (keepUnique_inv versions) as (Hnodup & Hheld & Hkeys & Htenant).
  simpl in *. set (unique := foldl keepUnique [] versions) in *.
  split_and!.
  - assert (recordVersion <$> (snd <$> unique) = Some <$> (fst <$> unique)) as ->.
    { rewrite <- !list_fmap_compose. apply Forall_fmap_ext_1, Forall_forall.
      intros [version record] Hin. simpl. by destruct (Hheld _ _ Hin) as (_ & -> & _). }
    apply NoDup_fmap_2; [| done]. by intros ?? [= ->].
  - intros kept Hin. apply list_elem_of_fmap in Hin as ([version record] & -> & Hin).
    destruct (Hheld _ _ Hin) as (? & ? & ?). simpl. split; [done |]. by exists version.
  - intros record version Hin Hversion Hne.
    pose proof (Hkeys _ _ Hin Hversion Hne) as Hkey.
    apply list_elem_of_fmap in Hkey as ([key kept] & -> & Hkept). simpl in *.
    exists kept. split; [by apply (list_elem_of_fmap_2 snd) in Hkept |].
    by destruct (Hheld _ _ Hkept) as (_ & -> & _).
  - intros kept other Hin Hother Hsame Hsource.
    apply list_elem_of_fmap in Hin as ([version record] & -> & Hin). simpl in *.
    destruct (Hheld _ _ Hin) as (_ & Hversion & _).
    eapply Htenant; [exact Hin | exact Hother | congruence | done].
Qed.

(** [getVersionHistory] in terms of what the two fetches return. *)
Lemma getVersionHistory_eq (table : VersionTable) (toolName tenantId : string)
    (includePublic includeInactive : bool)
    (caches afterTenant after : VersionCaches)
    (tenantItems publicItems : list VersionItem) :
  fetchTenantVersions table toolName tenantId includeInactive caches
  = (afterTenant, Ok tenantItems) →
  (if includePublic
   then fetchPublicVersions table toolName includeInactive afterTenant
        = (after, Ok publicItems)
   else after = afterTenant ∧ publicItems = []) →
  getVersionHistory table toolName tenantId includePublic includeInactive caches
  = (after,
     sortVersions
       (uniqueRecords
          (((λ item, toVersionRecord item "tenant") <$> tenantItems)
           ++ ((λ item, toVersionRecord item "public") <$> publicItems)))).
Proof.
  intros Htenant Hpublic. unfold getVersionHistory. rewrite Htenant.
  destruct includePublic.
  - by rewrite Hpublic.
  - destruct Hpublic as [-> ->]. by rewrite app_nil_r.
Qed.

Lemma history_spec (tenantItems publicItems : list VersionItem) :
  (∀ item version, item ∈ tenantItems ++ publicItems →
     itemVersion item = Some version →
     (String.length version ≤ maxStrDigits)%nat) →
  ∃ history,
    sortVersions
      (uniqueRecords
         (((λ item, toVersionRecord item "tenant") <$> tenantItems)
          ++ ((λ item, toVersionRecord item "public") <$> publicItems)))
    = Fine history ∧
    NoDup (recordVersion <$> history) ∧
    StronglySorted notBelow history ∧
    (∀ record, record ∈ history →
        ∃ version, recordVersion record = Some version ∧ version ≠ "") ∧
    (∀ version,
        Some version ∈ recordVersion <$> history ↔
        version ≠ "" ∧ Some version ∈ itemVersion <$> (tenantItems ++ publicItems)) ∧
    (∀ record, record ∈ history →
        (∃ item, item ∈ tenantItems ∧ record = toVersionRecord item "tenant") ∨
        (∃ item, item ∈ publicItems ∧ record = toVersionRecord item "public" ∧
                 itemVersion item ∉ itemVersion <$> tenantItems)).
Proof.
  intros Hshort.
  set (versions := ((λ item, toVersionRecord item "tenant") <$> tenantItems)
                   ++ ((λ item, toVersionRecord item "public") <$> publicItems)).
  assert (Hfrom : ∀ record, record ∈ versions →
            ∃ item, item ∈ tenantItems ++ publicItems ∧
                    recordVersion record = itemVersion item ∧
                    ((item ∈ tenantItems ∧ record = toVersionRecord item "tenant") ∨
                     (item ∈ publicItems ∧ record = toVersionRecord item "public"))).
  { intros record Hin. apply elem_of_app in Hin as [Hin | Hin];
      apply list_elem_of_fmap in Hin as (item & -> & Hin); exists item;
      (split_and!; [apply elem_of_app; tauto | done | tauto]). }
  destruct (uniqueRecords_spec versions) as (Hnodup & Hkept & Hall & Hsource).
  destruct (sortVersions_total (uniqueRecords versions)) as [history Hsorted].
  { apply Forall_forall. intros kept Hin.
    destruct (Hkept _ Hin) as (Hin' & version & Hversion & _).
    destruct (Hfrom _ Hin') as (item & Hitem & Hsame & _).
    destruct (parseVersionTuple_total version) as [key Hkey].
    { eapply Hshort; [exact Hitem | congruence]. }
    exists key. unfold versionKey. by rewrite Hversion, Hkey. }
  exists history. destruct (sortVersions_spec _ _ Hsorted) as [Hperm Hdesc].
  split_and!; [done | by rewrite Hperm | done | | |].
  - intros record Hin. rewrite Hperm in Hin. by destruct (Hkept _ Hin) as (_ & ?).
  - intros version. rewrite Hperm. split.
    + intros Hin. apply list_elem_of_fmap in Hin as (kept & Hversion & Hin).
      destruct (Hkept _ Hin) as (Hin' & version' & Hversion' & Hne).
      assert (version' = version) as -> by congruence.
      split; [done |]. destruct (Hfrom _ Hin') as (item & Hitem & Hsame & _).
      apply list_elem_of_fmap. exists item. split; [congruence | done].
    + intros [Hne Hin]. apply list_elem_of_fmap in Hin as (item & Hversion & Hin).
      assert (∃ record, record ∈ versions ∧ recordVersion record = Some version)
        as (record & Hrecord & Hrv).
      { apply elem_of_app in Hin as [Hin | Hin].
        - exists (toVersionRecord item "tenant"). split; [| done].
          apply elem_of_app. left.
          by apply (list_elem_of_fmap_2 (λ item, toVersionRecord item "tenant")).
        - exists (toVersionRecord item "public"). split; [| done].
          apply elem_of_app. right.
          by apply (list_elem_of_fmap_2 (λ item, toVersionRecord item "public")). }
      destruct (Hall _ _ Hrecord Hrv Hne) as (kept & Hkin & Hkv).
      apply list_elem_of_fmap. exists kept. by split.
  - intros record Hin. rewrite Hperm in Hin.
    destruct (Hkept _ Hin) as (Hin' & version & Hversion & Hne).
    destruct (Hfrom _ Hin') as (item & _ & Hsame & [[Hitem ->] | [Hitem ->]]).
    + left. by exists item.
    + right. exists item. split_and!; [done | done |].
      intros Htenant. apply list_elem_of_fmap in Htenant as (other & Hother & Hoin).
      assert (recordSource (toVersionRecord item "public") = "tenant") as Habsurd; [| done].
      apply (Hsource _ (toVersionRecord other "tenant")); [done | | done | done].
      apply elem_of_app. left.
      by apply (list_elem_of_fmap_2 (λ item, toVersionRecord item "tenant")).
Qed.

(** X25. The version history of a tool. When the two fetches give the
    tenant's items and, if public versions are asked for, the public
    items, and no version string is longer than the conversion limit,
    [getVersionHistory] returns a list in which every non-empty version of
    the items appears once and nothing else does, in which no record sorts
    below a later one, and in which a public record stands only for a
    version that no tenant item has. *)
Theorem history_lists_each_version_once (table : VersionTable)
    (toolName tenantId : string) (includePublic includeInactive : bool)
    (caches afterTenant after : VersionCaches)
    (tenantItems publicItems : list VersionItem) :
  fetchTenantVersions table toolName tenantId includeInactive caches
  = (afterTenant, Ok tenantItems) →
  (if includePublic
   then fetchPublicVersions table toolName includeInactive afterTenant
        = (after, Ok publicItems)
   else after = afterTenant ∧ publicItems = []) →
  Forall shortVersion (tenantItems ++ publicItems) →
  ∃ history,
    getVersionHistory table toolName tenantId includePublic includeInactive caches
    = (after, Fine history) ∧
    NoDup (recordVersion <$> history) ∧
    StronglySorted notBelow history ∧
    (∀ record, record ∈ history →
        ∃ version, recordVersion record = Some version ∧ version ≠ "") ∧
    (∀ version,
        Some version ∈ recordVersion <$> history ↔
        version ≠ "" ∧ Some version ∈ itemVersion <$> (tenantItems ++ publicItems)) ∧
    (∀ record, record ∈ history →
        (∃ item, item ∈ tenantItems ∧ record = toVersionRecord item "tenant") ∨
        (∃ item, item ∈ publicItems ∧ record = toVersionRecord item "public" ∧
                 itemVersion item ∉ itemVersion <$> tenantItems)).
Proof.
  intros Htenant Hpublic Hshort.
  rewrite (getVersionHistory_eq _ _ _ _ _ _ _ _ _ _ Htenant Hpublic).
  destruct (history_spec tenantItems publicItems) as (history & -> & Hspec).
  { intros item version Hin. rewrite Forall_forall in Hshort. by apply Hshort. }
  by exists history.
Qed.

Lemma history_lists_each_version_once_witness :
  ∃ history,
    getVersionHistory sampleVersionTable "search" "acme" true true emptyCaches
    = ((fetchPublicVersions sampleVersionTable "search" true
          (fetchTenantVersions sampleVersionTable "search" "acme" true emptyCaches).1).1,
       Fine history) ∧
    NoDup (recordVersion <$> history) ∧
    StronglySorted notBelow history ∧
    (∀ record, record ∈ history →
        ∃ version, recordVersion record = Some version ∧ version ≠ "") ∧
    (∀ version,
        Some version ∈ recordVersion <$> history ↔
        version ≠ "" ∧
        Some version ∈ itemVersion <$> (concat sampleTenantPages ++ concat samplePublicPages)) ∧
    (∀ record, record ∈ history →
        (∃ item, item ∈ concat sampleTenantPages ∧ record = toVersionRecord item "tenant") ∨
        (∃ item, item ∈ concat samplePublicPages ∧ record = toVersionRecord item "public" ∧
                 itemVersion item ∉ itemVersion <$> concat sampleTenantPages)).
Proof.
  apply (history_lists_each_version_once sampleVersionTable "search" "acme" true true
           emptyCaches
           (fetchTenantVersions sampleVersionTable "search" "acme" true emptyCaches).1
           _ (concat sampleTenantPages) (concat samplePublicPages)).
  - reflexivity.
  - reflexivity.
  - unfold sampleTenantPages, samplePublicPages. simpl.
    repeat (apply Forall_cons; split;
            [intros version [= <-]; unfold maxStrDigits; simpl; lia |]).
    by apply Forall_nil.
Defined.

(** The latest version in terms of the items that the fetches return. *)
Lemma latest_spec (table : VersionTable) (toolName tenantId : string)
    (includePublic : bool) (caches afterTenant after : VersionCaches)
    (tenantItems publicItems : list VersionItem) :
  fetchTenantVersions table toolName tenantId false caches
  = (afterTenant, Ok tenantItems) →
  (if includePublic
   then fetchPublicVersions table toolName false afterTenant = (after, Ok publicItems)
   else after = afterTenant ∧ publicItems = []) →
  Forall shortVersion (tenantItems ++ publicItems) →
  ∃ latest,
    getLatestVersion table toolName tenantId includePublic caches
    = (after, Fine latest) ∧
    (latest = None ↔
     ∀ item version, item ∈ tenantItems ++ publicItems →
                     itemVersion item = Some version → version = "") ∧
    (∀ version, latest = Some version →
       version ≠ "" ∧
       Some version ∈ itemVersion <$> (tenantItems ++ publicItems) ∧
       ∀ item other key otherKey,
         item ∈ tenantItems ++ publicItems → itemVersion item = Some other →
         other ≠ "" →
         parseVersionTuple version = Ok key →
         parseVersionTuple other = Ok otherKey →
         keyLt key otherKey = false).
Proof.
  intros Htenant Hpublic Hshort. unfold getLatestVersion.
  rewrite (getVersionHistory_eq _ _ _ _ _ _ _ _ _ _ Htenant Hpublic).
  destruct (history_spec tenantItems publicItems)
    as (history & -> & Hnodup & Hsorted & Hsome & Hversions & _).
  { intros item version Hin. rewrite Forall_forall in Hshort. by apply Hshort. }
  destruct history as [|record rest].
  - exists None. split_and!; [done | | done]. split; [| done]. intros _ item version Hin Hv.
    destruct (decide (version = "")) as [-> | Hne]; [done |]. exfalso.
    assert (Some version ∈ recordVersion <$> []) as Hin'; [| by apply elem_of_nil in Hin'].
    apply Hversions. split; [done |]. apply list_elem_of_fmap. by exists item.
  - exists (recordVersion record).
    destruct (Hsome record) as (version & Hrecord & _); [apply list_elem_of_here |].
    rewrite Hrecord.
    pose proof (proj1 (Hversions version)) as Hin.
    destruct Hin as [Hne Hitem].
    { rewrite fmap_cons, Hrecord. apply list_elem_of_here. }
    split_and!; [done | | ].
    + split; [done |]. intros Hnone. exfalso.
      apply list_elem_of_fmap in Hitem as (item & Hv & Hitem).
      symmetry in Hv. by apply (Hnone _ _ Hitem) in Hv.
    + intros ? [= <-]. split_and!; [done | done |].
      intros item other key otherKey Hin Hv Hother Hkey HotherKey.
      assert (Some other ∈ recordVersion <$> record :: rest) as Hlisted.
      { apply Hversions. split; [done |]. apply list_elem_of_fmap. by exists item. }
      apply list_elem_of_fmap in Hlisted as (listed & Hlv & Hlisted).
      apply elem_of_cons in Hlisted as [-> | Hlater].
      * assert (other = version) as -> by congruence.
        assert (otherKey = key) as -> by congruence.
        apply keyLt_false. lia.
      * apply StronglySorted_inv in Hsorted as [_ Hall].
        rewrite Forall_forall in Hall. apply (Hall _ Hlater).
        -- unfold versionKey. by rewrite Hrecord, Hkey.
        -- unfold versionKey. by rewrite <- Hlv, HotherKey.
Qed.

(** X26. The latest version of a tool is the greatest one. With the items
    that the two fetches give, [getLatestVersion] answers [None] exactly
    when no item has a non-empty version; otherwise it answers a
    non-empty version of one of the items, and the numbers of no other
    version sort above its numbers. (Inactive items take part when the
    cache holds them; a version that does not match the pattern counts as
    0.0.0.) *)
Theorem latest_version_is_greatest (table : VersionTable)
    (toolName tenantId : string) (includePublic : bool)
    (caches afterTenant after : VersionCaches)
    (tenantItems publicItems : list VersionItem) :
  fetchTenantVersions table toolName tenantId false caches
  = (afterTenant, Ok tenantItems) →
  (if includePublic
   then fetchPublicVersions table toolName false afterTenant = (after, Ok publicItems)
   else after = afterTenant ∧ publicItems = []) →
  Forall shortVersion (tenantItems ++ publicItems) →
  ∃ latest,
    getLatestVersion table toolName tenantId includePublic caches
    = (after, Fine latest) ∧
    (latest = None ↔
     ∀ item version, item ∈ tenantItems ++ publicItems →
                     itemVersion item = Some version → version = "") ∧
    (∀ version, latest = Some version →
       version ≠ "" ∧
       Some version ∈ itemVersion <$> (tenantItems ++ publicItems) ∧
       ∀ item other key otherKey,
         item ∈ tenantItems ++ publicItems → itemVersion item = Some other →
         other ≠ "" →
         parseVersionTuple version = Ok key →
         parseVersionTuple other = Ok otherKey →
         keyLt key otherKey = false).
Proof. apply latest_spec. Qed.

Lemma latest_version_is_greatest_witness :
  ∃ latest,
    getLatestVersion sampleVersionTable "search" "acme" false emptyCaches
    = ((fetchTenantVersions sampleVersionTable "search" "acme" false emptyCaches).1,
       Fine latest) ∧
    (latest = None ↔
     ∀ item version, item ∈ [itemOf "1.2.0" true; itemOf "1.9.3" true] ++ [] →
                     itemVersion item = Some version → version = "") ∧
    (∀ version, latest = Some version →
       version ≠ "" ∧
       Some version ∈ itemVersion <$> ([itemOf "1.2.0" true; itemOf "1.9.3" true] ++ []) ∧
       ∀ item other key otherKey,
         item ∈ [itemOf "1.2.0" true; itemOf "1.9.3" true] ++ [] →
         itemVersion item = Some other →
         other ≠ "" →
         parseVersionTuple version = Ok key →
         parseVersionTuple other = Ok otherKey →
         keyLt key otherKey = false).
Proof.
  apply (latest_version_is_greatest sampleVersionTable "search" "acme" false
           emptyCaches
           (fetchTenantVersions sampleVersionTable "search" "acme" false emptyCaches).1
           _ [itemOf "1.2.0" true; itemOf "1.9.3" true] []).
  - reflexivity.
  - split; reflexivity.
  - simpl.
    repeat (apply Forall_cons; split;
            [intros version [= <-]; unfold maxStrDigits; simpl; lia |]).
    by apply Forall_nil.
Defined.

(** X27. The tenant cache answers by its key alone. Once a fetch has
    returned a list of items, every later fetch whose tenant and tool name
    give the same cache key returns that list and leaves the caches as
    they are, whatever the table holds by then and whether or not inactive
    items are asked for. The key is the tenant, a colon and the tool name,
    so two different pairs can share it. *)
Theorem cached_versions_are_served_again (table later : VersionTable)
    (toolName tenantId otherTool otherTenant : string)
    (includeInactive otherFlag : bool)
    (caches after : VersionCaches) (items : list VersionItem) :
  fetchTenantVersions table toolName tenantId includeInactive caches
  = (after, Ok items) →
  cacheKey otherTenant otherTool = cacheKey tenantId toolName →
  fetchTenantVersions later otherTool otherTenant otherFlag after
  = (after, Ok items).
Proof.
  unfold fetchTenantVersions. intros Hfirst ->.
  destruct (tenantCache caches !! cacheKey tenantId toolName) as [cached|] eqn:Hhit.
  - injection Hfirst as <- <-. by rewrite Hhit.
  - destruct (tenantPages table _ _) as [pages|]; [| done].
    injection Hfirst as <- <-. simpl. by rewrite lookup_insert_eq.
Qed.

Lemma cached_versions_are_served_again_witness :
  fetchTenantVersions noVersionTable "b:search" "a" true
    (fetchTenantVersions sampleVersionTable "search" "a:b" false emptyCaches).1
  = ((fetchTenantVersions sampleVersionTable "search" "a:b" false emptyCaches).1,
     Ok [itemOf "1.2.0" true; itemOf "1.9.3" true]).
Proof.
  apply (cached_versions_are_served_again sampleVersionTable noVersionTable
           "search" "a:b" "b:search" "a" false true emptyCaches).
  - reflexivity.
  - reflexivity.
Defined.

Lemma validateVersion_nonempty (version : string) :
  validateVersion version = true → version ≠ "".
Proof. by intros Hvalid ->. Qed.

(** The tenant cache after [getLatestVersion] had to ask the table. *)
Lemma getLatestVersion_caches (table : VersionTable) (toolName tenantId : string)
    (includePublic : bool) (caches : VersionCaches)
    (pages : list (list VersionItem)) :
  tenantCache caches !! cacheKey tenantId toolName = None →
  tenantPages table ("TENANT#" +:+ tenantId) ("TOOL#" +:+ toolName +:+ "#VERSION#")
  = Ok pages →
  tenantCache (getLatestVersion table toolName tenantId includePublic caches).1
    !! cacheKey tenantId toolName
  = Some (filter (λ item, isActiveItem item = true) (concat pages)).
Proof.
  intros Hmiss Hpages.
  unfold getLatestVersion, getVersionHistory, fetchTenantVersions.
  rewrite Hmiss, Hpages. destruct includePublic.
  - unfold fetchPublicVersions. cbn [publicCache tenantCache].
    destruct (publicCache caches !! toolName) as [cached|].
    + destruct (sortVersions _) as [[|record rest]|]; simpl;
        by rewrite lookup_insert_eq.
    + destruct (publicPages table toolName _) as [publicItems|].
      * destruct (sortVersions _) as [[|record rest]|]; simpl;
          by rewrite lookup_insert_eq.
      * simpl. by rewrite lookup_insert_eq.
  - destruct (sortVersions _) as [[|record rest]|]; simpl;
      by rewrite lookup_insert_eq.
Qed.

(** The availability check against a tenant cache that holds [items]. *)
Lemma ensureVersionAvailable_cached (table : VersionTable)
    (toolName tenantId version : string) (caches : VersionCaches)
    (items : list VersionItem) :
  tenantCache caches !! cacheKey tenantId toolName = Some items →
  Forall shortVersion items →
  validateVersion version = true →
  ensureVersionAvailable table toolName tenantId version caches
  = (caches,
     if bool_decide (Some version ∈ itemVersion <$> items)
     then Refused (InvalidToolDefinition
                     ("Tool " +:+ toolName +:+ " version " +:+ version
                      +:+ " already exists")
                     (Some toolName))
     else Fine tt).
Proof.
  intros Hhit Hshort Hvalid.
  assert (Hfetch : fetchTenantVersions table toolName tenantId true caches
                   = (caches, Ok items)).
  { unfold fetchTenantVersions. by rewrite Hhit. }
  unfold ensureVersionAvailable, versionExists, ensureValidVersion.
  rewrite Hvalid.
  rewrite (getVersionHistory_eq table toolName tenantId false true
             caches caches caches items [] Hfetch (conj eq_refl eq_refl)).
  destruct (history_spec items []) as (history & -> & _ & _ & _ & Hversions & _).
  { intros item ? Hin. rewrite app_nil_r in Hin.
    rewrite Forall_forall in Hshort. by apply Hshort. }
  rewrite app_nil_r in Hversions.
  assert (existsb (λ record, bool_decide (recordVersion record = Some version)) history
          = bool_decide (Some version ∈ itemVersion <$> items)) as ->.
  { apply eq_true_iff_eq. rewrite existsb_exists, bool_decide_eq_true. split.
    - intros (record & Hin & Hsame). apply bool_decide_eq_true in Hsame.
      apply (proj1 (Hversions version)), list_elem_of_fmap.
      exists record. split; [done |]. by apply list_elem_of_In.
    - intros Hin.
      assert (Hlisted : Some version ∈ recordVersion <$> history).
      { apply Hversions. split; [by apply validateVersion_nonempty | done]. }
      apply list_elem_of_fmap in Hlisted as (record & Hsame & Hlisted).
      exists record. split; [by apply list_elem_of_In |].
      by apply bool_decide_eq_true. }
  by destruct (bool_decide _).
Qed.

(** X28. The availability check reads the tenant cache, and the cache
    may hold active items only. Take a valid version that the table holds
    for the tenant on inactive items only, and a cache without an entry
    for the tool. Checked at once, the version is refused as existing.
    Checked after [getLatestVersion] has run, with the result and the
    table it sees being what they may, it passes: the cached list was
    filtered for active items, and the check does not ask the table
    again. *)
Theorem availability_check_misses_inactive_versions (table later : VersionTable)
    (toolName tenantId version : string) (includePublic : bool)
    (caches : VersionCaches) (pages : list (list VersionItem)) :
  tenantCache caches !! cacheKey tenantId toolName = None →
  tenantPages table ("TENANT#" +:+ tenantId) ("TOOL#" +:+ toolName +:+ "#VERSION#")
  = Ok pages →
  Forall shortVersion (concat pages) →
  validateVersion version = true →
  Some version ∈ itemVersion <$> concat pages →
  (∀ item, item ∈ concat pages → itemVersion item = Some version →
           isActiveItem item = false) →
  (ensureVersionAvailable table toolName tenantId version caches).2
  = Refused (InvalidToolDefinition
               ("Tool " +:+ toolName +:+ " version " +:+ version
                +:+ " already exists")
               (Some toolName)) ∧
  ensureVersionAvailable later toolName tenantId version
    (getLatestVersion table toolName tenantId includePublic caches).1
  = ((getLatestVersion table toolName tenantId includePublic caches).1, Fine tt).
Proof.
  intros Hmiss Hpages Hshort Hvalid Hheld Hinactive. split.
  - assert (Hfetch : fetchTenantVersions table toolName tenantId true caches
                     = ({| tenantCache := <[cacheKey tenantId toolName := concat pages]>
                                            (tenantCache caches);
                           publicCache := publicCache caches |},
                        Ok (concat pages))).
    { unfold fetchTenantVersions. by rewrite Hmiss, Hpages. }
    unfold ensureVersionAvailable, versionExists, ensureValidVersion.
    rewrite Hvalid.
    rewrite (getVersionHistory_eq table toolName tenantId false true
               caches _ _ (concat pages) [] Hfetch (conj eq_refl eq_refl)).
    destruct (history_spec (concat pages) []) as (history & -> & _ & _ & _ & Hversions & _).
    { intros item ? Hin. rewrite app_nil_r in Hin.
      rewrite Forall_forall in Hshort. by apply Hshort. }
    rewrite app_nil_r in Hversions.
    assert (existsb (λ record, bool_decide (recordVersion record = Some version)) history
            = true) as ->; [| done].
    apply existsb_exists.
    assert (Hin : Some version ∈ recordVersion <$> history).
    { apply Hversions. split; [by apply validateVersion_nonempty | done]. }
    apply list_elem_of_fmap in Hin as (record & Hsame & Hin).
    exists record. split; [by apply list_elem_of_In |]. by apply bool_decide_eq_true.
  - rewrite (ensureVersionAvailable_cached later toolName tenantId version _
               (filter (λ item, isActiveItem item = true) (concat pages))).
    + rewrite bool_decide_eq_false_2; [done |].
      intros Hin. apply list_elem_of_fmap in Hin as (item & Hsame & Hin).
      apply list_elem_of_filter in Hin as [Hactive Hin].
      rewrite (Hinactive item Hin) in Hactive; done.
    + by apply getLatestVersion_caches.
    + rewrite Forall_forall in Hshort |- *. intros item Hin.
      apply list_elem_of_filter in Hin as [_ Hin]. by apply Hshort.
    + done.
Qed.

Lemma availability_check_misses_inactive_versions_witness :
  (ensureVersionAvailable sampleVersionTable "search" "acme" "1.10.0" emptyCaches).2
  = Refused (InvalidToolDefinition
               ("Tool " +:+ "search" +:+ " version " +:+ "1.10.0"
                +:+ " already exists")
               (Some "search")) ∧
  ensureVersionAvailable sampleVersionTable "search" "acme" "1.10.0"
    (getLatestVersion sampleVersionTable "search" "acme" true emptyCaches).1
  = ((getLatestVersion sampleVersionTable "search" "acme" true emptyCaches).1, Fine tt).
Proof.
  apply (availability_check_misses_inactive_versions sampleVersionTable
           sampleVersionTable "search" "acme" "1.10.0" true emptyCaches
           sampleTenantPages).
  - reflexivity.
  - reflexivity.
  - unfold sampleTenantPages. simpl.
    repeat (apply Forall_cons; split;
            [intros version [= <-]; unfold maxStrDigits; simpl; lia |]).
    by apply Forall_nil.
  - vm_compute; reflexivity.
  - unfold sampleTenantPages. simpl. apply list_elem_of_further, list_elem_of_here.
  - unfold sampleTenantPages. simpl. intros item Hin Hversion.
    repeat (apply elem_of_cons in Hin as [-> | Hin]; [by (discriminate || reflexivity) |]).
    by apply elem_of_nil in Hin.
Defined.

Lemma startsWith_cacheKey (tenantId toolName : string) :
  startsWith (tenantId +:+ ":") (cacheKey tenantId toolName) = true.
Proof.
  unfold startsWith, cacheKey. apply bool_decide_eq_true.
  exists (String.list_ascii_of_string toolName).
  rewrite !list_ascii_of_append. simpl. by rewrite <- app_assoc.
Qed.

Lemma endsWith_cacheKey (tenantId toolName : string) :
  endsWith (":" +:+ toolName) (cacheKey tenantId toolName) = true.
Proof.
  unfold endsWith, cacheKey. apply bool_decide_eq_true.
  exists (String.list_ascii_of_string tenantId).
  by rewrite !list_ascii_of_append.
Qed.

(** X29. What a registration or a deactivation drops from the caches.
    With a tenant and a tool name that are both non-empty it drops the
    tenant entry of the pair and keeps every other tenant entry. With an
    empty tool name it drops every entry of the tenant, with an empty
    tenant every tenant entry of the tool; with both empty it drops
    nothing. The public entry of the tool goes whenever the tool name is
    non-empty. *)
Theorem registration_drops_cached_versions (tenantId toolName : string)
    (caches : VersionCaches) :
  (tenantId ≠ "" → toolName ≠ "" →
   tenantCache (recordVersionRegistration tenantId toolName caches)
   = delete (cacheKey tenantId toolName) (tenantCache caches)) ∧
  (tenantId ≠ "" → toolName = "" →
   ∀ tool, tenantCache (recordVersionRegistration tenantId toolName caches)
             !! cacheKey tenantId tool = None) ∧
  (tenantId = "" → toolName ≠ "" →
   ∀ tenant, tenantCache (recordVersionRegistration tenantId toolName caches)
               !! cacheKey tenant toolName = None) ∧
  (tenantId = "" → toolName = "" →
   recordVersionRegistration tenantId toolName caches = caches) ∧
  (toolName ≠ "" →
   publicCache (recordVersionRegistration tenantId toolName caches) !! toolName = None) ∧
  recordVersionDeactivation tenantId toolName caches
  = recordVersionRegistration tenantId toolName caches.
Proof.
  unfold recordVersionDeactivation, recordVersionRegistration, invalidateCache.
  split_and!.
  - intros Htenant Htool. by destruct tenantId, toolName.
  - intros Htenant -> tool. destruct tenantId as [|c tenantId]; [done |].
    cbn [tenantCache]. apply map_lookup_filter_None. right. intros items _.
    simpl. by rewrite startsWith_cacheKey.
  - intros -> Htool tenant. destruct toolName as [|c toolName]; [done |].
    cbn [tenantCache]. apply map_lookup_filter_None. right. intros items _.
    simpl. by rewrite endsWith_cacheKey.
  - intros -> ->. by destruct caches.
  - intros Htool. destruct toolName as [|c toolName]; [done |].
    cbn [publicCache]. by rewrite lookup_delete_eq.
  - done.
Qed.

Lemma formatVersion_printable (numbers : Z * Z * Z) (version : string) :
  formatVersion numbers = Ok version →
  (0 ≤ numbers.1.1 ∧ 0 ≤ numbers.1.2 ∧ 0 ≤ numbers.2) →
  printable numbers.
Proof.
  destruct numbers as [[major minor] patch]. unfold formatVersion, strOfInt, printable.
  simpl. intros Hformat Hnonneg. split; [done |]. unfold digitCount.
  destruct (decide (maxStrDigits < String.length (intStr major))%nat); [done |].
  destruct (decide (maxStrDigits < String.length (intStr minor))%nat); [done |].
  destruct (decide (maxStrDigits < String.length (intStr patch))%nat); [done |].
  lia.
Qed.

Lemma bump_nonneg (releaseType : ToolReleaseType) (current : Z * Z * Z) :
  (0 ≤ current.1.1 ∧ 0 ≤ current.1.2 ∧ 0 ≤ current.2) →
  0 ≤ (bump releaseType current).1.1 ∧ 0 ≤ (bump releaseType current).1.2
  ∧ 0 ≤ (bump releaseType current).2.
Proof.
  destruct current as [[major minor] patch]. destruct releaseType; simpl; lia.
Qed.

(** X30. The next version of a tool. With the items that the two fetches
    give: if no item has a non-empty version the answer is 1.0.0; and
    whenever [getNextVersion] answers with a version, that version matches
    the pattern and its numbers sort strictly above those of every
    non-empty version of the items. *)
Theorem next_version_tops_the_history (table : VersionTable)
    (toolName tenantId : string) (releaseType : ToolReleaseType)
    (includePublic : bool) (caches afterTenant after : VersionCaches)
    (tenantItems publicItems : list VersionItem) :
  fetchTenantVersions table toolName tenantId false caches
  = (afterTenant, Ok tenantItems) →
  (if includePublic
   then fetchPublicVersions table toolName false afterTenant = (after, Ok publicItems)
   else after = afterTenant ∧ publicItems = []) →
  Forall shortVersion (tenantItems ++ publicItems) →
  ((∀ item version, item ∈ tenantItems ++ publicItems →
                    itemVersion item = Some version → version = "") →
   getNextVersion table toolName tenantId releaseType includePublic caches
   = (after, Fine "1.0.0")) ∧
  (∀ next,
      getNextVersion table toolName tenantId releaseType includePublic caches
      = (after, Fine next) →
      validateVersion next = true ∧
      ∀ item other,
        item ∈ tenantItems ++ publicItems → itemVersion item = Some other →
        other ≠ "" →
        ∃ nextKey otherKey,
          parseVersionTuple next = Ok nextKey ∧
          parseVersionTuple other = Ok otherKey ∧
          keyLt otherKey nextKey = true).
Proof.
  intros Htenant Hpublic Hshort.
  destruct (latest_spec _ _ _ _ _ _ _ _ _ Htenant Hpublic Hshort)
    as (latest & Hrun & Hnone & Hsome).
  unfold getNextVersion. rewrite Hrun. split.
  - intros Hempty. apply Hnone in Hempty as ->. done.
  - intros next Hnext. destruct latest as [version|].
    + destruct (Hsome version eq_refl) as (Hne & _ & Hmax).
      rewrite decide_False in Hnext by done. injection Hnext as Hnext.
      unfold calculateNextVersion, ensureValidVersion in Hnext.
      destruct (validateVersion version) eqn:Hvalid; [| done].
      destruct (parseVersionTuple version) as [current|] eqn:Hparse; [| done].
      destruct (formatVersion (bump releaseType current)) as [formatted|] eqn:Hformat;
        [| done].
      injection Hnext as ->.
      assert (Hprintable : printable (bump releaseType current)).
      { apply (formatVersion_printable _ _ Hformat), bump_nonneg.
        destruct current as [[major minor] patch].
        by apply parseVersionTuple_nonneg in Hparse. }
      destruct (format_then_parse _ Hprintable) as (again & Hagain & Hok & Hback).
      assert (again = next) as -> by congruence.
      split; [done |]. intros item other Hin Hother Hnonempty.
      destruct (parseVersionTuple_total other) as [otherKey HotherKey].
      { rewrite Forall_forall in Hshort. by apply (Hshort item). }
      exists (bump releaseType current), otherKey. split_and!; [done | done |].
      apply (keyLt_le_lt _ current); [| apply keyLt_bump].
      by apply (Hmax item other).
    + injection Hnext as <-. split; [done |].
      intros item other Hin Hother Hnonempty. exfalso. apply Hnonempty.
      by apply (proj1 Hnone eq_refl item).
Qed.

Lemma next_version_tops_the_history_witness :
  ((∀ item version, item ∈ [itemOf "1.2.0" true; itemOf "1.9.3" true] ++ [] →
                    itemVersion item = Some version → version = "") →
   getNextVersion sampleVersionTable "search" "acme" MINOR false emptyCaches
   = ((fetchTenantVersions sampleVersionTable "search" "acme" false emptyCaches).1,
      Fine "1.0.0")) ∧
  (∀ next,
      getNextVersion sampleVersionTable "search" "acme" MINOR false emptyCaches
      = ((fetchTenantVersions sampleVersionTable "search" "acme" false emptyCaches).1,
         Fine next) →
      validateVersion next = true ∧
      ∀ item other,
        item ∈ [itemOf "1.2.0" true; itemOf "1.9.3" true] ++ [] →
        itemVersion item = Some other →
        other ≠ "" →
        ∃ nextKey otherKey,
          parseVersionTuple next = Ok nextKey ∧
          parseVersionTuple other = Ok otherKey ∧
          keyLt otherKey nextKey = true).
Proof.
  apply (next_version_tops_the_history sampleVersionTable "search" "acme" MINOR false
           emptyCaches
           (fetchTenantVersions sampleVersionTable "search" "acme" false emptyCaches).1
           _ [itemOf "1.2.0" true; itemOf "1.9.3" true] []).
  - reflexivity.
  - split; reflexivity.
  - simpl.
    repeat (apply Forall_cons; split;
            [intros version [= <-]; unfold maxStrDigits; simpl; lia |]).
    by apply Forall_nil.
Defined.
